(** * The data pipeline of [shaders.js]: text parsing and colour deduplication

    A shallow embedding of [parseDataFile] and [generateColorIndices], together
    with the parts of the ECMAScript runtime they call ([String.prototype.trim],
    [String.prototype.split], [Number], the template-literal rendering of a
    number, [Map]), and of the attribute packer that consumes their output. *)

From Stdlib Require Import String Ascii List ZArith NArith Lia Bool.
From Stdlib Require Import Floats.SpecFloat.
Import ListNotations.

Set Implicit Arguments.

(** ** ECMAScript strings

    A JS string is a sequence of UTF-16 code units. *)

Definition char := N.
Definition jsstring := list char.

Definition char_of_ascii (a : ascii) : char := N_of_ascii a.

Fixpoint str (s : string) : jsstring :=
  match s with
  | EmptyString => []
  | String a r => char_of_ascii a :: str r
  end.

Definition jsstring_eq_dec : forall a b : jsstring, {a = b} + {a <> b} :=
  list_eq_dec N.eq_dec.

Definition jsstring_eqb (a b : jsstring) : bool :=
  if jsstring_eq_dec a b then true else false.

Local Open Scope N_scope.

(** The code units matched by [\s] and removed by [trim]: the WhiteSpace and
    LineTerminator productions of ECMAScript. *)
Definition isWhiteSpace (c : char) : bool :=
  (c =? 9) || (c =? 10) || (c =? 11) || (c =? 12) || (c =? 13) || (c =? 32)
  || (c =? 160) || (c =? 5760)
  || ((8192 <=? c) && (c <=? 8202))
  || (c =? 8232) || (c =? 8233) || (c =? 8239) || (c =? 8287)
  || (c =? 12288) || (c =? 65279).

Definition BOM : char := 65279.   (* U+FEFF *)
Definition LF : char := 10.       (* \n *)

Fixpoint dropWhile (p : char -> bool) (s : jsstring) : jsstring :=
  match s with
  | [] => []
  | c :: r => if p c then dropWhile p r else s
  end.

Definition trimStart (s : jsstring) : jsstring := dropWhile isWhiteSpace s.
Definition trimEnd (s : jsstring) : jsstring := rev (dropWhile isWhiteSpace (rev s)).

(** [String.prototype.trim] *)
Definition trim (s : jsstring) : jsstring := trimEnd (trimStart s).

(** [s.split(sep)] for a one-character separator string: always at least one
    piece, the empty string gives one empty piece. *)
Fixpoint split_char (sep : char) (s : jsstring) : list jsstring :=
  match s with
  | [] => [[]]
  | c :: r =>
      if c =? sep then [] :: split_char sep r
      else match split_char sep r with
           | h :: t => (c :: h) :: t
           | [] => [[c]]
           end
  end.

(** [s.split(/\s+/)]: the pieces between maximal runs of white space. [skip]
    records that the scan is inside a run already opened. A leading or a
    trailing run leaves an empty piece, and the empty string gives [[""]]. *)
Fixpoint split_ws_from (skip : bool) (s : jsstring) : list jsstring :=
  match s with
  | [] => [[]]
  | c :: r =>
      if isWhiteSpace c then
        if skip then split_ws_from true r else [] :: split_ws_from true r
      else match split_ws_from false r with
           | h :: t => (c :: h) :: t
           | [] => [[c]]
           end
  end.

Definition split_ws (s : jsstring) : list jsstring := split_ws_from false s.

(** [text.replace(/^\uFEFF/, '')] *)
Definition stripBOM (s : jsstring) : jsstring :=
  match s with
  | c :: r => if c =? BOM then r else s
  | [] => []
  end.

Local Close Scope N_scope.

(** ** ECMAScript numbers

    A Number is an IEEE 754 binary64 value; the standard library's
    specification of floating-point numbers is used for it, with its one
    NaN (payloads cannot be observed from JavaScript). *)

Definition number := spec_float.
Definition prec : Z := 53.
Definition emax : Z := 1024.

Definition NaN : number := S754_nan.
Definition pos_zero : number := S754_zero false.
Definition neg_zero : number := S754_zero true.

Definition number_eq_dec : forall a b : number, {a = b} + {a <> b}.
Proof.
  decide equality; auto using bool_dec, Pos.eq_dec, Z.eq_dec.
Defined.

Definition number_eqb (a b : number) : bool :=
  if number_eq_dec a b then true else false.

(** The global functions [isNaN] and [isFinite] on a Number. *)
Definition isNaN (x : number) : bool :=
  match x with S754_nan => true | _ => false end.

Definition isFinite (x : number) : bool :=
  match x with S754_nan | S754_infinity _ => false | _ => true end.

(** The representative of a Number for SameValueZero, the equality that
    identifies [+0] with [-0] (and NaN with itself). *)
Definition canon (x : number) : number :=
  match x with S754_zero _ => pos_zero | _ => x end.

Local Open Scope Z_scope.

(** The Number nearest to [M * 10^E] (ties to even), negated when [neg]. *)
Definition round_decimal (neg : bool) (M E : Z) : number :=
  match M with
  | Zpos m =>
      match E with
      | Zneg _ =>
          let '(q, e, l) := SFdiv_core_binary prec emax (Zpos m) 0 (10 ^ (- E)) 0 in
          binary_round_aux prec emax neg q e l
      | _ =>
          match Zpos m * 10 ^ E with
          | Zpos p => binary_round prec emax neg p 0
          | _ => S754_zero neg
          end
      end
  | _ => S754_zero neg
  end.

Definition ch (a : ascii) : char := char_of_ascii a.

Definition isDigit (c : char) : bool := ((48 <=? c) && (c <=? 57))%N.
Definition isHexDigit (c : char) : bool :=
  (isDigit c || ((65 <=? c) && (c <=? 70)) || ((97 <=? c) && (c <=? 102)))%N.
Definition isOctalDigit (c : char) : bool := ((48 <=? c) && (c <=? 55))%N.
Definition isBinaryDigit (c : char) : bool := ((48 <=? c) && (c <=? 49))%N.

Definition digitVal (c : char) : Z :=
  if isDigit c then Z.of_N (c - 48)
  else if (c <=? 70)%N then Z.of_N (c - 55)
  else Z.of_N (c - 87).

(** The mathematical value of a digit string in base [base]. *)
Definition digitsValue (base : Z) (ds : jsstring) : Z :=
  fold_left (fun acc c => acc * base + digitVal c) ds 0.

Fixpoint span (p : char -> bool) (s : jsstring) : jsstring * jsstring :=
  match s with
  | [] => ([], [])
  | c :: r =>
      if p c then let (a, b) := span p r in (c :: a, b) else ([], s)
  end.

Definition isNil (s : jsstring) : bool :=
  match s with [] => true | _ => false end.

(** ExponentPart (optional), which has to reach the end of the string. *)
Definition parseExponent (s : jsstring) : option Z :=
  match s with
  | [] => Some 0
  | c :: r =>
      if ((c =? ch "e") || (c =? ch "E"))%N then
        let '(neg, ds) :=
          match r with
          | sg :: r' =>
              if (sg =? ch "-")%N then (true, r')
              else if (sg =? ch "+")%N then (false, r')
              else (false, r)
          | [] => (false, r)
          end in
        if negb (isNil ds) && forallb isDigit ds
        then Some (cond_Zopp neg (digitsValue 10 ds))
        else None
      else None
  end.

(** StrUnsignedDecimalLiteral: [Infinity], [digits . digits? exp?],
    [. digits exp?] or [digits exp?]. *)
Definition parseUnsignedDecimal (neg : bool) (s : jsstring) : number :=
  if jsstring_eqb s (str "Infinity") then S754_infinity neg
  else
    let (ip, r1) := span isDigit s in
    let '(fp, r2, ok) :=
      match r1 with
      | c :: r =>
          if (c =? ch ".")%N then
            let (fp, r2) := span isDigit r in
            (fp, r2, negb (isNil ip) || negb (isNil fp))
          else ([], r1, negb (isNil ip))
      | [] => ([], r1, negb (isNil ip))
      end in
    if ok then
      match parseExponent r2 with
      | Some e => round_decimal neg (digitsValue 10 (ip ++ fp)) (e - Z.of_nat (length fp))
      | None => NaN
      end
    else NaN.

(** NonDecimalIntegerLiteral: [0x], [0o] or [0b] and at least one digit. *)
Definition parseNonDecimal (s : jsstring) : option number :=
  match s with
  | z :: p :: ds =>
      if (z =? ch "0")%N && negb (isNil ds) then
        if ((p =? ch "x") || (p =? ch "X"))%N then
          if forallb isHexDigit ds then Some (round_decimal false (digitsValue 16 ds) 0) else None
        else if ((p =? ch "o") || (p =? ch "O"))%N then
          if forallb isOctalDigit ds then Some (round_decimal false (digitsValue 8 ds) 0) else None
        else if ((p =? ch "b") || (p =? ch "B"))%N then
          if forallb isBinaryDigit ds then Some (round_decimal false (digitsValue 2 ds) 0) else None
        else None
      else None
  | _ => None
  end.

(** [Number(s)] for a string [s] (the abstract operation StringToNumber). *)
Definition Number (s : jsstring) : number :=
  let t := trim s in
  match t with
  | [] => pos_zero
  | c :: r =>
      match parseNonDecimal t with
      | Some v => v
      | None =>
          if (c =? ch "-")%N then parseUnsignedDecimal true r
          else if (c =? ch "+")%N then parseUnsignedDecimal false r
          else parseUnsignedDecimal false t
      end
  end.

(** *** Number::toString (radix 10), used by template literals *)

Definition digitChar (d : Z) : char := Z.to_N (48 + d).

(** The decimal digits of [z >= 0], most significant first; [fuel] bounds
    their number. *)
Fixpoint digitsOf (fuel : nat) (z : Z) : jsstring :=
  match fuel with
  | O => []
  | S f =>
      if z <? 10 then [digitChar z]
      else digitsOf f (z / 10) ++ [digitChar (z mod 10)]
  end.

Definition decimalDigits (z : Z) : jsstring :=
  digitsOf (S (Z.to_nat (Z.log2 z))) z.

Definition numDigits (z : Z) : Z := Z.of_nat (length (decimalDigits z)).

(** The value [m * 2^e] of a finite Number as a fraction. *)
Definition vnum (m : positive) (e : Z) : Z := if e <? 0 then Zpos m else Zpos m * 2 ^ e.
Definition vden (e : Z) : Z := if e <? 0 then 2 ^ (- e) else 1.

(** The [n] with [10^(n-1) <= m * 2^e < 10^n]. *)
Definition decimalExponent (m : positive) (e : Z) : Z :=
  if vden e <=? vnum m e then numDigits (vnum m e / vden e)
  else 1 - numDigits ((vden e - 1) / vnum m e).

(** The two [k]-digit decimals [s * 10^(n-k)] around [m * 2^e], as pairs
    [(s, n)], the nearer one first (the even one on a tie). *)
Definition digitCandidates (m : positive) (e n0 k : Z) : list (Z * Z) :=
  let p := n0 - k in
  let '(a, b) := if p <? 0 then (vnum m e * 10 ^ (- p), vden e)
                 else (vnum m e, vden e * 10 ^ p) in
  let lo := a / b in
  let r := a mod b in
  let clo := (lo, n0) in
  let chi := if lo + 1 <? 10 ^ k then (lo + 1, n0) else (10 ^ (k - 1), n0 + 1) in
  match 2 * r ?= b with
  | Lt => [clo; chi]
  | Gt => [chi; clo]
  | Eq => if Z.even lo then [clo; chi] else [chi; clo]
  end.

(** "[s * 10^(n-k)] is [x]", for [k] the number of digits of [s]. *)
Definition represents (x : number) (c : Z * Z) : bool :=
  number_eqb (round_decimal false (fst c) (snd c - numDigits (fst c))) x.

(** The least [k] from [k] on, at most [fuel] of them tried, that has a
    candidate representing [x]. *)
Fixpoint searchDigits (fuel : nat) (x : number) (m : positive) (e n0 k : Z)
  : option (Z * Z) :=
  match fuel with
  | O => None
  | S f =>
      match find (represents x) (digitCandidates m e n0 k) with
      | Some c => Some c
      | None => searchDigits f x m e n0 (k + 1)
      end
  end.

(** The digits [s] and the exponent [n] of the shortest decimal that is read
    back as [m * 2^e]; 17 digits are enough for every binary64 value, so the
    last case only makes the function total. *)
Definition shortestDigits (m : positive) (e : Z) : Z * Z :=
  let n0 := decimalExponent m e in
  match searchDigits 17 (S754_finite false m e) m e n0 1 with
  | Some c => c
  | None => hd (0, 0) (digitCandidates m e n0 17)
  end.

Definition zeros (n : Z) : jsstring := repeat (ch "0") (Z.to_nat n).

(** Steps 6 to 10 of Number::toString for the digits [s] and exponent [n]. *)
Definition formatDigits (s n : Z) : jsstring :=
  let ds := decimalDigits s in
  let k := numDigits s in
  if (k <=? n) && (n <=? 21) then ds ++ zeros (n - k)
  else if (0 <? n) && (n <=? 21) then
    firstn (Z.to_nat n) ds ++ ch "." :: skipn (Z.to_nat n) ds
  else if (-6 <? n) && (n <=? 0) then
    ch "0" :: ch "." :: zeros (- n) ++ ds
  else
    let ex := n - 1 in
    let tail := ch "e" :: (if ex <? 0 then ch "-" else ch "+") :: decimalDigits (Z.abs ex) in
    if k =? 1 then ds ++ tail
    else firstn 1 ds ++ ch "." :: skipn 1 ds ++ tail.

Definition NumberToString (x : number) : jsstring :=
  match x with
  | S754_nan => str "NaN"
  | S754_zero _ => str "0"
  | S754_infinity sg => (if sg then [ch "-"] else []) ++ str "Infinity"
  | S754_finite sg m e =>
      (if sg then [ch "-"] else []) ++
      let (s, n) := shortestDigits m e in formatDigits s n
  end.

Local Close Scope Z_scope.

(** ** The data loader: [parseDataFile] *)

(** [isNaN(val) || !isFinite(val)], the test of both callbacks. *)
Definition invalidValue (val : number) : bool := isNaN val || negb (isFinite val).

(** The callback of [map]: [line.trim().split(/\s+/).map(Number)]. *)
Definition lineValues (line : jsstring) : list number :=
  map Number (split_ws (trim line)).

(** The callback of [filter]: [!values.some(...)]. *)
Definition keepValues (values : list number) : bool :=
  negb (existsb invalidValue values).

Section DataLoader.

(** The result of [createDefaultCubeData()], a helper of the repository
    that is defined outside the file under study. *)
Variable createDefaultCubeData : list number.

(** [parseDataFile(text)]. Nothing in the [try] block throws on a string,
    so the [catch] branch is not reachable and is left out. *)
Definition parseDataFile (text : jsstring) : list number :=
  let text := stripBOM text in
  if isNil text || isNil (trim text) then createDefaultCubeData
  else
    let result :=
      concat (filter keepValues (map lineValues (split_char LF (trim text)))) in
    if 0 <? length result then result else createDefaultCubeData.

End DataLoader.

(** ** Colour deduplication: [generateColorIndices] *)

(** A [Map] from strings to indices: the entries in insertion order. *)
Definition Map := list (jsstring * nat).

Definition Map_has (m : Map) (k : jsstring) : bool :=
  existsb (fun e => jsstring_eqb (fst e) k) m.

Definition Map_get (m : Map) (k : jsstring) : option nat :=
  option_map snd (find (fun e => jsstring_eqb (fst e) k) m).

(** [set] keeps the place of a key that is present and appends a new one. *)
Definition Map_set (m : Map) (k : jsstring) (v : nat) : Map :=
  if Map_has m k
  then map (fun e => if jsstring_eqb (fst e) k then (k, v) else e) m
  else m ++ [(k, v)].

Definition Map_size (m : Map) : nat := length m.

(** The local variables of [generateColorIndices]. An element of
    [colorIndices] is what [colorMap.get] returned: [None] is [undefined]. *)
Record ColorState := {
  colorMap : Map;
  colorIndices : list (option nat);
  nextIndex : nat
}.

Definition initialState : ColorState :=
  {| colorMap := []; colorIndices := []; nextIndex := 0 |}.

(** [`${v}`] for an array element: reading past the end gives [undefined]. *)
Definition templateString (v : option number) : jsstring :=
  match v with
  | Some x => NumberToString x
  | None => str "undefined"
  end.

(** [`${colorsArray[i]},${colorsArray[i+1]},${colorsArray[i+2]}`] *)
Definition colorKey (colorsArray : list number) (i : nat) : jsstring :=
  templateString (nth_error colorsArray i) ++ ch "," ::
  templateString (nth_error colorsArray (i + 1)) ++ ch "," ::
  templateString (nth_error colorsArray (i + 2)).

(** One iteration of the loop at index [i]. *)
Definition loopBody (colorsArray : list number) (i : nat) (st : ColorState)
  : ColorState :=
  let key := colorKey colorsArray i in
  let st1 :=
    if negb (Map_has (colorMap st) key)
    then {| colorMap := Map_set (colorMap st) key (nextIndex st);
            colorIndices := colorIndices st;
            nextIndex := S (nextIndex st) |}
    else st in
  {| colorMap := colorMap st1;
     colorIndices := colorIndices st1 ++ [Map_get (colorMap st1) key];
     nextIndex := nextIndex st1 |}.

(** [for (let i = ...; i < colorsArray.length; i += 3) body]; [None] when
    the fuel runs out before the loop is left. *)
Fixpoint forLoop (fuel : nat) (colorsArray : list number) (i : nat)
  (st : ColorState) : option ColorState :=
  match fuel with
  | O => None
  | S f =>
      if i <? length colorsArray
      then forLoop f colorsArray (i + 3) (loopBody colorsArray i st)
      else Some st
  end.

(** The state when the loop is left (where the sizes are logged). *)
Definition dedupe (colorsArray : list number) : option ColorState :=
  forLoop (S (length colorsArray)) colorsArray 0 initialState.

Definition generateColorIndices (colorsArray : list number)
  : option (list (option nat)) :=
  option_map colorIndices (dedupe colorsArray).

(** ** Specification-level notions for the deduplication *)

(** The number of iterations of the loop: [ceil(len / 3)]. *)
Definition tripleCount (len : nat) : nat := (len + 2) / 3.

(** The [n] loop indices from [i] on: [i], [i+3], ... *)
Fixpoint tripleStarts (n i : nat) : list nat :=
  match n with
  | O => []
  | S n' => i :: tripleStarts n' (i + 3)
  end.

(** The colour keys of the triples of an array, in order. *)
Definition keysOf (colorsArray : list number) : list jsstring :=
  map (colorKey colorsArray) (tripleStarts (tripleCount (length colorsArray)) 0).

(** The elements of a list of keys with every repetition after the first
    occurrence removed. *)
Fixpoint firstOcc (l : list jsstring) : list jsstring :=
  match l with
  | [] => []
  | k :: r => k :: filter (fun x => negb (jsstring_eqb x k)) (firstOcc r)
  end.

(** The position of the first occurrence of [k]. *)
Fixpoint indexOf (k : jsstring) (l : list jsstring) : option nat :=
  match l with
  | [] => None
  | h :: t => if jsstring_eqb h k then Some 0 else option_map S (indexOf k t)
  end.

(** The palette whose keys are [D], numbered from 0 in that order. *)
Definition paletteOf (D : list jsstring) : Map := combine D (seq 0 (length D)).

(** One iteration seen from its key. *)
Definition stepKey (st : ColorState) (key : jsstring) : ColorState :=
  let st1 :=
    if negb (Map_has (colorMap st) key)
    then {| colorMap := Map_set (colorMap st) key (nextIndex st);
            colorIndices := colorIndices st;
            nextIndex := S (nextIndex st) |}
    else st in
  {| colorMap := colorMap st1;
     colorIndices := colorIndices st1 ++ [Map_get (colorMap st1) key];
     nextIndex := nextIndex st1 |}.

(** The keys seen, in the order in which they were first seen, after the keys
    of [l] have been met starting from [D]. *)
Definition seenAfter (D l : list jsstring) : list jsstring :=
  fold_left (fun acc k => if existsb (jsstring_eqb k) acc then acc else acc ++ [k]) l D.

(** ** The attribute packer

    [setupVertexBuffers] and [drawTruck] read [attr.name], [attr.size] and
    [attr.offset] and call [getStride()] and [getBuffer()] on the attribute
    set; the class that defines them is not part of the file under study. *)

(** Modelled from the spec: a named attribute, missing with the class
    [Attributes]; a name, a numeric series, the per-vertex width and the byte
    offset derived when the attribute is added. *)
Record Attribute := {
  attr_name : jsstring;
  attr_data : list number;
  attr_size : nat;
  attr_offset : nat
}.

(** Modelled from the spec: the insertion-ordered attribute set, missing
    with the class [Attributes]. *)
Definition Attributes := list Attribute.

(** Modelled from the spec: the byte size of one scalar, missing with the
    class [Attributes]. *)
Definition scalarSize : nat := 4.

(** Modelled from the spec: [getStride], missing with the class [Attributes];
    the sum of all attribute widths times the scalar size. *)
Definition getStride (attrs : Attributes) : nat :=
  list_sum (map attr_size attrs) * scalarSize.

(** Modelled from the spec: [addAttribute], missing with the class
    [Attributes]; the byte offset is the running sum of the byte widths of the
    attributes already present. *)
Definition addAttribute (attrs : Attributes) (name : jsstring)
  (data : list number) (size : nat) : Attributes :=
  attrs ++ [{| attr_name := name; attr_data := data; attr_size := size;
               attr_offset := getStride attrs |}].

(** Modelled from the spec: an attribute set as its owner builds it, missing
    with the class [Attributes]; attributes are added one by one to an empty
    set. *)
Definition buildAttributes (l : list (jsstring * list number * nat)) : Attributes :=
  fold_left (fun attrs '(name, data, size) => addAttribute attrs name data size) l [].

(** Modelled from the spec: an attribute with [V] vertices, missing with
    the class [Attributes]; its width is positive and its series holds [V]
    times its width numbers. *)
Definition hasCount (V : nat) (a : Attribute) : bool :=
  (0 <? attr_size a) && (length (attr_data a) =? V * attr_size a).

(** Modelled from the spec: the vertex count of a set, missing with the class
    [Attributes]; the count of the first attribute, when it is positive and
    every attribute of the set has it. A set whose attributes disagree, and a
    set without a vertex, has none: packing it is an error. *)
Definition vertexCount (attrs : Attributes) : option nat :=
  match attrs with
  | [] => None
  | a :: _ =>
      let V := length (attr_data a) / attr_size a in
      if (0 <? V) && forallb (hasCount V) attrs then Some V else None
  end.

Section Packer.

(** The bytes of a scalar in the buffer, and their reading; the spec fixes
    their number, 4, and not the encoding, which is a parameter here. *)
Variable encodeScalar : number -> list Byte.byte.
Variable decodeScalar : list Byte.byte -> number.

(** Modelled from the spec: a write of [bs] at byte [pos] of a buffer,
    missing with the class [Attributes]. The writes of a set that has a
    vertex count all fit; one that did not would change nothing. *)
Definition writeBytes (pos : nat) (bs buf : list Byte.byte) : list Byte.byte :=
  if pos + length bs <=? length buf
  then firstn pos buf ++ bs ++ skipn (pos + length bs) buf
  else buf.

(** Modelled from the spec: the writes for vertex [v], missing with the
    class [Attributes]; for each attribute in insertion order its [width]
    scalars at [v * stride + byteOffset]. For a vertex below the vertex
    count of the set every scalar is in the series. *)
Definition vertexWrites (attrs : Attributes) (stride v : nat)
  : list (nat * list Byte.byte) :=
  flat_map (fun a =>
    map (fun j => (v * stride + attr_offset a + j * scalarSize,
                   encodeScalar (nth (v * attr_size a + j) (attr_data a) NaN)))
        (seq 0 (attr_size a))) attrs.

(** Modelled from the spec: the packing of [count] vertices, missing with
    the class [Attributes]; a buffer of [count * stride] bytes is allocated
    and every vertex is written in turn. *)
Definition packVertices (attrs : Attributes) (count : nat) : list Byte.byte :=
  let stride := getStride attrs in
  fold_left (fun buf w => writeBytes (fst w) (snd w) buf)
    (flat_map (vertexWrites attrs stride) (seq 0 count))
    (repeat Byte.x00 (count * stride)).

(** Modelled from the spec: [getBuffer], missing with the class
    [Attributes]; the vertices of a set that has a vertex count are packed,
    and a set that has none is an error, raised at once ([None]): nothing is
    truncated or filled in. *)
Definition getBuffer (attrs : Attributes) : option (list Byte.byte) :=
  match vertexCount attrs with
  | Some count => Some (packVertices attrs count)
  | None => None
  end.

(** Reading [width] scalars from byte [pos] on. *)
Definition readScalars (buf : list Byte.byte) (pos width : nat) : list number :=
  map (fun j => decodeScalar (firstn scalarSize (skipn (pos + j * scalarSize) buf)))
      (seq 0 width).

End Packer.

(** The values of attribute [a] for vertex [v]. *)
Definition vertexValues (a : Attribute) (v : nat) : list number :=
  firstn (attr_size a) (skipn (v * attr_size a) (attr_data a)).

(** The byte range of attribute [a] inside a vertex's region holds [b]. *)
Definition inRange (a : Attribute) (b : nat) : Prop :=
  attr_offset a <= b < attr_offset a + attr_size a * scalarSize.

(** The state of the loop when the keys [D] have been seen, in that order,
    and the indices [ci] emitted. *)
Definition stateOf (D : list jsstring) (ci : list (option nat)) : ColorState :=
  {| colorMap := paletteOf D; colorIndices := ci; nextIndex := length D |}.

(** The components of the [j]-th triple, as the loop reads them. *)
Definition tripleAt (colorsArray : list number) (j : nat)
  : option number * option number * option number :=
  (nth_error colorsArray (3 * j),
   nth_error colorsArray (3 * j + 1),
   nth_error colorsArray (3 * j + 2)).

(** The triples of an array whose length is a multiple of 3. *)
Definition triplesOf (colorsArray : list number)
  : list (option number * option number * option number) :=
  map (tripleAt colorsArray) (seq 0 (length colorsArray / 3)).

Definition triple_eq_dec :
  forall a b : option number * option number * option number, {a = b} + {a <> b}.
Proof.
  repeat decide equality; auto using bool_dec, Pos.eq_dec, Z.eq_dec.
Defined.

(** The number of distinct triples, compared bit for bit. *)
Definition distinctTriples (colorsArray : list number) : nat :=
  length (nodup triple_eq_dec (triplesOf colorsArray)).

(** Two array elements agree up to the sign of a zero. *)
Definition sameValueZero (a b : option number) : Prop :=
  option_map canon a = option_map canon b.

Definition sameColor (s t : option number * option number * option number) : Prop :=
  sameValueZero (fst (fst s)) (fst (fst t)) /\
  sameValueZero (snd (fst s)) (snd (fst t)) /\
  sameValueZero (snd s) (snd t).

(** [Number(String(x))] is [x] up to the sign of a zero: the Number is read
    back from its rendering. *)
Definition readsBack (x : number) : bool :=
  number_eqb (Number (NumberToString x)) (canon x).

Definition tripleReadsBack (t : option number * option number * option number) : bool :=
  let rb v := match v with Some x => readsBack x | None => false end in
  rb (fst (fst t)) && rb (snd (fst t)) && rb (snd t).

Definition isComma (c : char) : bool := (c =? ch ",")%N.

(** The code units that Number::toString can emit. *)
Definition numberChar (c : char) : bool :=
  isDigit c || existsb (N.eqb c) (str ".e+-NaInfity").

Definition commaFree (s : jsstring) : Prop := Forall (fun c => isComma c = false) s.

(** The position of [k] in [D] as a number, 0 when it is absent. *)
Definition indexIn (D : list jsstring) (k : jsstring) : nat :=
  match indexOf k D with Some i => i | None => 0 end.

(** The numbers 0.3 and 0.30000000000000004, which differ in the last bit of
    the significand, and the number 1. *)
Definition three_tenths : number := S754_finite false 5404319552844595 (-54).
Definition three_tenths_up : number := S754_finite false 5404319552844596 (-54).
Definition one : number := S754_finite false 4503599627370496 (-52).

(** ** Specification-level notions for the data loader *)

(** Empty or white space only. *)
Definition isBlank (s : jsstring) : bool := forallb isWhiteSpace s.

Definition isInk (c : char) : bool := negb (isWhiteSpace c).

(** No white space at all. *)
Definition allInk (s : jsstring) : bool := forallb isInk s.

(** Some character that is not white space. *)
Definition hasInk (s : jsstring) : bool := existsb isInk s.

Definition noLineFeed (s : jsstring) : bool := forallb (fun c => negb (c =? LF)%N) s.

(** The lines of a text, joined by line feeds. *)
Fixpoint joinLines (ls : list jsstring) : jsstring :=
  match ls with
  | [] => []
  | [l] => l
  | l :: r => l ++ LF :: joinLines r
  end.

(** The numbers that survive from a list of lines: the pipeline
    [map], [filter], [flat] of [parseDataFile]. *)
Definition surviving (ls : list jsstring) : list number :=
  concat (filter keepValues (map lineValues ls)).

(** The lines that [parseDataFile] sees. *)
Definition linesOf (text : jsstring) : list jsstring :=
  split_char LF (trim (stripBOM text)).

(** The tokens of a line, and what it is for a token to parse as a finite
    number. *)
Definition tokensOf (line : jsstring) : list jsstring := split_ws (trim line).

Definition tokenOk (t : jsstring) : bool := negb (invalidValue (Number t)).

(** What a line gives to the result: its numbers when all its tokens parse,
    nothing otherwise. *)
Definition lineContribution (line : jsstring) : list number :=
  if forallb tokenOk (tokensOf line) then map Number (tokensOf line) else [].

(** A token: not empty, no white space. *)
Definition isToken (t : jsstring) : bool := negb (isNil t) && allInk t.

(** White space inside a line: no line feed. *)
Definition isPad (s : jsstring) : bool := isBlank s && noLineFeed s.

(** The white space between two tokens of a line. *)
Definition isGap (s : jsstring) : bool := negb (isNil s) && isPad s.

(** A line of three tokens with the white space around them. *)
Record Row := {
  pre : jsstring; tok1 : jsstring; gap1 : jsstring; tok2 : jsstring;
  gap2 : jsstring; tok3 : jsstring; post : jsstring
}.

Definition rowText (r : Row) : jsstring :=
  pre r ++ tok1 r ++ gap1 r ++ tok2 r ++ gap2 r ++ tok3 r ++ post r.

Definition rowValues (r : Row) : list number :=
  [Number (tok1 r); Number (tok2 r); Number (tok3 r)].

(** A well-formed line: three tokens that parse as finite numbers. *)
Definition wfRow (r : Row) : bool :=
  isPad (pre r) && isToken (tok1 r) && isGap (gap1 r) && isToken (tok2 r) &&
  isGap (gap2 r) && isToken (tok3 r) && isPad (post r) &&
  tokenOk (tok1 r) && tokenOk (tok2 r) && tokenOk (tok3 r).

(** [t] put before the first piece of a split. *)
Definition consHead (t : jsstring) (l : list jsstring) : list jsstring :=
  match l with
  | h :: r => (t ++ h) :: r
  | [] => [t]
  end.

(** A line without the white space before its first token. *)
Definition dropPre (r : Row) : Row :=
  {| pre := []; tok1 := tok1 r; gap1 := gap1 r; tok2 := tok2 r;
     gap2 := gap2 r; tok3 := tok3 r; post := post r |}.

(** ** The scalars of a [Float32Array] *)

Local Open Scope Z_scope.

(** The binary32 value nearest to a Number. *)
Definition toFloat32 (x : number) : spec_float :=
  match x with
  | S754_finite s m e => binary_round 24 128 s m e
  | _ => x
  end.

(** The bit pattern of a binary32 value. *)
Definition float32Bits (x : spec_float) : Z :=
  match x with
  | S754_zero s => if s then 2 ^ 31 else 0
  | S754_infinity s => (if s then 2 ^ 31 else 0) + 255 * 2 ^ 23
  | S754_nan => 255 * 2 ^ 23 + 2 ^ 22
  | S754_finite s m e =>
      (if s then 2 ^ 31 else 0) +
      (if Zpos m <? 2 ^ 23 then Zpos m else (e + 150) * 2 ^ 23 + (Zpos m - 2 ^ 23))
  end.

Definition byteOfZ (z : Z) : Byte.byte :=
  match Byte.of_N (Z.to_N (z mod 256)) with
  | Some b => b
  | None => Byte.x00
  end.

Definition ZofByte (b : Byte.byte) : Z := Z.of_N (Byte.to_N b).

(** The four bytes of a scalar, least significant first. *)
Definition encodeFloat32 (x : number) : list Byte.byte :=
  let bits := float32Bits (toFloat32 x) in
  [byteOfZ bits; byteOfZ (bits / 2 ^ 8); byteOfZ (bits / 2 ^ 16); byteOfZ (bits / 2 ^ 24)].

(** The Number that four bytes hold. *)
Definition decodeFloat32 (bs : list Byte.byte) : number :=
  let bits :=
    ZofByte (nth 0 bs Byte.x00) + 2 ^ 8 * ZofByte (nth 1 bs Byte.x00) +
    2 ^ 16 * ZofByte (nth 2 bs Byte.x00) + 2 ^ 24 * ZofByte (nth 3 bs Byte.x00) in
  let s := 0 <? bits / 2 ^ 31 in
  let ex := (bits / 2 ^ 23) mod 256 in
  let fr := bits mod 2 ^ 23 in
  if ex =? 255 then (if fr =? 0 then S754_infinity s else S754_nan)
  else if ex =? 0 then
    match fr with
    | Zpos m => binary_round prec emax s m (-149)
    | _ => S754_zero s
    end
  else
    match fr + 2 ^ 23 with
    | Zpos m => binary_round prec emax s m (ex - 150)
    | _ => S754_zero s
    end.

Local Close Scope Z_scope.

(** The attribute set of the scenario. *)
Definition scenarioAttributes : Attributes :=
  buildAttributes
    [ (str "a_Position", [pos_zero; pos_zero; pos_zero; one; pos_zero; pos_zero], 3);
      (str "a_Normal", [pos_zero; one; pos_zero; pos_zero; one; pos_zero], 3);
      (str "a_ColorIndex", [pos_zero; pos_zero], 1) ].

(** Writes that follow one another from byte [p] on. *)
Fixpoint consecutive (p : nat) (ws : list (nat * list Byte.byte)) : Prop :=
  match ws with
  | [] => True
  | w :: r => fst w = p /\ consecutive (p + length (snd w)) r
  end.

(** The bytes that a list of writes holds. *)
Definition written (ws : list (nat * list Byte.byte)) : list Byte.byte :=
  concat (map snd ws).

(** Offsets that follow one another from byte [o] on. *)
Fixpoint chainedFrom (o : nat) (attrs : Attributes) : Prop :=
  match attrs with
  | [] => True
  | a :: r => attr_offset a = o /\ chainedFrom (o + attr_size a * scalarSize) r
  end.

(** All bytes, and all byte strings of a given length. *)
Definition allBytes : list Byte.byte :=
  map (fun n => byteOfZ (Z.of_nat n)) (seq 0 256).

Fixpoint allByteStrings (n : nat) : list (list Byte.byte) :=
  match n with
  | O => [[]]
  | S n' => flat_map (fun b => map (cons b) (allByteStrings n')) allBytes
  end.

(** The writes of the scalars [f s], [f (s+1)], ... ([n] of them) from
    [base] on, four bytes each. *)
Definition attrWrites (encodeScalar : number -> list Byte.byte)
  (base : nat) (f : nat -> number) (n s : nat) : list (nat * list Byte.byte) :=
  map (fun j => (base + j * scalarSize, encodeScalar (f j))) (seq s n).

(** A triple with the sign of its zeros dropped, and the number of distinct
    triples of an array when [+0] and [-0] are not told apart. *)
Definition canonTriple (t : option number * option number * option number)
  : option number * option number * option number :=
  (option_map canon (fst (fst t)), option_map canon (snd (fst t)),
   option_map canon (snd t)).

Definition distinctColors (colorsArray : list number) : nat :=
  length (nodup triple_eq_dec (map canonTriple (triplesOf colorsArray))).

(** ** Specification-level notions for the lines of a text *)

Definition CR : char := 13%N.   (* \r *)

(** The lines from the first one that is not blank on. *)
Fixpoint dropLeadingBlank (ls : list jsstring) : list jsstring :=
  match ls with
  | [] => []
  | l :: r => if isBlank l then dropLeadingBlank r else ls
  end.

(** The lines up to the last one that is not blank. *)
Fixpoint dropTrailingBlank (ls : list jsstring) : list jsstring :=
  match ls with
  | [] => []
  | l :: r =>
      match dropTrailingBlank r with
      | [] => if isBlank l then [] else [l]
      | r' => l :: r'
      end
  end.

(** The lines between the first and the last line that is not blank. *)
Definition coreLines (ls : list jsstring) : list jsstring :=
  dropTrailingBlank (dropLeadingBlank ls).

(** The same with the first line trimmed at its start, and with the last
    line trimmed at its end: what trimming a text does to its lines. *)
Definition headTrimmed (ls : list jsstring) : list jsstring :=
  match dropLeadingBlank ls with
  | [] => []
  | l :: r => trimStart l :: r
  end.

Fixpoint tailTrimmed (ls : list jsstring) : list jsstring :=
  match ls with
  | [] => []
  | l :: r =>
      match tailTrimmed r with
      | [] => if isBlank l then [] else [trimEnd l]
      | r' => l :: r'
      end
  end.

(** A list of lines is never empty: a text with nothing left has the one
    line [""]. *)
Definition orEmptyLine (ls : list jsstring) : list jsstring :=
  match ls with
  | [] => [[]]
  | _ :: _ => ls
  end.

(** A text with every line feed preceded by a carriage return. *)
Fixpoint toCRLF (s : jsstring) : jsstring :=
  match s with
  | [] => []
  | c :: r => if (c =? LF)%N then CR :: LF :: toCRLF r else c :: toCRLF r
  end.

(** Two lines that differ at most by a carriage return at the end. *)
Definition sameUpToCR (l' l : jsstring) : Prop := l' = l \/ l' = l ++ [CR].

(** Two lines that give the same numbers and are blank together. *)
Definition sameLine (a b : jsstring) : Prop :=
  lineValues a = lineValues b /\ isBlank a = isBlank b.

(** A line of one or more tokens: the white space before the first token,
    the first token, the further tokens each with the gap before it, and the
    white space after the last token. *)
Record TokenLine := {
  tl_pre : jsstring;
  tl_first : jsstring;
  tl_more : list (jsstring * jsstring);
  tl_post : jsstring
}.

Definition moreText (more : list (jsstring * jsstring)) : jsstring :=
  concat (map (fun gt => fst gt ++ snd gt) more).

Definition tokenLineText (l : TokenLine) : jsstring :=
  tl_pre l ++ tl_first l ++ moreText (tl_more l) ++ tl_post l.

Definition tokenLineTokens (l : TokenLine) : list jsstring :=
  tl_first l :: map snd (tl_more l).

Definition wfMore (more : list (jsstring * jsstring)) : bool :=
  forallb (fun gt => isGap (fst gt) && isToken (snd gt)) more.

Definition wfTokenLine (l : TokenLine) : bool :=
  isPad (tl_pre l) && isToken (tl_first l) && wfMore (tl_more l) && isPad (tl_post l).

(** What a line of tokens gives: the numbers of its tokens when they all
    parse as finite numbers, nothing otherwise. *)
Definition tokenLineNumbers (l : TokenLine) : list number :=
  if forallb tokenOk (tokenLineTokens l) then map Number (tokenLineTokens l) else [].

(** The characters of the literals that [Number] reads as finite numbers:
    digits, the letters of hexadecimal digits (with [e] and [E]), the letters
    of the prefixes [0x], [0o], [0b], the point and the signs. *)
Definition literalChar (c : char) : bool :=
  isHexDigit c || existsb (N.eqb c) (str "xXoObB.+-").

(** A character that is not white space and cannot be part of such a
    literal: a comma, a semicolon, a hash sign, most letters. *)
Definition strayChar (c : char) : bool := isInk c && negb (literalChar c).

(** ** The WebGL calls of the renderer

    [loadTruckData], [setupVertexBuffers] and [drawTruck] act on the WebGL
    context only: they create buffer objects and issue calls. The context is
    modelled by the number of buffer objects created so far and the calls
    received so far, in order. *)

Inductive GLenum : Set :=
  ARRAY_BUFFER | ELEMENT_ARRAY_BUFFER | STATIC_DRAW | FLOAT | UNSIGNED_SHORT | TRIANGLES.

(** A buffer object, known by its rank among the buffers created. *)
Definition WebGLBuffer : Set := nat.

(** What [bufferData] is given: the [ArrayBuffer] of [getBuffer], or a
    [Uint16Array]. *)
Inductive BufferSource : Set :=
| ArrayBuffer (bytes : list Byte.byte)
| Uint16Array (elements : list Z).

(** The calls that change the context; an argument that is [undefined] is
    [None]. *)
Inductive GLCall : Set :=
| bindBuffer (target : GLenum) (buffer : option WebGLBuffer)
| bufferData (target : GLenum) (data : BufferSource) (usage : GLenum)
| vertexAttribPointer (loc : Z) (size : nat) (type : GLenum) (normalized : bool)
    (stride offset : nat)
| enableVertexAttribArray (loc : Z)
| drawElements (mode : GLenum) (count : nat) (type : GLenum) (offset : nat).

Record Context : Set := { buffers : nat; calls : list GLCall }.

(** A computation on the context. *)
Definition GL (A : Type) : Type := Context -> A * Context.

Definition ret {A : Type} (a : A) : GL A := fun gl => (a, gl).

Definition bind {A B : Type} (m : GL A) (k : A -> GL B) : GL B :=
  fun gl => let (a, gl') := m gl in k a gl'.

Notation "x <- m ;; k" := (bind m (fun x => k))
  (at level 61, m at next level, right associativity).
Notation "m ;; k" := (bind m (fun _ => k))
  (at level 61, right associativity).

(** A call is added to those received. *)
Definition call (c : GLCall) : GL unit :=
  fun gl => (tt, {| buffers := buffers gl; calls := calls gl ++ [c] |}).

(** [gl.createBuffer()]: a buffer object that did not exist before. *)
Definition createBuffer : GL WebGLBuffer :=
  fun gl => (buffers gl, {| buffers := S (buffers gl); calls := calls gl |}).

(** Modelled from the spec: the renderable shape, missing with the class
    [RenderShape]; its attribute set, the handles of its vertex and index
    buffers ([None] while not set) and the flag [hasIndex]. The fields are
    those the renderer reads and writes. *)
Record RenderShape : Set := {
  attrib : Attributes;
  vertex : option WebGLBuffer;
  index : option WebGLBuffer;
  hasIndex : bool
}.

(** Modelled from the spec: [new RenderShape(attributes)], missing with the
    class [RenderShape]; a shape that owns the attribute set and has no
    buffer yet. *)
Definition newRenderShape (attributes : Attributes) : RenderShape :=
  {| attrib := attributes; vertex := None; index := None; hasIndex := false |}.

(** The global [truckData]. *)
Record TruckData : Set := { shape : RenderShape; numIndices : nat }.

(** ToUint16, which [new Uint16Array(array)] applies to each element: NaN
    and the infinities give 0, a finite number is truncated towards zero and
    reduced modulo 2^16. *)
Definition truncate (x : number) : Z :=
  match x with
  | S754_finite s m e =>
      cond_Zopp s (if (e <? 0)%Z then Zpos m / 2 ^ (- e) else Zpos m * 2 ^ e)%Z
  | _ => 0%Z
  end.

Definition toUint16 (x : number) : Z := (truncate x mod 65536)%Z.

(** An element of the array that [generateColorIndices] returns, as a
    Number: an index is the value of the counter, [undefined] is NaN in a
    numeric series. *)
Definition indexNumber (v : option nat) : number :=
  match v with
  | Some i => round_decimal false (Z.of_nat i) 0
  | None => NaN
  end.

Section Renderer.

(** [gl.getAttribLocation(gl.program, name)]: the location of the attribute
    in the linked program, -1 when the program has no such active
    attribute. *)
Variable getAttribLocation : jsstring -> Z.

(** The bytes of a scalar in the packed buffer. *)
Variable encodeScalar : number -> list Byte.byte.

Variable createDefaultCubeData : list number.

(** The body of the loops over [shape.attrib.attributes]. *)
Definition bindAttribute (stride : nat) (attr : Attribute) : GL unit :=
  let loc := getAttribLocation (attr_name attr) in
  if (0 <=? loc)%Z then
    call (vertexAttribPointer loc (attr_size attr) FLOAT false stride (attr_offset attr)) ;;
    call (enableVertexAttribArray loc)
  else ret tt.

(** [for (let i = 0; i < attributes.length; i++) body(attributes[i])] *)
Fixpoint forAttributes (body : Attribute -> GL unit) (attributes : list Attribute)
  : GL unit :=
  match attributes with
  | [] => ret tt
  | attr :: rest => body attr ;; forAttributes body rest
  end.

(** [setupVertexBuffers(gl, shape)]; the shape is returned with the field
    that was assigned. When [getBuffer] raises its error the function is left
    at that point, without a result ([None]). *)
Definition setupVertexBuffers (shape : RenderShape) : GL (option RenderShape) :=
  b <- createBuffer ;;
  let shape := {| attrib := attrib shape; vertex := Some b;
                  index := index shape; hasIndex := hasIndex shape |} in
  call (bindBuffer ARRAY_BUFFER (vertex shape)) ;;
  let stride := getStride (attrib shape) in
  match getBuffer encodeScalar (attrib shape) with
  | None => ret None
  | Some buffer =>
      call (bufferData ARRAY_BUFFER (ArrayBuffer buffer) STATIC_DRAW) ;;
      forAttributes (bindAttribute stride) (attrib shape) ;;
      ret (Some shape)
  end.

(** [drawTruck(shape, numIndices)] *)
Definition drawTruck (shape : RenderShape) (numIndices : nat) : GL unit :=
  call (bindBuffer ARRAY_BUFFER (vertex shape)) ;;
  forAttributes (fun attr => bindAttribute (getStride (attrib shape)) attr)
    (attrib shape) ;;
  if hasIndex shape then
    call (bindBuffer ELEMENT_ARRAY_BUFFER (index shape)) ;;
    call (drawElements TRIANGLES numIndices UNSIGNED_SHORT 0)
  else ret tt.

(** [loadTruckData()] once the four texts have been fetched; [None] stands
    for the error that leaves the function (it is logged and thrown again,
    [truckData] is not assigned), and for a loop of [generateColorIndices]
    that is not left. *)
Definition loadTruckData (positionsText colorsText normalsText indicesText : jsstring)
  : GL (option TruckData) :=
  let attributes : Attributes := [] in
  let positionsArray := parseDataFile createDefaultCubeData positionsText in
  let attributes := addAttribute attributes (str "a_Position") positionsArray 3 in
  let colorsArray := parseDataFile createDefaultCubeData colorsText in
  match generateColorIndices colorsArray with
  | None => ret None
  | Some colorIndices =>
      let attributes :=
        addAttribute attributes (str "a_ColorIndex") (map indexNumber colorIndices) 1 in
      let normalsArray := parseDataFile createDefaultCubeData normalsText in
      let attributes := addAttribute attributes (str "a_Normal") normalsArray 3 in
      let indicesArray := parseDataFile createDefaultCubeData indicesText in
      let truckShape := newRenderShape attributes in
      b <- createBuffer ;;
      let truckShape := {| attrib := attrib truckShape; vertex := vertex truckShape;
                           index := Some b; hasIndex := hasIndex truckShape |} in
      call (bindBuffer ELEMENT_ARRAY_BUFFER (index truckShape)) ;;
      call (bufferData ELEMENT_ARRAY_BUFFER
              (Uint16Array (map toUint16 indicesArray)) STATIC_DRAW) ;;
      let truckShape := {| attrib := attrib truckShape; vertex := vertex truckShape;
                           index := index truckShape; hasIndex := true |} in
      done <- setupVertexBuffers truckShape ;;
      match done with
      | None => ret None
      | Some truckShape =>
          ret (Some {| shape := truckShape; numIndices := length indicesArray |})
      end
  end.

End Renderer.

(** The calls on a target, and the calls that bind an attribute. *)
Definition onTarget (target : GLenum) (c : GLCall) : bool :=
  match c with
  | bindBuffer t _ | bufferData t _ _ =>
      match t, target with
      | ARRAY_BUFFER, ARRAY_BUFFER | ELEMENT_ARRAY_BUFFER, ELEMENT_ARRAY_BUFFER => true
      | _, _ => false
      end
  | _ => false
  end.

Definition isPointer (c : GLCall) : bool :=
  match c with
  | vertexAttribPointer _ _ _ _ _ _ | enableVertexAttribArray _ => true
  | _ => false
  end.

Definition isDraw (c : GLCall) : bool :=
  match c with drawElements _ _ _ _ => true | _ => false end.

(** An attribute whose name the program knows, and the two calls that bind
    it. *)
Definition known (getAttribLocation : jsstring -> Z) (attr : Attribute) : bool :=
  (0 <=? getAttribLocation (attr_name attr))%Z.

Definition pointerCalls (getAttribLocation : jsstring -> Z) (stride : nat)
  (attr : Attribute) : list GLCall :=
  [ vertexAttribPointer (getAttribLocation (attr_name attr)) (attr_size attr) FLOAT false
      stride (attr_offset attr);
    enableVertexAttribArray (getAttribLocation (attr_name attr)) ].

(** The calls received since the context had received [before]. *)
Definition callsSince (before : list GLCall) (gl : Context) : list GLCall :=
  skipn (length before) (calls gl).

(** A token of an index file: decimal digits, with a value that a Number
    holds exactly. *)
Definition isIndexToken (t : jsstring) : bool :=
  negb (isNil t) && forallb isDigit t && (digitsValue 10 t <? 2 ^ 53)%Z.

(** The attribute set that [loadTruckData] builds from the position series,
    the colour indices and the normal series. *)
Definition truckAttributes (positionsArray : list number)
  (colorIndices : list (option nat)) (normalsArray : list number) : Attributes :=
  addAttribute
    (addAttribute (addAttribute [] (str "a_Position") positionsArray 3)
       (str "a_ColorIndex") (map indexNumber colorIndices) 1)
    (str "a_Normal") normalsArray 3.

(** The three series of a truck agree on [V] vertices: [3 * V] position
    numbers, [V] started colour triples, [3 * V] normal numbers. *)
Definition truckCount (V : nat) (positionsArray colorsArray normalsArray : list number)
  : bool :=
  (0 <? V) && (length positionsArray =? 3 * V) &&
  (tripleCount (length colorsArray) =? V) && (length normalsArray =? 3 * V).

(** * Properties *)

(** ** Strings as keys *)

Lemma jsstring_eqb_eq (a b : jsstring) : jsstring_eqb a b = true <-> a = b.
Proof.
  unfold jsstring_eqb. destruct (jsstring_eq_dec a b); split; congruence.
Qed.

Lemma jsstring_eqb_refl (a : jsstring) : jsstring_eqb a a = true.
Proof. now apply jsstring_eqb_eq. Qed.

Lemma jsstring_eqb_neq (a b : jsstring) : jsstring_eqb a b = false <-> a <> b.
Proof.
  unfold jsstring_eqb. destruct (jsstring_eq_dec a b); split; congruence.
Qed.

Lemma jsstring_eqb_sym (a b : jsstring) : jsstring_eqb a b = jsstring_eqb b a.
Proof.
  destruct (jsstring_eqb b a) eqn:E.
  - apply jsstring_eqb_eq in E. subst. apply jsstring_eqb_refl.
  - apply jsstring_eqb_neq in E. apply jsstring_eqb_neq. congruence.
Qed.

Lemma existsb_eqb_In (k : jsstring) (l : list jsstring) :
  existsb (jsstring_eqb k) l = true <-> In k l.
Proof.
  rewrite existsb_exists. split.
  - intros [x [Hin Heq]]. apply jsstring_eqb_eq in Heq. now subst.
  - intros Hin. exists k. split; [assumption | apply jsstring_eqb_refl].
Qed.

(** ** The palette as a map *)

Lemma paletteOf_keys (D : list jsstring) : map fst (paletteOf D) = D.
Proof.
  unfold paletteOf.
  assert (H : forall (l : list jsstring) (s : list nat),
             length l = length s -> map fst (combine l s) = l).
  { induction l as [|x l IH]; intros [|y s] Hlen; simpl in *; try congruence.
    f_equal. apply IH. congruence. }
  apply H. now rewrite length_seq.
Qed.

Lemma paletteOf_values (D : list jsstring) :
  map snd (paletteOf D) = seq 0 (length D).
Proof.
  unfold paletteOf.
  assert (H : forall (l : list jsstring) (s : list nat),
             length l = length s -> map snd (combine l s) = s).
  { induction l as [|x l IH]; intros [|y s] Hlen; simpl in *; try congruence.
    f_equal. apply IH. congruence. }
  apply H. now rewrite length_seq.
Qed.

Lemma paletteOf_size (D : list jsstring) : Map_size (paletteOf D) = length D.
Proof.
  unfold Map_size, paletteOf. rewrite length_combine, length_seq. lia.
Qed.

Lemma Map_has_keys (m : Map) (k : jsstring) :
  Map_has m k = existsb (jsstring_eqb k) (map fst m).
Proof.
  unfold Map_has. induction m as [|e m IH]; simpl; [reflexivity|].
  now rewrite IH, (jsstring_eqb_sym (fst e) k).
Qed.

Lemma paletteOf_has (D : list jsstring) (k : jsstring) :
  Map_has (paletteOf D) k = existsb (jsstring_eqb k) D.
Proof. now rewrite Map_has_keys, paletteOf_keys. Qed.

Lemma combine_snoc {A B : Type} (l : list A) (s : list B) (x : A) (y : B) :
  length l = length s -> combine (l ++ [x]) (s ++ [y]) = combine l s ++ [(x, y)].
Proof.
  revert s. induction l as [|a l IH]; intros [|b s] Hlen; simpl in *; try congruence.
  f_equal. apply IH. congruence.
Qed.

Lemma paletteOf_snoc (D : list jsstring) (k : jsstring) :
  paletteOf D ++ [(k, length D)] = paletteOf (D ++ [k]).
Proof.
  unfold paletteOf. rewrite length_app. simpl length.
  rewrite Nat.add_1_r, seq_S. simpl.
  symmetry. apply combine_snoc. now rewrite length_seq.
Qed.

Lemma combine_get_from (D : list jsstring) (k : jsstring) (b : nat) :
  Map_get (combine D (seq b (length D))) k = option_map (Nat.add b) (indexOf k D).
Proof.
  unfold Map_get. revert b. induction D as [|h D IH]; intros b; simpl; [reflexivity|].
  destruct (jsstring_eqb h k); simpl.
  - now rewrite Nat.add_0_r.
  - rewrite IH. destruct (indexOf k D); simpl; [f_equal; lia | reflexivity].
Qed.

Lemma paletteOf_get (D : list jsstring) (k : jsstring) :
  Map_get (paletteOf D) k = indexOf k D.
Proof.
  unfold paletteOf. rewrite combine_get_from. now destruct (indexOf k D).
Qed.

(** ** Positions of first occurrences *)

Lemma indexOf_In (k : jsstring) (l : list jsstring) :
  In k l -> exists i, indexOf k l = Some i /\ i < length l /\ nth_error l i = Some k.
Proof.
  induction l as [|h l IH]; simpl; [tauto|].
  intros Hin. destruct (jsstring_eqb h k) eqn:E.
  - apply jsstring_eqb_eq in E. subst. exists 0. repeat split; simpl; lia.
  - destruct Hin as [->|Hin]; [now rewrite jsstring_eqb_refl in E|].
    destruct (IH Hin) as [i [Hi [Hlt Hn]]]. exists (S i). rewrite Hi. simpl.
    repeat split; [lia | assumption].
Qed.

Lemma indexOf_Some (k : jsstring) (l : list jsstring) (i : nat) :
  indexOf k l = Some i -> i < length l /\ nth_error l i = Some k.
Proof.
  revert i. induction l as [|h l IH]; simpl; intros i; [discriminate|].
  destruct (jsstring_eqb h k) eqn:E.
  - intros [= <-]. apply jsstring_eqb_eq in E. subst. simpl. split; [lia|reflexivity].
  - destruct (indexOf k l) as [j|]; simpl; [|discriminate].
    intros [= <-]. destruct (IH j eq_refl). simpl. split; [lia|assumption].
Qed.

Lemma indexOf_app_l (k : jsstring) (l r : list jsstring) :
  In k l -> indexOf k (l ++ r) = indexOf k l.
Proof.
  induction l as [|h l IH]; simpl; [tauto|].
  intros Hin. destruct (jsstring_eqb h k) eqn:E; [reflexivity|].
  destruct Hin as [->|Hin]; [now rewrite jsstring_eqb_refl in E|].
  now rewrite IH.
Qed.

Lemma indexOf_NoDup_nth (l : list jsstring) (i : nat) (k : jsstring) :
  NoDup l -> nth_error l i = Some k -> indexOf k l = Some i.
Proof.
  intros Hnd. revert i. induction Hnd as [|h l Hnin Hnd IH]; intros [|i]; simpl;
    try discriminate.
  - intros [= ->]. now rewrite jsstring_eqb_refl.
  - intros Hn. destruct (jsstring_eqb h k) eqn:E.
    + apply jsstring_eqb_eq in E. subst. apply nth_error_In in Hn. contradiction.
    + now rewrite (IH _ Hn).
Qed.

(** ** First occurrences *)

Lemma filter_filter {A : Type} (p q : A -> bool) (l : list A) :
  filter p (filter q l) = filter (fun x => q x && p x) l.
Proof.
  induction l as [|x l IH]; simpl; [reflexivity|].
  destruct (q x); simpl; [destruct (p x)|]; now rewrite ?IH.
Qed.

Lemma firstOcc_In (k : jsstring) (l : list jsstring) :
  In k (firstOcc l) <-> In k l.
Proof.
  induction l as [|h l IH]; simpl; [tauto|].
  rewrite filter_In, IH. split.
  - intros [->|[Hin _]]; auto.
  - intros [->|Hin]; auto.
    destruct (jsstring_eqb k h) eqn:E.
    + apply jsstring_eqb_eq in E. auto.
    + right. split; [assumption | reflexivity].
Qed.

Lemma firstOcc_NoDup (l : list jsstring) : NoDup (firstOcc l).
Proof.
  induction l as [|h l IH]; simpl; constructor.
  - rewrite filter_In. intros [_ H]. now rewrite jsstring_eqb_refl in H.
  - now apply NoDup_filter.
Qed.

(** The number of distinct keys, whichever occurrences are kept. *)
Lemma firstOcc_length (l : list jsstring) :
  length (firstOcc l) = length (nodup jsstring_eq_dec l).
Proof.
  apply Nat.le_antisymm; apply NoDup_incl_length;
    auto using firstOcc_NoDup, NoDup_nodup;
    intros k Hk.
  - apply nodup_In. now apply firstOcc_In.
  - apply firstOcc_In. now apply nodup_In in Hk.
Qed.

Lemma seenAfter_cons (D l : list jsstring) (k : jsstring) :
  seenAfter D (k :: l) =
  seenAfter (if existsb (jsstring_eqb k) D then D else D ++ [k]) l.
Proof. reflexivity. Qed.

Lemma seenAfter_firstOcc (l D : list jsstring) :
  seenAfter D l =
  D ++ filter (fun x => negb (existsb (jsstring_eqb x) D)) (firstOcc l).
Proof.
  revert D. induction l as [|k l IH]; intros D.
  - simpl. now rewrite app_nil_r.
  - rewrite seenAfter_cons. simpl firstOcc. simpl filter.
    rewrite filter_filter.
    destruct (existsb (jsstring_eqb k) D) eqn:E; simpl.
    + rewrite IH. f_equal. apply filter_ext_in. intros x _.
      destruct (jsstring_eqb x k) eqn:Exk; simpl; [|reflexivity].
      apply jsstring_eqb_eq in Exk. subst. now rewrite E.
    + rewrite IH, <- app_assoc. simpl. do 2 f_equal.
      apply filter_ext. intros x. rewrite existsb_app. simpl.
      rewrite orb_false_r, negb_orb. apply andb_comm.
Qed.

Lemma seenAfter_nil (l : list jsstring) : seenAfter [] l = firstOcc l.
Proof.
  rewrite seenAfter_firstOcc. simpl.
  induction (firstOcc l) as [|x r IH]; simpl; congruence.
Qed.

Lemma seenAfter_prefix (l D : list jsstring) :
  exists X, seenAfter D l = D ++ X.
Proof. rewrite seenAfter_firstOcc. eauto. Qed.

(** ** The loop *)

Lemma loopBody_stepKey (colorsArray : list number) (i : nat) (st : ColorState) :
  loopBody colorsArray i st = stepKey st (colorKey colorsArray i).
Proof. reflexivity. Qed.

Lemma stepKey_stateOf (D : list jsstring) (ci : list (option nat)) (k : jsstring) :
  let D' := if existsb (jsstring_eqb k) D then D else D ++ [k] in
  stepKey (stateOf D ci) k = stateOf D' (ci ++ [indexOf k D']).
Proof.
  unfold stepKey, stateOf. simpl. rewrite paletteOf_has.
  destruct (existsb (jsstring_eqb k) D) eqn:E; simpl.
  - now rewrite paletteOf_get.
  - unfold Map_set. rewrite paletteOf_has, E, paletteOf_snoc, paletteOf_get.
    f_equal. rewrite length_app. simpl. lia.
Qed.

Lemma fold_stepKey (l D : list jsstring) (ci : list (option nat)) :
  fold_left stepKey l (stateOf D ci) =
  stateOf (seenAfter D l) (ci ++ map (fun k => indexOf k (seenAfter D l)) l).
Proof.
  revert D ci. induction l as [|k l IH]; intros D ci.
  - simpl. now rewrite app_nil_r.
  - simpl fold_left. rewrite stepKey_stateOf, IH, seenAfter_cons.
    set (D' := if existsb (jsstring_eqb k) D then D else D ++ [k]).
    f_equal. rewrite <- app_assoc. simpl. do 2 f_equal.
    destruct (seenAfter_prefix l D') as [X ->].
    symmetry. apply indexOf_app_l. subst D'.
    destruct (existsb (jsstring_eqb k) D) eqn:E.
    + now apply existsb_eqb_In.
    + apply in_or_app. right. now left.
Qed.

Lemma tripleCount_step (len i : nat) :
  i < len -> tripleCount (len - i) = S (tripleCount (len - (i + 3))).
Proof.
  unfold tripleCount. intros H.
  destruct (Nat.le_gt_cases (i + 3) len) as [Hle|Hgt].
  - replace (len - i + 2) with (len - (i + 3) + 2 + 1 * 3) by lia.
    rewrite Nat.div_add by lia. lia.
  - replace (len - (i + 3)) with 0 by lia.
    assert (Hc : len - i = 1 \/ len - i = 2) by lia.
    destruct Hc as [-> | ->]; reflexivity.
Qed.

Lemma tripleCount_zero (len i : nat) : len <= i -> tripleCount (len - i) = 0.
Proof. intros H. replace (len - i) with 0 by lia. reflexivity. Qed.

(** With enough fuel the loop is left, in the state that folding the body
    over the loop indices gives. *)
Lemma forLoop_fold (colorsArray : list number) (fuel i : nat) (st : ColorState) :
  length colorsArray - i < fuel ->
  forLoop fuel colorsArray i st =
  Some (fold_left stepKey
          (map (colorKey colorsArray)
               (tripleStarts (tripleCount (length colorsArray - i)) i)) st).
Proof.
  revert i st. induction fuel as [|f IH]; intros i st Hf; [lia|].
  simpl forLoop. destruct (i <? length colorsArray) eqn:E.
  - apply Nat.ltb_lt in E. rewrite IH by lia.
    rewrite (tripleCount_step E). simpl. now rewrite loopBody_stepKey.
  - apply Nat.ltb_ge in E. now rewrite tripleCount_zero.
Qed.

Lemma dedupe_spec (colorsArray : list number) :
  dedupe colorsArray =
  Some (stateOf (firstOcc (keysOf colorsArray))
          (map (fun k => indexOf k (firstOcc (keysOf colorsArray)))
               (keysOf colorsArray))).
Proof.
  unfold dedupe. rewrite forLoop_fold by lia.
  rewrite Nat.sub_0_r. fold (keysOf colorsArray).
  change initialState with (stateOf [] []).
  now rewrite fold_stepKey, seenAfter_nil.
Qed.

Lemma tripleStarts_length (n i : nat) : length (tripleStarts n i) = n.
Proof. revert i. induction n; intros i; simpl; auto. Qed.

Lemma tripleStarts_nth (n i j : nat) :
  j < n -> nth_error (tripleStarts n i) j = Some (i + 3 * j).
Proof.
  revert i j. induction n as [|n IH]; intros i [|j] H; simpl; try lia.
  - f_equal. lia.
  - rewrite IH by lia. f_equal. lia.
Qed.

Lemma keysOf_length (colorsArray : list number) :
  length (keysOf colorsArray) = tripleCount (length colorsArray).
Proof. unfold keysOf. now rewrite length_map, tripleStarts_length. Qed.

Lemma keysOf_nth (colorsArray : list number) (j : nat) :
  j < tripleCount (length colorsArray) ->
  nth_error (keysOf colorsArray) j = Some (colorKey colorsArray (3 * j)).
Proof.
  intros H. unfold keysOf. rewrite nth_error_map, tripleStarts_nth by assumption.
  reflexivity.
Qed.

Lemma tripleCount_exact (n : nat) : tripleCount (3 * n) = n.
Proof.
  unfold tripleCount. replace (3 * n + 2) with (2 + n * 3) by lia.
  rewrite Nat.div_add by lia. reflexivity.
Qed.

(** ** The characters of a rendered number *)

Lemma commaFree_app (a b : jsstring) : commaFree a -> commaFree b -> commaFree (a ++ b).
Proof. intros Ha Hb. apply Forall_app. now split. Qed.

Lemma numberChar_commaFree (s : jsstring) :
  forallb numberChar s = true -> commaFree s.
Proof.
  rewrite forallb_forall. intros H. apply Forall_forall. intros c Hc.
  specialize (H c Hc). unfold numberChar, isDigit, isComma in *. simpl in *.
  change (ch ",") with 44%N. 
  repeat match goal with
         | H : (_ || _)%bool = true |- _ => apply orb_prop in H; destruct H as [H|H]
         | H : (_ && _)%bool = true |- _ => apply andb_prop in H; destruct H
         | H : N.eqb _ _ = true |- _ => apply N.eqb_eq in H
         | H : N.leb _ _ = true |- _ => apply N.leb_le in H
         end; try discriminate; apply N.eqb_neq; try lia; subst; discriminate.
Qed.

Lemma forallb_firstn {A : Type} (p : A -> bool) (n : nat) (l : list A) :
  forallb p l = true -> forallb p (firstn n l) = true.
Proof.
  revert l. induction n as [|n IH]; intros [|x l]; simpl; auto.
  intros H. apply andb_prop in H. destruct H as [-> H]. simpl. auto.
Qed.

Lemma forallb_skipn {A : Type} (p : A -> bool) (n : nat) (l : list A) :
  forallb p l = true -> forallb p (skipn n l) = true.
Proof.
  revert l. induction n as [|n IH]; intros [|x l]; simpl; auto.
  intros H. apply andb_prop in H. destruct H as [_ H]. auto.
Qed.

Lemma forallb_repeat {A : Type} (p : A -> bool) (x : A) (n : nat) :
  p x = true -> forallb p (repeat x n) = true.
Proof. intros H. induction n; simpl; [reflexivity | now rewrite H]. Qed.

Lemma isDigit_digitChar (d : Z) : (0 <= d < 10)%Z -> isDigit (digitChar d) = true.
Proof.
  intros H. unfold isDigit, digitChar. apply andb_true_intro.
  split; apply N.leb_le; lia.
Qed.

Lemma digitsOf_isDigit (fuel : nat) (z : Z) :
  (0 <= z)%Z -> forallb isDigit (digitsOf fuel z) = true.
Proof.
  revert z. induction fuel as [|f IH]; intros z Hz; simpl; [reflexivity|].
  destruct (z <? 10)%Z eqn:E.
  - simpl. apply Z.ltb_lt in E. rewrite isDigit_digitChar by lia. reflexivity.
  - rewrite forallb_app. rewrite IH by (apply Z.div_pos; lia). simpl.
    rewrite isDigit_digitChar; [reflexivity|]. apply Z.mod_pos_bound. lia.
Qed.

Lemma decimalDigits_isDigit (z : Z) :
  (0 <= z)%Z -> forallb isDigit (decimalDigits z) = true.
Proof. apply digitsOf_isDigit. Qed.

Lemma isDigit_numberChar (s : jsstring) :
  forallb isDigit s = true -> forallb numberChar s = true.
Proof.
  rewrite !forallb_forall. intros H c Hc. unfold numberChar. now rewrite (H c Hc).
Qed.

Lemma vnum_pos (m : positive) (e : Z) : (0 < vnum m e)%Z.
Proof.
  unfold vnum. destruct (e <? 0)%Z eqn:E; [lia|].
  apply Z.ltb_ge in E. apply Z.mul_pos_pos; [lia|]. apply Z.pow_pos_nonneg; lia.
Qed.

Lemma vden_pos (e : Z) : (0 < vden e)%Z.
Proof.
  unfold vden. destruct (e <? 0)%Z eqn:E; [|lia].
  apply Z.ltb_lt in E. apply Z.pow_pos_nonneg; lia.
Qed.

Lemma digitCandidates_nonneg (m : positive) (e n0 k : Z) :
  Forall (fun c => 0 <= fst c)%Z (digitCandidates m e n0 k).
Proof.
  unfold digitCandidates.
  pose proof (vnum_pos m e) as Hn. pose proof (vden_pos e) as Hd.
  destruct (n0 - k <? 0)%Z eqn:Ep.
  - assert (Ha : (0 <= vnum m e * 10 ^ (- (n0 - k)) / vden e)%Z).
    { apply Z.div_pos; [|assumption]. apply Z.mul_nonneg_nonneg; [lia|].
      apply Z.pow_nonneg. lia. }
    assert (Hp : (0 <= 10 ^ (k - 1))%Z) by (apply Z.pow_nonneg; lia).
    repeat match goal with
           | |- context [if ?b then _ else _] => destruct b
           | |- context [match ?c with Eq => _ | Lt => _ | Gt => _ end] => destruct c
           end; repeat constructor; simpl; lia.
  - apply Z.ltb_ge in Ep.
    assert (Ha : (0 <= vnum m e / (vden e * 10 ^ (n0 - k)))%Z).
    { apply Z.div_pos; [lia|]. apply Z.mul_pos_pos; [assumption|].
      apply Z.pow_pos_nonneg; lia. }
    assert (Hp : (0 <= 10 ^ (k - 1))%Z) by (apply Z.pow_nonneg; lia).
    repeat match goal with
           | |- context [if ?b then _ else _] => destruct b
           | |- context [match ?c with Eq => _ | Lt => _ | Gt => _ end] => destruct c
           end; repeat constructor; simpl; lia.
Qed.

Lemma searchDigits_nonneg (fuel : nat) (x : number) (m : positive) (e n0 k : Z) (c : Z * Z) :
  searchDigits fuel x m e n0 k = Some c -> (0 <= fst c)%Z.
Proof.
  revert k. induction fuel as [|f IH]; intros k; simpl; [discriminate|].
  destruct (find (represents x) (digitCandidates m e n0 k)) as [c'|] eqn:E.
  - intros [= <-]. apply find_some in E. destruct E as [Hin _].
    pose proof (digitCandidates_nonneg m e n0 k) as H.
    rewrite Forall_forall in H. now apply H.
  - apply IH.
Qed.

Lemma shortestDigits_nonneg (m : positive) (e : Z) : (0 <= fst (shortestDigits m e))%Z.
Proof.
  unfold shortestDigits.
  destruct (searchDigits 17 (S754_finite false m e) m e (decimalExponent m e) 1) as [c|] eqn:E.
  - eapply searchDigits_nonneg; eassumption.
  - pose proof (digitCandidates_nonneg m e (decimalExponent m e) 17) as H.
    destruct (digitCandidates m e (decimalExponent m e) 17); simpl; [lia|].
    now inversion H.
Qed.

Lemma formatDigits_numberChar (s n : Z) :
  (0 <= s)%Z -> forallb numberChar (formatDigits s n) = true.
Proof.
  intros Hs. unfold formatDigits.
  pose proof (isDigit_numberChar _ (decimalDigits_isDigit Hs)) as Hd.
  assert (He : forallb numberChar (decimalDigits (Z.abs (n - 1))) = true).
  { apply isDigit_numberChar, decimalDigits_isDigit. lia. }
  assert (Hz : forall j, forallb numberChar (zeros j) = true).
  { intros j. now apply forallb_repeat. }
  repeat match goal with
         | |- context [if ?b then _ else _] => destruct b
         end;
    repeat (rewrite ?forallb_app; cbn [forallb]);
    rewrite ?Hd, ?He, ?Hz, ?(forallb_firstn _ _ _ Hd), ?(forallb_skipn _ _ _ Hd);
    reflexivity.
Qed.

Lemma NumberToString_numberChar (x : number) :
  forallb numberChar (NumberToString x) = true.
Proof.
  destruct x as [sg|sg| |sg m e]; try (destruct sg; reflexivity); try reflexivity.
  unfold NumberToString. pose proof (shortestDigits_nonneg m e) as H.
  destruct (shortestDigits m e) as [s n]. simpl in H.
  rewrite forallb_app, (formatDigits_numberChar _ H).
  now destruct sg.
Qed.

Lemma templateString_commaFree (v : option number) : commaFree (templateString v).
Proof.
  destruct v as [x|]; simpl.
  - apply numberChar_commaFree, NumberToString_numberChar.
  - repeat constructor.
Qed.

(** A comma-free prefix is determined by the string it starts. *)
Lemma comma_split (a a' r r' : jsstring) :
  commaFree a -> commaFree a' ->
  a ++ ch "," :: r = a' ++ ch "," :: r' -> a = a' /\ r = r'.
Proof.
  revert a'. induction a as [|c a IH]; intros [|c' a'] Ha Ha' H; simpl in H.
  - inversion H. auto.
  - inversion H; subst. inversion Ha'; subst. discriminate.
  - inversion H; subst. inversion Ha; subst. discriminate.
  - inversion H; subst. inversion Ha; inversion Ha'; subst.
    destruct (IH a') as [-> ->]; auto.
Qed.

(** The key determines the renderings of its three components. *)
Lemma colorKey_inj (arr arr' : list number) (i j : nat) :
  colorKey arr i = colorKey arr' j <->
  templateString (nth_error arr i) = templateString (nth_error arr' j) /\
  templateString (nth_error arr (i + 1)) = templateString (nth_error arr' (j + 1)) /\
  templateString (nth_error arr (i + 2)) = templateString (nth_error arr' (j + 2)).
Proof.
  unfold colorKey. split.
  - intros H.
    apply comma_split in H; [|apply templateString_commaFree..].
    destruct H as [H1 H].
    apply comma_split in H; [|apply templateString_commaFree..].
    tauto.
  - intros [-> [-> ->]]. reflexivity.
Qed.

(** ** The outcome of the deduplication *)

Lemma indexOf_indexIn (D l : list jsstring) :
  incl l D -> map (fun k => indexOf k D) l = map Some (map (indexIn D) l).
Proof.
  intros H. rewrite map_map. apply map_ext_in. intros k Hk.
  unfold indexIn. destruct (indexOf_In k D (H k Hk)) as [i [-> _]]. reflexivity.
Qed.

Lemma keys_incl_firstOcc (l : list jsstring) : incl l (firstOcc l).
Proof. intros k Hk. now apply firstOcc_In. Qed.

Lemma list_max_In (l : list nat) (x : nat) : In x l -> x <= list_max l.
Proof.
  intros H. assert (Hle : list_max l <= list_max l) by lia.
  apply list_max_le in Hle. rewrite Forall_forall in Hle. now apply Hle.
Qed.

Lemma indexIn_max (l : list jsstring) :
  l <> [] -> S (list_max (map (indexIn (firstOcc l)) l)) = length (firstOcc l).
Proof.
  intros Hne. set (D := firstOcc l).
  assert (HD : 0 < length D).
  { destruct l as [|k r]; [congruence|]. subst D. simpl. lia. }
  apply Nat.le_antisymm.
  - assert (Hm : map (indexIn D) l <> []).
    { destruct l; [congruence | discriminate]. }
    apply (proj2 (list_max_lt (length D) Hm)).
    apply Forall_forall. intros x Hx. apply in_map_iff in Hx.
      destruct Hx as [k [<- Hk]]. unfold indexIn.
    destruct (indexOf_In k D (keys_incl_firstOcc l k Hk)) as [i [-> [Hi _]]].
    assumption.
  - destruct (nth_error D (length D - 1)) as [k|] eqn:En.
    + assert (Hin : In k l).
      { apply firstOcc_In. eapply nth_error_In. eassumption. }
      pose proof (indexOf_NoDup_nth (length D - 1) (firstOcc_NoDup l) En) as Hi.
      assert (Hm : In (length D - 1) (map (indexIn D) l)).
      { apply in_map_iff. exists k. split; [|assumption].
        unfold indexIn. fold D in Hi. now rewrite Hi. }
      apply list_max_In in Hm. lia.
    + apply nth_error_None in En. lia.
Qed.

(** The loop is left whatever the array, and the state then is given by the
    first occurrences of the keys. *)
Lemma generateColorIndices_spec (colorsArray : list number) :
  let keys := keysOf colorsArray in
  dedupe colorsArray =
    Some (stateOf (firstOcc keys) (map Some (map (indexIn (firstOcc keys)) keys))) /\
  generateColorIndices colorsArray =
    Some (map Some (map (indexIn (firstOcc keys)) keys)).
Proof.
  intros keys. unfold generateColorIndices. rewrite dedupe_spec. fold keys.
  rewrite (indexOf_indexIn (keys_incl_firstOcc keys)). auto.
Qed.

Lemma indexIn_eq_iff (l : list jsstring) (a b : jsstring) :
  In a l -> In b l ->
  (indexIn (firstOcc l) a = indexIn (firstOcc l) b <-> a = b).
Proof.
  intros Ha Hb. split; [|congruence].
  unfold indexIn.
  destruct (indexOf_In a _ (keys_incl_firstOcc l a Ha)) as [i [Hi [_ Hni]]].
  destruct (indexOf_In b _ (keys_incl_firstOcc l b Hb)) as [j [Hj [_ Hnj]]].
  rewrite Hi, Hj. intros ->. congruence.
Qed.

Lemma nth_map_lt {A B : Type} (f : A -> B) (l : list A) (j : nat) (d : B) (x : A) :
  nth_error l j = Some x -> nth j (map f l) d = f x.
Proof.
  intros H. apply nth_error_nth. now rewrite nth_error_map, H.
Qed.

(** ** Colour deduplication: the claims *)

(** C7. Two runs on the same array, whatever fuel above the minimum each is
    given, leave the loop in one and the same state: the same palette (keys,
    indices and order) and the same index series, which is what
    [generateColorIndices] returns. *)
Theorem generateColorIndices_deterministic (colorsArray : list number) (k1 k2 : nat) :
  exists st,
    forLoop (S (length colorsArray) + k1) colorsArray 0 initialState = Some st /\
    forLoop (S (length colorsArray) + k2) colorsArray 0 initialState = Some st /\
    dedupe colorsArray = Some st /\
    generateColorIndices colorsArray = Some (colorIndices st).
Proof.
  unfold generateColorIndices, dedupe.
  rewrite !forLoop_fold by lia.
  eexists. repeat split; reflexivity.
Qed.

Lemma tripleStarts_snoc (n i : nat) :
  tripleStarts (n + 1) i = tripleStarts n i ++ [i + 3 * n].
Proof.
  revert i. induction n as [|n IH]; intros i; simpl.
  - f_equal. lia.
  - rewrite IH. do 3 f_equal. lia.
Qed.

Lemma tripleStarts_In (n i x : nat) :
  In x (tripleStarts n i) -> exists j, j < n /\ x = i + 3 * j.
Proof.
  revert i. induction n as [|n IH]; intros i; simpl; [tauto|].
  intros [<-|H].
  - exists 0. split; lia.
  - destruct (IH _ H) as [j [Hj ->]]. exists (S j). split; lia.
Qed.

Lemma tripleCount_partial (len : nat) :
  len mod 3 <> 0 -> tripleCount len = len / 3 + 1.
Proof.
  intros H. unfold tripleCount.
  pose proof (Nat.div_mod_eq len 3) as E.
  pose proof (Nat.mod_upper_bound len 3) as B.
  assert (Hr : len mod 3 = 1 \/ len mod 3 = 2) by lia.
  replace (len + 2) with (len mod 3 + 2 + (len / 3) * 3) by lia.
  rewrite Nat.div_add by lia.
  destruct Hr as [-> | ->]; simpl; lia.
Qed.

Lemma firstOcc_snoc (l : list jsstring) (k : jsstring) :
  firstOcc (l ++ [k]) =
  if existsb (jsstring_eqb k) (firstOcc l) then firstOcc l else firstOcc l ++ [k].
Proof.
  rewrite <- !seenAfter_nil. unfold seenAfter. now rewrite fold_left_app.
Qed.

Lemma indexOf_snoc_new (k : jsstring) (D : list jsstring) :
  ~ In k D -> indexOf k (D ++ [k]) = Some (length D).
Proof.
  induction D as [|h D IH]; simpl; intros H.
  - now rewrite jsstring_eqb_refl.
  - destruct (jsstring_eqb h k) eqn:E.
    + apply jsstring_eqb_eq in E. tauto.
    + rewrite IH by tauto. reflexivity.
Qed.

Lemma NumberToString_not_undefined (x : number) :
  NumberToString x <> str "undefined".
Proof.
  intros H. pose proof (NumberToString_numberChar x) as Hc.
  rewrite H in Hc. discriminate.
Qed.

(** Numbers that agree up to the sign of a zero are rendered alike. *)
Lemma canon_NumberToString (x y : number) :
  canon x = canon y -> NumberToString x = NumberToString y.
Proof.
  destruct x, y; simpl; intros H; try discriminate; try reflexivity;
    now inversion H.
Qed.

Lemma readsBack_inj (x y : number) :
  readsBack x = true -> readsBack y = true ->
  NumberToString x = NumberToString y -> canon x = canon y.
Proof.
  unfold readsBack, number_eqb. intros Hx Hy E.
  destruct (number_eq_dec (Number (NumberToString x)) (canon x)); [|discriminate].
  destruct (number_eq_dec (Number (NumberToString y)) (canon y)); [|discriminate].
  congruence.
Qed.

Lemma templateString_sameValueZero (a b : option number) :
  sameValueZero a b -> templateString a = templateString b.
Proof.
  destruct a, b; simpl; unfold sameValueZero; simpl; intros H;
    try discriminate; try reflexivity.
  apply canon_NumberToString. congruence.
Qed.

Lemma colorKey_tripleAt (arr : list number) (i j : nat) :
  tripleAt arr i = tripleAt arr j -> colorKey arr (3 * i) = colorKey arr (3 * j).
Proof.
  intros H. apply colorKey_inj.
  pose proof (f_equal (fun t => fst (fst t)) H) as H1.
  pose proof (f_equal (fun t => snd (fst t)) H) as H2.
  pose proof (f_equal snd H) as H3.
  unfold tripleAt in H1, H2, H3. cbn [fst snd] in H1, H2, H3.
  now rewrite H1, H2, H3.
Qed.

Lemma colorKey_sameColor (arr : list number) (i j : nat) :
  tripleReadsBack (tripleAt arr i) = true ->
  tripleReadsBack (tripleAt arr j) = true ->
  (colorKey arr (3 * i) = colorKey arr (3 * j) <->
   sameColor (tripleAt arr i) (tripleAt arr j)).
Proof.
  unfold tripleReadsBack, tripleAt, sameColor. cbn [fst snd]. intros Hi Hj.
  rewrite colorKey_inj.
  destruct (nth_error arr (3 * i)) as [a1|]; [|discriminate].
  destruct (nth_error arr (3 * i + 1)) as [a2|];
    [|rewrite andb_false_r in Hi; discriminate].
  destruct (nth_error arr (3 * i + 2)) as [a3|];
    [|rewrite andb_false_r in Hi; discriminate].
  destruct (nth_error arr (3 * j)) as [b1|]; [|discriminate].
  destruct (nth_error arr (3 * j + 1)) as [b2|];
    [|rewrite andb_false_r in Hj; discriminate].
  destruct (nth_error arr (3 * j + 2)) as [b3|];
    [|rewrite andb_false_r in Hj; discriminate].
  apply andb_prop in Hi. destruct Hi as [Hi Hi3]. apply andb_prop in Hi.
  destruct Hi as [Hi1 Hi2].
  apply andb_prop in Hj. destruct Hj as [Hj Hj3]. apply andb_prop in Hj.
  destruct Hj as [Hj1 Hj2].
  unfold sameValueZero. cbn [option_map templateString]. split.
  - intros [H1 [H2 H3]].
    repeat split; f_equal; apply readsBack_inj; assumption.
  - intros [H1 [H2 H3]].
    repeat split; apply canon_NumberToString; congruence.
Qed.

Lemma generateColorIndices_index_eq (colorsArray : list number) (i j : nat) :
  i < tripleCount (length colorsArray) ->
  j < tripleCount (length colorsArray) ->
  let idxs := map (indexIn (firstOcc (keysOf colorsArray))) (keysOf colorsArray) in
  nth i idxs 0 = nth j idxs 0 <->
  colorKey colorsArray (3 * i) = colorKey colorsArray (3 * j).
Proof.
  intros Hi Hj idxs. subst idxs.
  pose proof (keysOf_nth colorsArray Hi) as Ei.
  pose proof (keysOf_nth colorsArray Hj) as Ej.
  rewrite (nth_map_lt _ _ _ 0 Ei), (nth_map_lt _ _ _ 0 Ej).
  apply indexIn_eq_iff; eapply nth_error_In; eassumption.
Qed.

(** ** The palette and the triples *)

Lemma nodup_maps_le {A B C : Type}
  (dB : forall x y : B, {x = y} + {x <> y}) (dC : forall x y : C, {x = y} + {x <> y})
  (f : A -> B) (g : A -> C) (l : list A) :
  (forall x y, In x l -> In y l -> g x = g y -> f x = f y) ->
  length (nodup dB (map f l)) <= length (nodup dC (map g l)).
Proof.
  induction l as [|a l IH]; intros H; [reflexivity|].
  assert (IH' : length (nodup dB (map f l)) <= length (nodup dC (map g l))).
  { apply IH. intros x y Hx Hy. apply H; now right. }
  cbn [map nodup].
  destruct (in_dec dB (f a) (map f l)) as [Hf|Hf];
    destruct (in_dec dC (g a) (map g l)) as [Hg|Hg]; cbn [length]; try lia.
  exfalso. apply Hf. apply in_map_iff in Hg. destruct Hg as [y [Ey Hy]].
  apply in_map_iff. exists y. split; [|assumption].
  apply H; [now right | now left | assumption].
Qed.

Lemma nodup_maps_eq {A B C : Type}
  (dB : forall x y : B, {x = y} + {x <> y}) (dC : forall x y : C, {x = y} + {x <> y})
  (f : A -> B) (g : A -> C) (l : list A) :
  (forall x y, In x l -> In y l -> (f x = f y <-> g x = g y)) ->
  length (nodup dB (map f l)) = length (nodup dC (map g l)).
Proof.
  intros H. apply Nat.le_antisymm; apply nodup_maps_le; intros x y Hx Hy E;
    now apply (H x y Hx Hy).
Qed.

Lemma tripleStarts_seq (n i : nat) :
  tripleStarts n i = map (fun j => i + 3 * j) (seq 0 n).
Proof.
  revert i. induction n as [|n IH]; intros i; [reflexivity|].
  cbn [tripleStarts seq map]. f_equal; [lia|].
  rewrite IH, <- seq_shift, map_map. apply map_ext. intros j. lia.
Qed.

Lemma keysOf_seq (colorsArray : list number) (n : nat) :
  length colorsArray = 3 * n ->
  keysOf colorsArray = map (fun j => colorKey colorsArray (3 * j)) (seq 0 n).
Proof.
  intros H. unfold keysOf. rewrite H, tripleCount_exact, tripleStarts_seq, map_map.
  reflexivity.
Qed.

Lemma triplesOf_seq (colorsArray : list number) (n : nat) :
  length colorsArray = 3 * n ->
  map canonTriple (triplesOf colorsArray)
  = map (fun j => canonTriple (tripleAt colorsArray j)) (seq 0 n).
Proof.
  intros H. unfold triplesOf. rewrite H, Nat.mul_comm, Nat.div_mul by lia.
  now rewrite map_map.
Qed.

Lemma sameColor_canonTriple (s t : option number * option number * option number) :
  sameColor s t <-> canonTriple s = canonTriple t.
Proof.
  unfold sameColor, sameValueZero, canonTriple. split.
  - intros [H1 [H2 H3]]. now rewrite H1, H2, H3.
  - intros H. injection H as H1 H2 H3. auto.
Qed.

(** Triples that agree up to the sign of zeros have the same key. *)
Lemma sameColor_colorKey (arr : list number) (i j : nat) :
  sameColor (tripleAt arr i) (tripleAt arr j) ->
  colorKey arr (3 * i) = colorKey arr (3 * j).
Proof.
  unfold sameColor, tripleAt. cbn [fst snd]. intros [H1 [H2 H3]].
  apply colorKey_inj. repeat split; now apply templateString_sameValueZero.
Qed.

Lemma triplesOf_readsBack (colorsArray : list number) (n j : nat) :
  length colorsArray = 3 * n ->
  forallb tripleReadsBack (triplesOf colorsArray) = true -> In j (seq 0 n) ->
  tripleReadsBack (tripleAt colorsArray j) = true.
Proof.
  intros H Hrb Hj. rewrite forallb_forall in Hrb. apply Hrb.
  unfold triplesOf. rewrite H, Nat.mul_comm, Nat.div_mul by lia.
  now apply in_map.
Qed.

(** C1 (amended). For an array of [3 * n] numbers the loop is left with one
    index per triple; the palette holds the distinct colour keys, in the order
    in which they were first seen, numbered 0, 1, 2, ...; the index of a triple
    is the palette entry of its key; and for [n > 0] the largest index plus one
    is the palette size. The palette size is the number of distinct triples
    when [+0] and [-0] are not told apart: it never exceeds that number, and
    it equals it when the components of the triples are read back by [Number]
    from their rendering, so that no two triples are merged that differ
    otherwise. *)
Theorem generateColorIndices_palette (colorsArray : list number) (n : nat) :
  length colorsArray = 3 * n ->
  exists st idxs,
    dedupe colorsArray = Some st /\
    generateColorIndices colorsArray = Some (map Some idxs) /\
    length idxs = n /\
    Map_size (colorMap st) = length (nodup jsstring_eq_dec (keysOf colorsArray)) /\
    map fst (colorMap st) = firstOcc (keysOf colorsArray) /\
    map snd (colorMap st) = seq 0 (Map_size (colorMap st)) /\
    (forall j, j < n ->
       Map_get (colorMap st) (colorKey colorsArray (3 * j)) = Some (nth j idxs 0)) /\
    (0 < n -> S (list_max idxs) = Map_size (colorMap st)) /\
    Map_size (colorMap st) <= distinctColors colorsArray /\
    distinctColors colorsArray <= distinctTriples colorsArray /\
    (forallb tripleReadsBack (triplesOf colorsArray) = true ->
     Map_size (colorMap st) = distinctColors colorsArray).
Proof.
  intros Hlen.
  destruct (generateColorIndices_spec colorsArray) as [Hd Hg].
  set (keys := keysOf colorsArray) in *. set (D := firstOcc keys) in *.
  assert (Hk : length keys = n).
  { subst keys. now rewrite keysOf_length, Hlen, tripleCount_exact. }
  assert (Hsize : length D = length (nodup jsstring_eq_dec keys))
    by (subst D; apply firstOcc_length).
  exists (stateOf D (map Some (map (indexIn D) keys))), (map (indexIn D) keys).
  simpl colorMap. rewrite paletteOf_size, paletteOf_keys, paletteOf_values.
  split; [assumption|]. split; [assumption|]. split; [now rewrite length_map|].
  split; [assumption|]. split; [reflexivity|]. split; [reflexivity|].
  split; [|split; [|split; [|split]]].
  - intros j Hj. rewrite paletteOf_get.
    assert (Hn : nth_error keys j = Some (colorKey colorsArray (3 * j))).
    { subst keys. apply keysOf_nth. now rewrite Hlen, tripleCount_exact. }
    rewrite (nth_map_lt (indexIn D) _ _ 0 Hn). unfold indexIn.
    apply nth_error_In in Hn.
    now destruct (indexOf_In _ D (keys_incl_firstOcc keys _ Hn)) as [i [-> _]].
  - intros Hpos. subst D. apply indexIn_max. destruct keys; simpl in *; [lia|discriminate].
  - rewrite Hsize. unfold distinctColors, keys.
    rewrite (@keysOf_seq colorsArray n Hlen), (@triplesOf_seq colorsArray n Hlen).
    apply nodup_maps_le. intros x y _ _ E.
    apply sameColor_colorKey. now apply sameColor_canonTriple.
  - unfold distinctColors, distinctTriples.
    rewrite <- (map_id (triplesOf colorsArray)) at 2.
    apply nodup_maps_le. intros x y _ _ E. now rewrite E.
  - intros Hrb. rewrite Hsize. unfold distinctColors, keys.
    rewrite (@keysOf_seq colorsArray n Hlen), (@triplesOf_seq colorsArray n Hlen).
    apply nodup_maps_eq. intros x y Hx Hy.
    rewrite <- sameColor_canonTriple.
    apply colorKey_sameColor; eapply triplesOf_readsBack; eauto.
Qed.

Lemma generateColorIndices_palette_witness :
  length [pos_zero; pos_zero; pos_zero; neg_zero; pos_zero; pos_zero;
          three_tenths; one; pos_zero; three_tenths_up; one; pos_zero] = 3 * 4 /\
  exists st idxs,
    dedupe [pos_zero; pos_zero; pos_zero; neg_zero; pos_zero; pos_zero;
            three_tenths; one; pos_zero; three_tenths_up; one; pos_zero] = Some st /\
    generateColorIndices
      [pos_zero; pos_zero; pos_zero; neg_zero; pos_zero; pos_zero;
       three_tenths; one; pos_zero; three_tenths_up; one; pos_zero]
      = Some (map Some idxs) /\
    length idxs = 4 /\
    S (list_max idxs) = Map_size (colorMap st) /\
    Map_size (colorMap st) = 3.
Proof.
  split; [reflexivity|].
  destruct (@generateColorIndices_palette
              [pos_zero; pos_zero; pos_zero; neg_zero; pos_zero; pos_zero;
               three_tenths; one; pos_zero; three_tenths_up; one; pos_zero] 4 eq_refl)
    as [st [idxs [H1 [H2 [H3 [_ [_ [_ [_ [H8 [_ [_ H11]]]]]]]]]]]].
  exists st, idxs. split; [exact H1|]. split; [exact H2|]. split; [exact H3|].
  split; [apply H8; lia|]. rewrite H11; vm_compute; reflexivity.
Defined.

(** C1 as stated fails: the triples [(0, 0, 0)] and [(-0, 0, 0)] are two
    distinct triples with the one key ["0,0,0"], so the palette has one entry. *)
Lemma palette_size_not_distinct_triples :
  ~ (forall (colorsArray : list number) (n : nat) (st : ColorState),
       length colorsArray = 3 * n ->
       dedupe colorsArray = Some st ->
       Map_size (colorMap st) = distinctTriples colorsArray).
Proof.
  intros H.
  specialize (H [pos_zero; pos_zero; pos_zero; neg_zero; pos_zero; pos_zero] 2
                (stateOf [str "0,0,0"] [Some 0; Some 0]) eq_refl eq_refl).
  vm_compute in H. discriminate.
Qed.

(** C4 (amended). Two triples of the array receive the same palette index
    exactly when their colour keys are the same string. Bit-identical triples
    do; and triples whose components are read back by [Number] from their
    rendering do exactly when they agree in every component up to the sign of
    a zero: they are told apart when they differ in a component otherwise, be
    it in the last bit, and merged when they differ in the sign of zeros
    only. *)
Theorem generateColorIndices_same_index (colorsArray : list number) (n i j : nat) :
  length colorsArray = 3 * n -> i < n -> j < n ->
  exists idxs,
    generateColorIndices colorsArray = Some (map Some idxs) /\
    (nth i idxs 0 = nth j idxs 0 <->
     colorKey colorsArray (3 * i) = colorKey colorsArray (3 * j)) /\
    (tripleAt colorsArray i = tripleAt colorsArray j -> nth i idxs 0 = nth j idxs 0) /\
    (tripleReadsBack (tripleAt colorsArray i) = true ->
     tripleReadsBack (tripleAt colorsArray j) = true ->
     (nth i idxs 0 = nth j idxs 0 <->
      sameColor (tripleAt colorsArray i) (tripleAt colorsArray j))).
Proof.
  intros Hlen Hi Hj.
  destruct (generateColorIndices_spec colorsArray) as [_ Hg].
  eexists. split; [exact Hg|].
  assert (Hc : tripleCount (length colorsArray) = n)
    by now rewrite Hlen, tripleCount_exact.
  rewrite <- Hc in Hi, Hj.
  pose proof (generateColorIndices_index_eq colorsArray Hi Hj) as Hiff.
  cbv zeta in Hiff. split; [exact Hiff|]. split.
  - intros Ht. apply Hiff. now apply colorKey_tripleAt.
  - intros Ri Rj. etransitivity; [exact Hiff|].
    now apply colorKey_sameColor.
Qed.

Lemma generateColorIndices_same_index_witness :
  let arr := [pos_zero; one; three_tenths;
              neg_zero; one; three_tenths;
              pos_zero; one; three_tenths_up] in
  (length arr = 3 * 3 /\ 0 < 3 /\ 2 < 3) /\
  (tripleReadsBack (tripleAt arr 0) = true /\
   tripleReadsBack (tripleAt arr 2) = true) /\
  exists idxs,
    generateColorIndices arr = Some (map Some idxs) /\
    (nth 0 idxs 0 = nth 2 idxs 0 <->
     colorKey arr (3 * 0) = colorKey arr (3 * 2)) /\
    (tripleAt arr 0 = tripleAt arr 2 -> nth 0 idxs 0 = nth 2 idxs 0) /\
    (tripleReadsBack (tripleAt arr 0) = true ->
     tripleReadsBack (tripleAt arr 2) = true ->
     (nth 0 idxs 0 = nth 2 idxs 0 <->
      sameColor (tripleAt arr 0) (tripleAt arr 2))).
Proof.
  intros arr. split; [repeat split; lia|].
  split; [split; vm_compute; reflexivity|].
  apply (@generateColorIndices_same_index arr 3 0 2); [reflexivity | lia | lia].
Defined.

(** C4 as stated fails: [(0, 1, 0.3)] and [(-0, 1, 0.3)] differ in a
    component and receive the same index. *)
Lemma sign_of_zero_merged :
  ~ (forall (colorsArray : list number) (n i j : nat) (idxs : list nat),
       length colorsArray = 3 * n -> i < n -> j < n ->
       generateColorIndices colorsArray = Some (map Some idxs) ->
       (tripleAt colorsArray i = tripleAt colorsArray j ->
        nth i idxs 0 = nth j idxs 0) /\
       (tripleAt colorsArray i <> tripleAt colorsArray j ->
        nth i idxs 0 <> nth j idxs 0)).
Proof.
  intros H.
  destruct (H [pos_zero; one; three_tenths; neg_zero; one; three_tenths]
              2 0 1 [0; 0] eq_refl) as [_ Hne]; try lia.
  - vm_compute. reflexivity.
  - apply Hne; [|reflexivity]. vm_compute. discriminate.
Qed.

(** C8. The colour source of the scenario gives, through the data loader and
    the deduplication, a palette of size 2 and the indices 0, 0, 1. *)
Theorem scenario_color_source (createDefaultCubeData : list number) :
  let text := str "1 0 0" ++ LF :: str "1 0 0" ++ LF :: str "0 1 0" in
  exists st,
    dedupe (parseDataFile createDefaultCubeData text) = Some st /\
    Map_size (colorMap st) = 2 /\
    generateColorIndices (parseDataFile createDefaultCubeData text)
      = Some [Some 0; Some 0; Some 1].
Proof.
  intros text. eexists. split; [vm_compute; reflexivity|].
  split; vm_compute; reflexivity.
Qed.

(** C10. On an array whose length is not a multiple of 3 the loop is still
    left, with [length / 3 + 1] indices. The key of the last, partial triple
    has ["undefined"] for its missing components; no key of a complete triple
    equals it, so it always receives a palette entry of its own, the next
    index. *)
Theorem generateColorIndices_partial_triple (colorsArray : list number) :
  length colorsArray mod 3 <> 0 ->
  let q := length colorsArray / 3 in
  let prev := map (colorKey colorsArray) (tripleStarts q 0) in
  let key := colorKey colorsArray (3 * q) in
  exists st idxs,
    dedupe colorsArray = Some st /\
    generateColorIndices colorsArray = Some (map Some idxs) /\
    length idxs = q + 1 /\
    3 * q < length colorsArray < 3 * (q + 1) /\
    key = templateString (nth_error colorsArray (3 * q)) ++ ch "," ::
          templateString (nth_error colorsArray (3 * q + 1)) ++ str ",undefined" /\
    (length colorsArray mod 3 = 1 ->
     key = templateString (nth_error colorsArray (3 * q)) ++ str ",undefined,undefined") /\
    keysOf colorsArray = prev ++ [key] /\
    ~ In key prev /\
    idxs = map (indexIn (firstOcc prev)) prev ++ [length (firstOcc prev)] /\
    map fst (colorMap st) = firstOcc prev ++ [key] /\
    Map_size (colorMap st) = S (length (firstOcc prev)).
Proof.
  intros Hmod q prev key.
  destruct (generateColorIndices_spec colorsArray) as [Hd Hg].
  pose proof (Nat.div_mod_eq (length colorsArray) 3) as E.
  pose proof (Nat.mod_upper_bound (length colorsArray) 3 ltac:(lia)) as B.
  assert (Hkeys : keysOf colorsArray = prev ++ [key]).
  { unfold keysOf. rewrite (@tripleCount_partial _ Hmod). fold q.
    rewrite tripleStarts_snoc, map_app. reflexivity. }
  assert (Hu : nth_error colorsArray (3 * q + 2) = None).
  { apply nth_error_None. subst q. lia. }
  assert (Hkey : key = templateString (nth_error colorsArray (3 * q)) ++ ch "," ::
          templateString (nth_error colorsArray (3 * q + 1)) ++ str ",undefined").
  { subst key. unfold colorKey. now rewrite Hu. }
  assert (Hnew : ~ In key prev).
  { intros Hin. subst prev. apply in_map_iff in Hin.
    destruct Hin as [x [Hx Hin]]. apply tripleStarts_In in Hin.
    destruct Hin as [j [Hj ->]]. subst key. apply colorKey_inj in Hx.
    destruct Hx as [_ [_ Hx]]. rewrite Hu in Hx.
    destruct (nth_error colorsArray (0 + 3 * j + 2)) as [x|] eqn:En.
    - simpl in Hx. now apply NumberToString_not_undefined in Hx.
    - apply nth_error_None in En. subst q. lia. }
  assert (HD : firstOcc (keysOf colorsArray) = firstOcc prev ++ [key]).
  { rewrite Hkeys, firstOcc_snoc.
    destruct (existsb (jsstring_eqb key) (firstOcc prev)) eqn:Ex; [|reflexivity].
    exfalso. apply Hnew. apply firstOcc_In. now apply existsb_eqb_In. }
  assert (Hidx : map (indexIn (firstOcc (keysOf colorsArray))) (keysOf colorsArray) =
                 map (indexIn (firstOcc prev)) prev ++ [length (firstOcc prev)]).
  { rewrite HD, Hkeys, map_app. f_equal.
    - apply map_ext_in. intros k Hk. unfold indexIn.
      rewrite indexOf_app_l; [reflexivity | now apply firstOcc_In].
    - simpl. unfold indexIn. rewrite indexOf_snoc_new; [reflexivity|].
      now rewrite firstOcc_In. }
  rewrite Hidx in Hd, Hg. rewrite HD in Hd.
  do 2 eexists. split; [exact Hd|]. split; [exact Hg|].
  simpl colorMap. rewrite paletteOf_size, paletteOf_keys.
  repeat split; auto.
  - rewrite length_app, length_map. unfold prev.
    rewrite length_map, tripleStarts_length. reflexivity.
  - subst q. lia.
  - subst q. lia.
  - intros H1. rewrite Hkey.
    assert (Hu1 : nth_error colorsArray (3 * q + 1) = None).
    { apply nth_error_None. subst q. lia. }
    rewrite Hu1. reflexivity.
  - rewrite length_app. simpl. lia.
Qed.

Lemma generateColorIndices_partial_triple_witness :
  exists st idxs,
    dedupe [one; pos_zero; pos_zero; one] = Some st /\
    generateColorIndices [one; pos_zero; pos_zero; one] = Some (map Some idxs) /\
    length idxs = 2 /\
    colorKey [one; pos_zero; pos_zero; one] 3 = str "1,undefined,undefined" /\
    idxs = [0; 1] /\
    Map_size (colorMap st) = 2.
Proof.
  destruct (@generateColorIndices_partial_triple [one; pos_zero; pos_zero; one])
    as [st [idxs [H1 [H2 [H3 [_ [_ [H6 [_ [_ [H9 [_ H11]]]]]]]]]]]].
  { vm_compute. discriminate. }
  exists st, idxs. split; [assumption|]. split; [assumption|].
  split; [assumption|]. split; [apply H6; reflexivity|].
  split; assumption.
Defined.

(** ** Trimming and splitting *)

Lemma dropWhile_all (p : char -> bool) (a s : jsstring) :
  forallb p a = true -> dropWhile p (a ++ s) = dropWhile p s.
Proof.
  induction a as [|c a IH]; simpl; [reflexivity|].
  intros H. apply andb_prop in H. destruct H as [-> H]. auto.
Qed.

Lemma dropWhile_stop (p : char -> bool) (s r : jsstring) :
  existsb (fun c => negb (p c)) s = true ->
  dropWhile p (s ++ r) = dropWhile p s ++ r.
Proof.
  induction s as [|c s IH]; simpl; [discriminate|].
  destruct (p c); simpl; auto.
Qed.

Lemma existsb_dropWhile (p : char -> bool) (s : jsstring) :
  existsb (fun c => negb (p c)) (dropWhile p s) = existsb (fun c => negb (p c)) s.
Proof.
  induction s as [|c s IH]; simpl; [reflexivity|].
  destruct (p c) eqn:E; simpl; [assumption | now rewrite E].
Qed.

Lemma existsb_rev {A : Type} (p : A -> bool) (l : list A) :
  existsb p (rev l) = existsb p l.
Proof.
  induction l as [|x l IH]; simpl; [reflexivity|].
  rewrite existsb_app, IH. simpl. rewrite orb_false_r. apply orb_comm.
Qed.

Lemma forallb_rev {A : Type} (p : A -> bool) (l : list A) :
  forallb p (rev l) = forallb p l.
Proof.
  induction l as [|x l IH]; simpl; [reflexivity|].
  rewrite forallb_app, IH. simpl. rewrite andb_true_r. apply andb_comm.
Qed.

Lemma trimStart_blank_app (a s : jsstring) :
  isBlank a = true -> trimStart (a ++ s) = trimStart s.
Proof. apply dropWhile_all. Qed.

Lemma trimStart_ink_app (s r : jsstring) :
  hasInk s = true -> trimStart (s ++ r) = trimStart s ++ r.
Proof. apply dropWhile_stop. Qed.

Lemma trimEnd_app_blank (s b : jsstring) :
  isBlank b = true -> trimEnd (s ++ b) = trimEnd s.
Proof.
  intros H. unfold trimEnd. rewrite rev_app_distr, dropWhile_all; [reflexivity|].
  now rewrite forallb_rev.
Qed.

Lemma trimEnd_app_ink (r s : jsstring) :
  hasInk s = true -> trimEnd (r ++ s) = r ++ trimEnd s.
Proof.
  intros H. unfold trimEnd. rewrite rev_app_distr, dropWhile_stop.
  - now rewrite rev_app_distr, rev_involutive.
  - unfold hasInk, isInk in H. now rewrite existsb_rev.
Qed.

Lemma hasInk_trimStart (s : jsstring) : hasInk (trimStart s) = hasInk s.
Proof. apply existsb_dropWhile. Qed.

Lemma hasInk_trimEnd (s : jsstring) : hasInk (trimEnd s) = hasInk s.
Proof.
  unfold trimEnd, hasInk, isInk.
  now rewrite existsb_rev, existsb_dropWhile, existsb_rev.
Qed.

Lemma hasInk_blank (s : jsstring) : hasInk s = negb (isBlank s).
Proof.
  unfold hasInk, isBlank, isInk. induction s as [|c s IH]; simpl; [reflexivity|].
  rewrite IH. now destruct (isWhiteSpace c), (forallb isWhiteSpace s).
Qed.

Lemma trimStart_blank (s : jsstring) : isBlank s = true -> trimStart s = [].
Proof.
  intros H. rewrite <- (app_nil_r s). now rewrite trimStart_blank_app.
Qed.

Lemma trim_blank (s : jsstring) : isBlank s = true -> trim s = [].
Proof. intros H. unfold trim. now rewrite trimStart_blank. Qed.

Lemma hasInk_trim (s : jsstring) : hasInk (trim s) = hasInk s.
Proof. unfold trim. now rewrite hasInk_trimEnd, hasInk_trimStart. Qed.

Lemma trim_nil (s : jsstring) : isNil (trim s) = isBlank s.
Proof.
  destruct (isBlank s) eqn:E.
  - now rewrite trim_blank.
  - pose proof (hasInk_trim s) as H. rewrite (hasInk_blank s), E in H.
    destruct (trim s); [discriminate | reflexivity].
Qed.

Lemma isBlank_app (a b : jsstring) : isBlank (a ++ b) = isBlank a && isBlank b.
Proof. apply forallb_app. Qed.

Lemma hasInk_app (a b : jsstring) : hasInk (a ++ b) = hasInk a || hasInk b.
Proof. apply existsb_app. Qed.

(** The byte-order mark is white space: removing it changes nothing for
    what follows. *)
Lemma trimStart_stripBOM (s : jsstring) : trimStart (stripBOM s) = trimStart s.
Proof.
  destruct s as [|c s]; [reflexivity|]. simpl.
  destruct (c =? BOM)%N eqn:E; [|reflexivity].
  apply N.eqb_eq in E. subst. reflexivity.
Qed.

Lemma trim_stripBOM (s : jsstring) : trim (stripBOM s) = trim s.
Proof. unfold trim. now rewrite trimStart_stripBOM. Qed.

Lemma isBlank_stripBOM (s : jsstring) : isBlank (stripBOM s) = isBlank s.
Proof.
  destruct s as [|c s]; [reflexivity|]. simpl.
  destruct (c =? BOM)%N eqn:E; [|reflexivity].
  apply N.eqb_eq in E. subst. reflexivity.
Qed.

(** The test that sends [parseDataFile] to the default data. *)
Lemma empty_test (text : jsstring) :
  isNil (stripBOM text) || isNil (trim (stripBOM text)) = isBlank text.
Proof.
  rewrite trim_nil, isBlank_stripBOM.
  destruct (stripBOM text) eqn:E; [|reflexivity]. simpl.
  rewrite <- isBlank_stripBOM, E. reflexivity.
Qed.

Lemma parseDataFile_unfold (d : list number) (text : jsstring) :
  parseDataFile d text =
  if isBlank text then d
  else match surviving (linesOf text) with
       | [] => d
       | _ :: _ => surviving (linesOf text)
       end.
Proof.
  unfold parseDataFile. rewrite empty_test.
  destruct (isBlank text); [reflexivity|].
  fold (linesOf text). fold (surviving (linesOf text)).
  destruct (surviving (linesOf text)); reflexivity.
Qed.

Lemma surviving_app (a b : list jsstring) :
  surviving (a ++ b) = surviving a ++ surviving b.
Proof. unfold surviving. now rewrite map_app, filter_app, concat_app. Qed.

Lemma split_char_nonempty (sep : char) (s : jsstring) : split_char sep s <> [].
Proof.
  induction s as [|c s IH]; simpl; [discriminate|].
  destruct (c =? sep)%N; [discriminate|].
  destruct (split_char sep s); [congruence | discriminate].
Qed.

Lemma split_char_app (sep : char) (x y : jsstring) :
  split_char sep (x ++ sep :: y) = split_char sep x ++ split_char sep y.
Proof.
  induction x as [|c x IH]; simpl.
  - now rewrite N.eqb_refl.
  - destruct (c =? sep)%N; [now rewrite IH|].
    rewrite IH. pose proof (split_char_nonempty sep x) as H.
    destruct (split_char sep x); [congruence | reflexivity].
Qed.

Lemma split_char_none (s : jsstring) :
  noLineFeed s = true -> split_char LF s = [s].
Proof.
  induction s as [|c s IH]; simpl; [reflexivity|].
  intros H. apply andb_prop in H. destruct H as [Hc H].
  apply negb_true_iff in Hc. rewrite Hc, (IH H). reflexivity.
Qed.

Lemma split_joinLines (ls : list jsstring) :
  ls <> [] -> forallb noLineFeed ls = true ->
  split_char LF (joinLines ls) = ls.
Proof.
  induction ls as [|l r IH]; [congruence|]. intros _ H.
  simpl in H. apply andb_prop in H. destruct H as [Hl Hr].
  destruct r as [|l' r'].
  - simpl. now apply split_char_none.
  - change (joinLines (l :: l' :: r')) with (l ++ LF :: joinLines (l' :: r')).
    rewrite split_char_app, (split_char_none _ Hl), IH; [reflexivity | discriminate | assumption].
Qed.

(** ** The data loader: the claims *)

Lemma keepValues_tokens (toks : list jsstring) :
  keepValues (map Number toks) = forallb tokenOk toks.
Proof.
  unfold keepValues, tokenOk. induction toks as [|t r IH]; simpl; [reflexivity|].
  rewrite <- IH. now rewrite negb_orb.
Qed.

Lemma surviving_contribution (ls : list jsstring) :
  surviving ls = flat_map lineContribution ls.
Proof.
  unfold surviving. induction ls as [|l r IH]; simpl; [reflexivity|].
  unfold lineContribution at 1. unfold lineValues at 1. fold (tokensOf l).
  rewrite keepValues_tokens.
  destruct (forallb tokenOk (tokensOf l)); simpl; now rewrite IH.
Qed.

Lemma surviving_valid (ls : list jsstring) :
  forallb (fun v => negb (invalidValue v)) (surviving ls) = true.
Proof.
  unfold surviving. induction ls as [|l r IH]; simpl; [reflexivity|].
  destruct (keepValues (lineValues l)) eqn:E; simpl; [|assumption].
  rewrite forallb_app, IH, andb_true_r.
  unfold keepValues in E. apply negb_true_iff in E.
  induction (lineValues l) as [|v vs IHv]; simpl in *; [reflexivity|].
  apply orb_false_elim in E. destruct E as [-> E]. simpl. auto.
Qed.

Lemma surviving_dropped (ls : list jsstring) :
  forallb (fun l => negb (keepValues (lineValues l))) ls = true -> surviving ls = [].
Proof.
  unfold surviving. induction ls as [|l r IH]; simpl; [reflexivity|].
  intros H. apply andb_prop in H. destruct H as [Hl Hr].
  apply negb_true_iff in Hl. rewrite Hl. auto.
Qed.

(** C5. On a text that is empty or white space only, and on a text all of
    whose lines are dropped (no number survives), the loader returns the
    default data; it returns on every text, either the default data or a
    series that is not empty and holds finite numbers only. *)
Theorem parseDataFile_default (createDefaultCubeData : list number) (text : jsstring) :
  (isBlank text = true -> parseDataFile createDefaultCubeData text = createDefaultCubeData) /\
  (forallb (fun l => negb (keepValues (lineValues l))) (linesOf text) = true ->
   parseDataFile createDefaultCubeData text = createDefaultCubeData) /\
  (surviving (linesOf text) = [] ->
   parseDataFile createDefaultCubeData text = createDefaultCubeData) /\
  (parseDataFile createDefaultCubeData text = createDefaultCubeData \/
   parseDataFile createDefaultCubeData text <> [] /\
   forallb (fun v => negb (invalidValue v))
     (parseDataFile createDefaultCubeData text) = true).
Proof.
  rewrite parseDataFile_unfold.
  assert (H0 : surviving (linesOf text) = [] ->
               (if isBlank text then createDefaultCubeData
                else match surviving (linesOf text) with
                     | [] => createDefaultCubeData
                     | _ :: _ => surviving (linesOf text)
                     end) = createDefaultCubeData).
  { intros ->. now destruct (isBlank text). }
  split; [now intros ->|]. split; [|split; [assumption|]].
  - intros H. apply H0. now apply surviving_dropped.
  - destruct (isBlank text); [now left|].
    pose proof (surviving_valid (linesOf text)) as Hv.
    destruct (surviving (linesOf text)) as [|v vs]; [now left|].
    right. split; [discriminate | assumption].
Qed.

Lemma parseDataFile_default_witness :
  parseDataFile [one] (str "  ") = [one] /\
  parseDataFile [one] (BOM :: str "x 1" ++ LF :: str "2 Infinity") = [one].
Proof.
  split.
  - apply (proj1 (parseDataFile_default [one] (str "  "))). reflexivity.
  - apply (proj1 (proj2 (parseDataFile_default [one]
                           (BOM :: str "x 1" ++ LF :: str "2 Infinity")))).
    vm_compute. reflexivity.
Defined.

(** C6. The result is made of the contributions of the lines, in order: a
    line with a token that does not parse as a finite number gives nothing, a
    line whose tokens all parse gives all its numbers. (The lines are those of
    the trimmed text, the tokens those of the trimmed line, where a blank line
    has the empty string as its one token; a blank text, and a text none of
    whose lines gives anything, is replaced by the default data.) *)
Theorem parseDataFile_lines (createDefaultCubeData : list number) (text : jsstring) :
  (forall line, existsb (fun t => invalidValue (Number t)) (tokensOf line) = true ->
                lineContribution line = []) /\
  (forall line, existsb (fun t => invalidValue (Number t)) (tokensOf line) = false ->
                lineContribution line = map Number (tokensOf line)) /\
  surviving (linesOf text) = flat_map lineContribution (linesOf text) /\
  parseDataFile createDefaultCubeData text =
    if isBlank text then createDefaultCubeData
    else match flat_map lineContribution (linesOf text) with
         | [] => createDefaultCubeData
         | _ :: _ => flat_map lineContribution (linesOf text)
         end.
Proof.
  assert (Hok : forall line,
             forallb tokenOk (tokensOf line) =
             negb (existsb (fun t => invalidValue (Number t)) (tokensOf line))).
  { intros line. unfold tokenOk. induction (tokensOf line) as [|t r IH]; simpl;
      [reflexivity|]. now rewrite IH, negb_orb. }
  repeat split.
  - intros line H. unfold lineContribution. now rewrite Hok, H.
  - intros line H. unfold lineContribution. now rewrite Hok, H.
  - apply surviving_contribution.
  - rewrite parseDataFile_unfold, surviving_contribution. reflexivity.
Qed.

Lemma parseDataFile_lines_witness :
  parseDataFile [one] (str "1 0" ++ LF :: str "0 abc 1" ++ LF :: str "0.3")
  = [one; pos_zero; three_tenths].
Proof.
  destruct (parseDataFile_lines [one]
              (str "1 0" ++ LF :: str "0 abc 1" ++ LF :: str "0.3"))
    as [_ [_ [_ H]]].
  rewrite H. vm_compute. reflexivity.
Defined.

Lemma lineValues_blank (blank : jsstring) :
  isBlank blank = true -> tokensOf blank = [[]] /\ lineValues blank = [pos_zero].
Proof.
  intros H. unfold lineValues, tokensOf. rewrite (trim_blank _ H). split; reflexivity.
Qed.

Lemma hasInk_nonempty (s : jsstring) : hasInk s = true -> s <> [].
Proof. destruct s; [discriminate | discriminate]. Qed.

Lemma hasInk_stripBOM (s : jsstring) : hasInk (stripBOM s) = hasInk s.
Proof. now rewrite !hasInk_blank, isBlank_stripBOM. Qed.

Lemma stripBOM_app (a r : jsstring) : a <> [] -> stripBOM (a ++ r) = stripBOM a ++ r.
Proof.
  destruct a as [|c a]; [congruence|]. intros _. simpl.
  now destruct (c =? BOM)%N.
Qed.

Lemma linesOf_between (A M B : jsstring) :
  hasInk A = true -> hasInk B = true ->
  linesOf (A ++ LF :: M ++ LF :: B) =
  split_char LF (trimStart (stripBOM A)) ++ split_char LF M ++ split_char LF (trimEnd B).
Proof.
  intros HA HB. unfold linesOf.
  rewrite stripBOM_app by now apply hasInk_nonempty.
  unfold trim. rewrite trimStart_ink_app by now rewrite hasInk_stripBOM.
  replace (trimStart (stripBOM A) ++ LF :: M ++ LF :: B)
    with ((trimStart (stripBOM A) ++ LF :: M ++ [LF]) ++ B)
    by (rewrite <- !app_assoc; simpl; rewrite <- app_assoc; reflexivity).
  rewrite trimEnd_app_ink by assumption.
  rewrite <- !app_assoc. simpl. rewrite <- app_assoc. simpl.
  now rewrite !split_char_app.
Qed.

Lemma linesOf_adjacent (A B : jsstring) :
  hasInk A = true -> hasInk B = true ->
  linesOf (A ++ LF :: B) =
  split_char LF (trimStart (stripBOM A)) ++ split_char LF (trimEnd B).
Proof.
  intros HA HB. unfold linesOf.
  rewrite stripBOM_app by now apply hasInk_nonempty.
  unfold trim. rewrite trimStart_ink_app by now rewrite hasInk_stripBOM.
  replace (trimStart (stripBOM A) ++ LF :: B)
    with ((trimStart (stripBOM A) ++ [LF]) ++ B)
    by (rewrite <- !app_assoc; reflexivity).
  rewrite trimEnd_app_ink by assumption.
  rewrite <- !app_assoc. simpl.
  now rewrite !split_char_app.
Qed.

Lemma isBlank_ink (s : jsstring) : hasInk s = true -> isBlank s = false.
Proof. rewrite hasInk_blank. now destruct (isBlank s). Qed.

(** C9. A blank line (empty or white space only) between two parts of the
    text that each hold something else than white space is not dropped: its
    only token is the empty string, which [Number] reads as 0, and it gives
    exactly one value 0 to the result, at its place among the lines. *)
Theorem parseDataFile_blank_line (createDefaultCubeData : list number)
  (A blank B : jsstring) :
  hasInk A = true -> hasInk B = true -> isPad blank = true ->
  let before := surviving (split_char LF (trimStart (stripBOM A))) in
  let after := surviving (split_char LF (trimEnd B)) in
  tokensOf blank = [[]] /\
  lineValues blank = [pos_zero] /\
  surviving (linesOf (A ++ LF :: B)) = before ++ after /\
  parseDataFile createDefaultCubeData (A ++ LF :: blank ++ LF :: B)
    = before ++ pos_zero :: after.
Proof.
  intros HA HB Hpad before after.
  apply andb_prop in Hpad. destruct Hpad as [Hblank Hnl].
  destruct (lineValues_blank _ Hblank) as [Ht Hv].
  split; [assumption|]. split; [assumption|]. split.
  - now rewrite linesOf_adjacent, surviving_app.
  - rewrite parseDataFile_unfold.
    rewrite isBlank_ink by (rewrite hasInk_app, HA; reflexivity).
    rewrite linesOf_between, (split_char_none _ Hnl), !surviving_app by assumption.
    fold before. fold after.
    assert (Hs : surviving [blank] = [pos_zero]).
    { unfold surviving. simpl. rewrite Hv. reflexivity. }
    rewrite Hs. simpl. now destruct before.
Qed.

Lemma parseDataFile_blank_line_witness :
  parseDataFile [] (str "1 1" ++ LF :: str "  " ++ LF :: str "0.3 1")
  = [one; one; pos_zero; three_tenths; one].
Proof.
  destruct (@parseDataFile_blank_line [] (str "1 1") (str "  ") (str "0.3 1")
              eq_refl eq_refl eq_refl) as [_ [_ [_ H]]].
  rewrite H. vm_compute. reflexivity.
Defined.

(** ** Well-formed lines *)

Lemma split_ws_from_nonempty (b : bool) (s : jsstring) : split_ws_from b s <> [].
Proof.
  revert b. induction s as [|c s IH]; intros b; simpl; [discriminate|].
  destruct (isWhiteSpace c).
  - destruct b; [apply IH | discriminate].
  - destruct (split_ws_from false s); discriminate.
Qed.

(** A run of ink goes to the head of the first piece. *)
Lemma split_ws_ink (t s : jsstring) (b : bool) :
  allInk t = true -> t <> [] ->
  split_ws_from b (t ++ s) = consHead t (split_ws_from false s).
Proof.
  intros Ht Hne. induction t as [|c t IH]; [congruence|].
  simpl in Ht. apply andb_prop in Ht. destruct Ht as [Hc Ht].
  unfold isInk in Hc. apply negb_true_iff in Hc.
  simpl. rewrite Hc. destruct t as [|c' t'].
  - simpl. pose proof (split_ws_from_nonempty false s) as H.
    destruct (split_ws_from false s); [congruence | reflexivity].
  - assert (E : split_ws_from false ((c' :: t') ++ s) =
                consHead (c' :: t') (split_ws_from false s)).
    { clear IH. revert Ht. generalize (c' :: t') as u. intros u Hu.
      induction u as [|x u IHu]; simpl.
      - pose proof (split_ws_from_nonempty false s) as H.
        destruct (split_ws_from false s); [congruence | reflexivity].
      - simpl in Hu. apply andb_prop in Hu. destruct Hu as [Hx Hu].
        unfold isInk in Hx. apply negb_true_iff in Hx. rewrite Hx, (IHu Hu).
        pose proof (split_ws_from_nonempty false s) as H.
        destruct (split_ws_from false s); [congruence | reflexivity]. }
    rewrite E. pose proof (split_ws_from_nonempty false s) as H.
    destruct (split_ws_from false s); [congruence | reflexivity].
Qed.

(** White space already being skipped is skipped to its end. *)
Lemma split_ws_skip (g s : jsstring) :
  isBlank g = true -> split_ws_from true (g ++ s) = split_ws_from true s.
Proof.
  induction g as [|c g IH]; simpl; [reflexivity|].
  intros H. apply andb_prop in H. destruct H as [-> H]. auto.
Qed.

(** A gap closes the piece before it. *)
Lemma split_ws_gap (g s : jsstring) :
  isBlank g = true -> g <> [] ->
  split_ws_from false (g ++ s) = [] :: split_ws_from true s.
Proof.
  destruct g as [|c g]; [congruence|]. simpl. intros H _.
  apply andb_prop in H. destruct H as [-> H]. now rewrite split_ws_skip.
Qed.

Lemma isToken_spec (t : jsstring) : isToken t = true -> allInk t = true /\ t <> [].
Proof.
  unfold isToken. intros H. apply andb_prop in H. destruct H as [Hn Ha].
  split; [assumption|]. destruct t; [discriminate | discriminate].
Qed.

Lemma isGap_spec (g : jsstring) :
  isGap g = true -> isBlank g = true /\ g <> [] /\ noLineFeed g = true.
Proof.
  unfold isGap, isPad. intros H. apply andb_prop in H. destruct H as [Hn H].
  apply andb_prop in H. destruct H as [Hb Hl].
  repeat split; try assumption. destruct g; [discriminate | discriminate].
Qed.

Lemma split_ws_three (t1 g1 t2 g2 t3 : jsstring) :
  isToken t1 = true -> isGap g1 = true -> isToken t2 = true ->
  isGap g2 = true -> isToken t3 = true ->
  split_ws (t1 ++ g1 ++ t2 ++ g2 ++ t3) = [t1; t2; t3].
Proof.
  intros H1 G1 H2 G2 H3.
  destruct (isToken_spec _ H1) as [A1 N1]. destruct (isToken_spec _ H2) as [A2 N2].
  destruct (isToken_spec _ H3) as [A3 N3].
  destruct (isGap_spec _ G1) as [B1 [M1 _]]. destruct (isGap_spec _ G2) as [B2 [M2 _]].
  unfold split_ws.
  rewrite (split_ws_ink _ _ A1 N1), (split_ws_gap _ B1 M1).
  rewrite (split_ws_ink _ _ A2 N2), (split_ws_gap _ B2 M2).
  rewrite <- (app_nil_r t3) at 1. rewrite (split_ws_ink _ _ A3 N3).
  simpl. now rewrite !app_nil_r.
Qed.

Lemma allInk_hasInk (t : jsstring) : allInk t = true -> t <> [] -> hasInk t = true.
Proof.
  destruct t as [|c t]; [congruence|]. simpl. intros H _.
  apply andb_prop in H. destruct H as [-> _]. reflexivity.
Qed.

(** Ink at both ends: nothing to trim. *)
Lemma trimStart_ink (t s : jsstring) :
  allInk t = true -> t <> [] -> trimStart (t ++ s) = t ++ s.
Proof.
  destruct t as [|c t]; [congruence|]. simpl. intros H _.
  apply andb_prop in H. destruct H as [Hc _]. unfold isInk in Hc.
  apply negb_true_iff in Hc. unfold trimStart. simpl. now rewrite Hc.
Qed.

Lemma trimEnd_ink (s t : jsstring) :
  allInk t = true -> t <> [] -> trimEnd (s ++ t) = s ++ t.
Proof.
  intros H Hne. unfold trimEnd. rewrite rev_app_distr.
  assert (Hr : allInk (rev t) = true) by (unfold allInk; now rewrite forallb_rev).
  assert (Hn : rev t <> []).
  { intros E. apply (f_equal (@rev char)) in E. rewrite rev_involutive in E. auto. }
  pose proof (trimStart_ink (rev s) Hr Hn) as E. unfold trimStart in E.
  rewrite E, rev_app_distr, !rev_involutive. reflexivity.
Qed.

Lemma isPad_spec (p : jsstring) :
  isPad p = true -> isBlank p = true /\ noLineFeed p = true.
Proof. unfold isPad. intros H. now apply andb_prop in H. Qed.

Lemma wfRow_spec (r : Row) :
  wfRow r = true ->
  isPad (pre r) = true /\ isToken (tok1 r) = true /\ isGap (gap1 r) = true /\
  isToken (tok2 r) = true /\ isGap (gap2 r) = true /\ isToken (tok3 r) = true /\
  isPad (post r) = true /\
  tokenOk (tok1 r) = true /\ tokenOk (tok2 r) = true /\ tokenOk (tok3 r) = true.
Proof.
  unfold wfRow. intros H.
  do 9 (apply andb_prop in H; destruct H as [H ?]). repeat split; assumption.
Qed.

Lemma trim_rowText (r : Row) :
  wfRow r = true ->
  trim (rowText r) = tok1 r ++ gap1 r ++ tok2 r ++ gap2 r ++ tok3 r.
Proof.
  intros H. destruct (wfRow_spec _ H) as [P [T1 [G1 [T2 [G2 [T3 [Q _]]]]]]].
  destruct (isPad_spec _ P) as [Pb _]. destruct (isPad_spec _ Q) as [Qb _].
  destruct (isToken_spec _ T1) as [A1 N1]. destruct (isToken_spec _ T3) as [A3 N3].
  unfold trim, rowText.
  rewrite (trimStart_blank_app _ _ Pb), (trimStart_ink _ A1 N1).
  replace (tok1 r ++ gap1 r ++ tok2 r ++ gap2 r ++ tok3 r ++ post r)
    with ((tok1 r ++ gap1 r ++ tok2 r ++ gap2 r ++ tok3 r) ++ post r)
    by now rewrite <- !app_assoc.
  rewrite (trimEnd_app_blank _ _ Qb).
  replace (tok1 r ++ gap1 r ++ tok2 r ++ gap2 r ++ tok3 r)
    with ((tok1 r ++ gap1 r ++ tok2 r ++ gap2 r) ++ tok3 r)
    by now rewrite <- !app_assoc.
  now rewrite (trimEnd_ink _ A3 N3).
Qed.

Lemma lineValues_rowText (r : Row) :
  wfRow r = true ->
  lineValues (rowText r) = rowValues r /\ keepValues (rowValues r) = true.
Proof.
  intros H. destruct (wfRow_spec _ H) as [P [T1 [G1 [T2 [G2 [T3 [Q [K1 [K2 K3]]]]]]]]].
  split.
  - unfold lineValues. rewrite (trim_rowText _ H), split_ws_three by assumption.
    reflexivity.
  - unfold rowValues. change [Number (tok1 r); Number (tok2 r); Number (tok3 r)]
      with (map Number [tok1 r; tok2 r; tok3 r]).
    rewrite keepValues_tokens. simpl. now rewrite K1, K2, K3.
Qed.

(** ** Well-formed texts *)

Lemma wfRow_dropPre (r : Row) : wfRow r = true -> wfRow (dropPre r) = true.
Proof.
  intros H. destruct (wfRow_spec _ H) as [P [T1 [G1 [T2 [G2 [T3 [Q [K1 [K2 K3]]]]]]]]].
  unfold wfRow, dropPre. simpl. now rewrite T1, G1, T2, G2, T3, Q, K1, K2, K3.
Qed.

Lemma joinLines_cons (l : jsstring) (ls : list jsstring) :
  joinLines (l :: ls) = l ++ match ls with [] => [] | _ :: _ => LF :: joinLines ls end.
Proof. destruct ls; simpl; [now rewrite app_nil_r | reflexivity]. Qed.

Lemma hasInk_rowText (r : Row) : wfRow r = true -> hasInk (rowText r) = true.
Proof.
  intros H. destruct (wfRow_spec _ H) as [_ [T1 _]].
  destruct (isToken_spec _ T1) as [A1 N1].
  unfold rowText. rewrite !hasInk_app, (allInk_hasInk A1 N1).
  now rewrite orb_true_r.
Qed.

Lemma hasInk_joinLines (rows : list Row) :
  rows <> [] -> forallb wfRow rows = true ->
  hasInk (joinLines (map rowText rows)) = true.
Proof.
  destruct rows as [|r rs]; [congruence|]. intros _ H. simpl in H.
  apply andb_prop in H. destruct H as [Hr _].
  simpl map. rewrite joinLines_cons, hasInk_app, (hasInk_rowText _ Hr). reflexivity.
Qed.

Lemma noLineFeed_app (a b : jsstring) :
  noLineFeed (a ++ b) = noLineFeed a && noLineFeed b.
Proof. apply forallb_app. Qed.

Lemma allInk_noLineFeed (t : jsstring) : allInk t = true -> noLineFeed t = true.
Proof.
  unfold allInk, noLineFeed. rewrite !forallb_forall. intros H c Hc.
  specialize (H c Hc). unfold isInk in H. apply negb_true_iff in H.
  apply negb_true_iff. apply N.eqb_neq. intros ->. discriminate.
Qed.

Lemma noLineFeed_rowText (r : Row) : wfRow r = true -> noLineFeed (rowText r) = true.
Proof.
  intros H. destruct (wfRow_spec _ H) as [P [T1 [G1 [T2 [G2 [T3 [Q _]]]]]]].
  destruct (isPad_spec _ P) as [_ Pl]. destruct (isPad_spec _ Q) as [_ Ql].
  destruct (isToken_spec _ T1) as [A1 _]. destruct (isToken_spec _ T2) as [A2 _].
  destruct (isToken_spec _ T3) as [A3 _].
  destruct (isGap_spec _ G1) as [_ [_ L1]]. destruct (isGap_spec _ G2) as [_ [_ L2]].
  unfold rowText. rewrite !noLineFeed_app, Pl, Ql, L1, L2.
  now rewrite !allInk_noLineFeed.
Qed.

Lemma trimEnd_rowText (r : Row) :
  wfRow r = true ->
  trimEnd (rowText r) = pre r ++ tok1 r ++ gap1 r ++ tok2 r ++ gap2 r ++ tok3 r.
Proof.
  intros H. destruct (wfRow_spec _ H) as [_ [_ [_ [_ [_ [T3 [Q _]]]]]]].
  destruct (isPad_spec _ Q) as [Qb _]. destruct (isToken_spec _ T3) as [A3 N3].
  unfold rowText.
  replace (pre r ++ tok1 r ++ gap1 r ++ tok2 r ++ gap2 r ++ tok3 r ++ post r)
    with ((pre r ++ tok1 r ++ gap1 r ++ tok2 r ++ gap2 r ++ tok3 r) ++ post r)
    by now rewrite <- !app_assoc.
  rewrite (trimEnd_app_blank _ _ Qb).
  replace (pre r ++ tok1 r ++ gap1 r ++ tok2 r ++ gap2 r ++ tok3 r)
    with ((pre r ++ tok1 r ++ gap1 r ++ tok2 r ++ gap2 r) ++ tok3 r)
    by now rewrite <- !app_assoc.
  now rewrite (trimEnd_ink _ A3 N3).
Qed.

Lemma trimStart_idem (s : jsstring) : trimStart (trimStart s) = trimStart s.
Proof.
  unfold trimStart. induction s as [|c s IH]; simpl; [reflexivity|].
  destruct (isWhiteSpace c) eqn:E; [assumption|]. simpl. now rewrite E.
Qed.

(** The last line of a text may lose the white space at its end. *)
Lemma lineValues_trimEnd_rowText (r : Row) :
  wfRow r = true ->
  split_char LF (trimEnd (rowText r)) = [trimEnd (rowText r)] /\
  lineValues (trimEnd (rowText r)) = rowValues r.
Proof.
  intros H. split.
  - apply split_char_none. rewrite (trimEnd_rowText _ H).
    pose proof (noLineFeed_rowText _ H) as Hn. unfold rowText in Hn.
    rewrite !noLineFeed_app in Hn. rewrite !noLineFeed_app.
    repeat (apply andb_prop in Hn; destruct Hn as [? Hn]).
    repeat (apply andb_true_intro; split); assumption.
  - destruct (lineValues_rowText _ H) as [Hv _]. rewrite <- Hv.
    unfold lineValues. f_equal. f_equal. unfold trim.
    destruct (wfRow_spec _ H) as [P [T1 [G1 [T2 [G2 [T3 [Q _]]]]]]].
    destruct (isPad_spec _ P) as [Pb _]. destruct (isToken_spec _ T1) as [A1 N1].
    rewrite (trimEnd_rowText _ H).
    unfold rowText. rewrite !(trimStart_blank_app _ _ Pb), !(trimStart_ink _ A1 N1).
    fold (rowText (dropPre r)).
    change (tok1 r ++ gap1 r ++ tok2 r ++ gap2 r ++ tok3 r)
      with (pre (dropPre r) ++ tok1 (dropPre r) ++ gap1 (dropPre r) ++
            tok2 (dropPre r) ++ gap2 (dropPre r) ++ tok3 (dropPre r)).
    rewrite <- (trimEnd_rowText _ (wfRow_dropPre _ H)).
    unfold trimEnd at 1. 
    assert (Hi : forall s, trimEnd (trimEnd s) = trimEnd s).
    { intros s. unfold trimEnd. rewrite rev_involutive.
      fold (trimStart (rev s)). fold (trimStart (trimStart (rev s))).
      now rewrite trimStart_idem. }
    fold (trimEnd (trimEnd (rowText (dropPre r)))). apply Hi.
Qed.

Lemma lines_trimEnd (rows : list Row) :
  rows <> [] -> forallb wfRow rows = true ->
  map lineValues (split_char LF (trimEnd (joinLines (map rowText rows))))
  = map rowValues rows.
Proof.
  induction rows as [|r rs IH]; [congruence|]. intros _ H.
  simpl in H. apply andb_prop in H. destruct H as [Hr Hrs].
  destruct rs as [|r' rs'].
  - simpl. destruct (lineValues_trimEnd_rowText _ Hr) as [-> Hv]. simpl. now rewrite Hv.
  - change (joinLines (map rowText (r :: r' :: rs')))
      with (rowText r ++ LF :: joinLines (map rowText (r' :: rs'))).
    assert (Hi : hasInk (joinLines (map rowText (r' :: rs'))) = true)
      by (apply hasInk_joinLines; [discriminate | assumption]).
    specialize (IH ltac:(discriminate) Hrs).
    set (X := joinLines (map rowText (r' :: rs'))) in *.
    replace (rowText r ++ LF :: X) with ((rowText r ++ [LF]) ++ X)
      by now rewrite <- app_assoc.
    rewrite (trimEnd_app_ink _ _ Hi).
    replace ((rowText r ++ [LF]) ++ trimEnd X) with (rowText r ++ LF :: trimEnd X)
      by now rewrite <- app_assoc.
    rewrite split_char_app, (split_char_none _ (noLineFeed_rowText _ Hr)).
    rewrite map_app, IH.
    simpl. now destruct (lineValues_rowText _ Hr) as [-> _].
Qed.

Lemma trimStart_joinLines (r : Row) (rs : list Row) :
  wfRow r = true ->
  trimStart (joinLines (map rowText (r :: rs))) =
  joinLines (map rowText (dropPre r :: rs)).
Proof.
  intros H. destruct (wfRow_spec _ H) as [P [T1 _]].
  destruct (isPad_spec _ P) as [Pb _]. destruct (isToken_spec _ T1) as [A1 N1].
  simpl map. rewrite !joinLines_cons.
  generalize (match map rowText rs with
              | [] => []
              | _ :: _ => LF :: joinLines (map rowText rs)
              end).
  intros rest. unfold rowText, dropPre. simpl. rewrite <- !app_assoc.
  now rewrite (trimStart_blank_app _ _ Pb), (trimStart_ink _ A1 N1).
Qed.

Lemma survivors_of_rows (rows : list Row) :
  forallb wfRow rows = true ->
  concat (filter keepValues (map rowValues rows)) = flat_map rowValues rows.
Proof.
  induction rows as [|r rs IH]; [reflexivity|]. intros H.
  simpl in H. apply andb_prop in H. destruct H as [Hr Hrs].
  simpl map. simpl filter. destruct (lineValues_rowText _ Hr) as [_ ->].
  simpl. now rewrite IH.
Qed.

Lemma linesOf_well_formed (rows : list Row) (lead trail : jsstring) :
  rows <> [] -> forallb wfRow rows = true ->
  isBlank lead = true -> isBlank trail = true ->
  map lineValues (linesOf (lead ++ joinLines (map rowText rows) ++ trail))
  = map rowValues rows.
Proof.
  intros Hne Hwf Hl Ht. unfold linesOf. rewrite trim_stripBOM. unfold trim.
  rewrite (trimStart_blank_app _ _ Hl).
  rewrite trimStart_ink_app by now apply hasInk_joinLines.
  rewrite (trimEnd_app_blank _ _ Ht).
  destruct rows as [|r rs]; [congruence|].
  simpl in Hwf. apply andb_prop in Hwf. destruct Hwf as [Hr Hrs].
  rewrite (@trimStart_joinLines r rs Hr), lines_trimEnd.
  - reflexivity.
  - discriminate.
  - simpl. now rewrite (wfRow_dropPre _ Hr).
Qed.

Lemma flat_map_rowValues_length (rows : list Row) :
  length (flat_map rowValues rows) = 3 * length rows.
Proof. induction rows as [|r rs IH]; simpl; [reflexivity | rewrite IH; lia]. Qed.

Lemma flat_map_rowValues_nth (rows : list Row) (i : nat) (r : Row) :
  nth_error rows i = Some r ->
  nth_error (flat_map rowValues rows) (3 * i) = Some (Number (tok1 r)) /\
  nth_error (flat_map rowValues rows) (3 * i + 1) = Some (Number (tok2 r)) /\
  nth_error (flat_map rowValues rows) (3 * i + 2) = Some (Number (tok3 r)).
Proof.
  revert i. induction rows as [|r0 rs IH]; intros [|i] H; simpl in H; try discriminate.
  - injection H as ->. repeat split; reflexivity.
  - destruct (IH _ H) as [H1 [H2 H3]].
    replace (3 * S i) with (S (S (S (3 * i)))) by lia.
    simpl. repeat split; assumption.
Qed.

(** C2. A text of [N >= 1] lines, each with three tokens that parse as
    finite numbers (with white space around and between them, and white space
    or a byte-order mark before the first line and after the last), is read
    as the [3 * N] numbers of its lines, line by line: the numbers of line
    [i] are at [3 * i], [3 * i + 1] and [3 * i + 2]. *)
Theorem parseDataFile_well_formed (createDefaultCubeData : list number)
  (rows : list Row) (lead trail : jsstring) :
  rows <> [] -> forallb wfRow rows = true ->
  isBlank lead = true -> isBlank trail = true ->
  let result :=
    parseDataFile createDefaultCubeData
      (lead ++ joinLines (map rowText rows) ++ trail) in
  result = flat_map rowValues rows /\
  length result = 3 * length rows /\
  (forall i r, nth_error rows i = Some r ->
     nth_error result (3 * i) = Some (Number (tok1 r)) /\
     nth_error result (3 * i + 1) = Some (Number (tok2 r)) /\
     nth_error result (3 * i + 2) = Some (Number (tok3 r))).
Proof.
  intros Hne Hwf Hl Ht result.
  assert (E : result = flat_map rowValues rows).
  { subst result. rewrite parseDataFile_unfold.
    rewrite isBlank_ink
      by (rewrite !hasInk_app, (@hasInk_joinLines rows Hne Hwf); now rewrite orb_true_r).
    unfold surviving. rewrite (@linesOf_well_formed rows lead trail Hne Hwf Hl Ht).
    rewrite (survivors_of_rows _ Hwf).
    destruct rows as [|r rs]; [congruence | reflexivity]. }
  rewrite E. split; [reflexivity|]. split.
  - apply flat_map_rowValues_length.
  - apply flat_map_rowValues_nth.
Qed.

Lemma parseDataFile_well_formed_witness :
  parseDataFile []
    (BOM :: str "1 0 0.3" ++ LF :: str " 0  1 1 " ++ LF :: str "0.3 0.3 1" ++ [LF])
  = [one; pos_zero; three_tenths; pos_zero; one; one; three_tenths; three_tenths; one].
Proof.
  apply (proj1 (@parseDataFile_well_formed []
    [ {| pre := []; tok1 := str "1"; gap1 := str " "; tok2 := str "0";
         gap2 := str " "; tok3 := str "0.3"; post := [] |};
      {| pre := str " "; tok1 := str "0"; gap1 := str "  "; tok2 := str "1";
         gap2 := str " "; tok3 := str "1"; post := str " " |};
      {| pre := []; tok1 := str "0.3"; gap1 := str " "; tok2 := str "0.3";
         gap2 := str " "; tok3 := str "1"; post := [] |} ]
    [BOM] [LF]
    ltac:(discriminate) ltac:(vm_compute; reflexivity) eq_refl eq_refl)).
Defined.

(** ** The attribute packer *)

Example float32_examples :
  encodeFloat32 one = [Byte.x00; Byte.x00; Byte.x80; Byte.x3f] /\
  decodeFloat32 (encodeFloat32 one) = one /\
  decodeFloat32 (encodeFloat32 pos_zero) = pos_zero /\
  decodeFloat32 (encodeFloat32 neg_zero) = neg_zero /\
  decodeFloat32 (encodeFloat32 NaN) = NaN /\
  decodeFloat32 (encodeFloat32 (Number (str "-2.5"))) = Number (str "-2.5") /\
  decodeFloat32 (encodeFloat32 (Number (str "1e-40"))) <> Number (str "1e-40") /\
  decodeFloat32 (encodeFloat32 three_tenths) <> three_tenths.
Proof. repeat split; try (vm_compute; reflexivity); vm_compute; discriminate. Qed.

Lemma getStride_app (a b : Attributes) : getStride (a ++ b) = getStride a + getStride b.
Proof. unfold getStride. rewrite map_app, list_sum_app. lia. Qed.

Lemma chainedFrom_snoc (attrs : Attributes) (o : nat) (a : Attribute) :
  chainedFrom o attrs -> attr_offset a = o + getStride attrs ->
  chainedFrom o (attrs ++ [a]).
Proof.
  revert o. induction attrs as [|b r IH]; intros o H Ha; simpl in *.
  - split; [unfold getStride in Ha; simpl in Ha; lia | exact I].
  - destruct H as [Hb Hr]. split; [assumption|]. apply IH; [assumption|].
    rewrite Ha. change (b :: r) with ([b] ++ r). rewrite getStride_app.
    unfold getStride at 1. simpl. lia.
Qed.

Lemma buildAttributes_chained (l : list (jsstring * list number * nat)) :
  chainedFrom 0 (buildAttributes l).
Proof.
  unfold buildAttributes.
  assert (H : forall acc, chainedFrom 0 acc ->
                chainedFrom 0 (fold_left
                  (fun attrs '(name, data, size) => addAttribute attrs name data size)
                  l acc)).
  { induction l as [|[[name data] size] r IH]; intros acc Hacc; simpl; [assumption|].
    apply IH. unfold addAttribute. apply chainedFrom_snoc; [assumption | reflexivity]. }
  apply H. exact I.
Qed.

Lemma chainedFrom_offset (attrs : Attributes) (o i : nat) (a : Attribute) :
  chainedFrom o attrs -> nth_error attrs i = Some a ->
  attr_offset a = o + getStride (firstn i attrs).
Proof.
  revert o i. induction attrs as [|b r IH]; intros o [|i] H Hn; simpl in *;
    try discriminate.
  - injection Hn as <-. destruct H as [-> _]. unfold getStride. simpl. lia.
  - destruct H as [_ Hr]. rewrite (IH _ _ Hr Hn).
    change (b :: firstn i r) with ([b] ++ firstn i r). rewrite getStride_app.
    unfold getStride at 2. simpl. lia.
Qed.

Lemma chainedFrom_inside (attrs : Attributes) (o : nat) (a : Attribute) :
  chainedFrom o attrs -> In a attrs ->
  o <= attr_offset a /\ attr_offset a + attr_size a * scalarSize <= o + getStride attrs.
Proof.
  revert o. induction attrs as [|b r IH]; intros o H Hin; simpl in *; [tauto|].
  destruct H as [Hb Hr].
  change (b :: r) with ([b] ++ r). rewrite getStride_app. unfold getStride at 1. simpl.
  destruct Hin as [->|Hin].
  - lia.
  - destruct (IH _ Hr Hin). lia.
Qed.

(** Every byte of a vertex's region lies in the range of exactly one
    attribute. *)
Lemma chainedFrom_tiling (attrs : Attributes) (o b : nat) :
  chainedFrom o attrs -> (forall a, In a attrs -> 0 < attr_size a) ->
  o <= b < o + getStride attrs ->
  exists! i, exists a, nth_error attrs i = Some a /\ inRange a b.
Proof.
  revert o. induction attrs as [|c r IH]; intros o H Hpos Hb.
  - unfold getStride in Hb. simpl in Hb. lia.
  - simpl in H. destruct H as [Hc Hr].
    change (c :: r) with ([c] ++ r) in Hb. rewrite getStride_app in Hb.
    unfold getStride at 1 in Hb. simpl in Hb.
    destruct (Nat.lt_ge_cases b (o + attr_size c * scalarSize)) as [Hlt|Hge].
    + exists 0. split.
      * exists c. split; [reflexivity|]. unfold inRange. lia.
      * intros [|k] [a [Hn Hr']]; [reflexivity|]. simpl in Hn.
        apply nth_error_In in Hn.
        destruct (@chainedFrom_inside _ _ _ Hr Hn) as [Hlo _].
        unfold inRange in Hr'. lia.
    + destruct (IH (o + attr_size c * scalarSize) Hr) as [k [[a [Hn Hin]] Huniq]].
      * intros a Ha. apply Hpos. now right.
      * lia.
      * exists (S k). split.
        -- exists a. split; assumption.
        -- intros [|k'] [a' [Hn' Hr']].
           ++ simpl in Hn'. injection Hn' as <-. unfold inRange in Hr'. lia.
           ++ f_equal. apply Huniq. exists a'. split; assumption.
Qed.

(** *** Writes *)

Lemma writeBytes_length (pos : nat) (bs buf : list Byte.byte) :
  length (writeBytes pos bs buf) = length buf.
Proof.
  unfold writeBytes. destruct (pos + length bs <=? length buf) eqn:E; [|reflexivity].
  apply Nat.leb_le in E.
  rewrite !length_app, length_firstn, length_skipn. lia.
Qed.

Lemma applyWrites_length (ws : list (nat * list Byte.byte)) (buf : list Byte.byte) :
  length (fold_left (fun b w => writeBytes (fst w) (snd w) b) ws buf) = length buf.
Proof.
  revert buf. induction ws as [|w r IH]; intros buf; simpl; [reflexivity|].
  now rewrite IH, writeBytes_length.
Qed.

Lemma written_app (a b : list (nat * list Byte.byte)) :
  written (a ++ b) = written a ++ written b.
Proof. unfold written. now rewrite map_app, concat_app. Qed.

Lemma consecutive_app (p : nat) (a b : list (nat * list Byte.byte)) :
  consecutive p (a ++ b) <->
  consecutive p a /\ consecutive (p + length (written a)) b.
Proof.
  revert p. induction a as [|w r IH]; intros p; simpl.
  - rewrite Nat.add_0_r. tauto.
  - rewrite IH. unfold written. simpl. rewrite length_app.
    fold (written r). rewrite Nat.add_assoc. tauto.
Qed.

(** Consecutive writes that fit replace a stretch of the buffer by the bytes
    written. *)
Lemma applyWrites_consecutive (ws : list (nat * list Byte.byte)) (p : nat)
  (buf : list Byte.byte) :
  consecutive p ws -> p + length (written ws) <= length buf ->
  fold_left (fun b w => writeBytes (fst w) (snd w) b) ws buf =
  firstn p buf ++ written ws ++ skipn (p + length (written ws)) buf.
Proof.
  revert p buf. induction ws as [|[q bs] r IH]; intros p buf Hc Hfit.
  - simpl. rewrite Nat.add_0_r. now rewrite firstn_skipn.
  - simpl in Hc. destruct Hc as [-> Hc]. unfold written in *. simpl in *.
    rewrite length_app in Hfit. fold (written r) in *.
    unfold writeBytes at 2.
    assert (E : (p + length bs <=? length buf) = true) by (apply Nat.leb_le; lia).
    rewrite E. rewrite (IH (p + length bs)); [|assumption|].
    + assert (Hf : firstn (p + length bs) (firstn p buf ++ bs ++ skipn (p + length bs) buf)
                   = firstn p buf ++ bs).
      { rewrite app_assoc. rewrite firstn_app.
        rewrite length_app, length_firstn.
        replace (p + length bs - (Nat.min p (length buf) + length bs)) with 0 by lia.
        simpl. rewrite app_nil_r. apply firstn_all2.
        rewrite length_app, length_firstn. lia. }
      assert (Hs : skipn (p + length bs + length (written r))
                     (firstn p buf ++ bs ++ skipn (p + length bs) buf)
                   = skipn (p + (length bs + length (written r))) buf).
      { rewrite app_assoc, skipn_app.
        rewrite length_app, length_firstn.
        rewrite (skipn_all2 (firstn p buf ++ bs))
          by (rewrite length_app, length_firstn; lia).
        simpl. rewrite skipn_skipn. f_equal. lia. }
      rewrite Hf, Hs, length_app, <- !app_assoc. reflexivity.
    + rewrite !length_app, length_firstn, length_skipn. lia.
Qed.

Lemma slice_written (ws1 ws2 : list (nat * list Byte.byte)) (bs : list Byte.byte) :
  firstn (length bs) (skipn (length (written ws1)) (written ws1 ++ bs ++ written ws2)) = bs.
Proof.
  rewrite skipn_app, Nat.sub_diag, skipn_all. simpl.
  rewrite firstn_app, Nat.sub_diag, firstn_all. simpl. now rewrite app_nil_r.
Qed.

(** What was written consecutively from 0 on is read back where it was
    written. *)
Lemma read_consecutive (ws : list (nat * list Byte.byte)) (q : nat) (bs : list Byte.byte) :
  consecutive 0 ws -> In (q, bs) ws ->
  firstn (length bs) (skipn q (written ws)) = bs.
Proof.
  intros Hc Hin. apply in_split in Hin. destruct Hin as [ws1 [ws2 ->]].
  apply consecutive_app in Hc. destruct Hc as [_ Hc]. simpl in Hc.
  destruct Hc as [Hq _]. subst q.
  rewrite written_app. change ((length (written ws1), bs) :: ws2)
    with ([(length (written ws1), bs)] ++ ws2).
  rewrite written_app. unfold written at 3. simpl. rewrite app_nil_r.
  apply slice_written.
Qed.

Section PackerLayout.

Variable encodeScalar : number -> list Byte.byte.
Hypothesis encode_length : forall x, length (encodeScalar x) = scalarSize.

Lemma attrWrites_consecutive (base : nat) (f : nat -> number) (n s : nat) :
  consecutive (base + s * scalarSize) (attrWrites encodeScalar base f n s) /\
  length (written (attrWrites encodeScalar base f n s)) = n * scalarSize.
Proof.
  unfold attrWrites. revert s. induction n as [|n IH]; intros s; simpl.
  - split; [exact I | reflexivity].
  - destruct (IH (S s)) as [Hc Hl]. split.
    + split; [reflexivity|]. rewrite encode_length.
      replace (base + s * scalarSize + scalarSize) with (base + S s * scalarSize)
        by (unfold scalarSize; lia).
      exact Hc.
    + unfold written in *. simpl. rewrite length_app, encode_length, Hl.
      unfold scalarSize. lia.
Qed.

Lemma vertexWrites_consecutive (attrs : Attributes) (stride v o : nat) :
  chainedFrom o attrs ->
  consecutive (v * stride + o) (vertexWrites encodeScalar attrs stride v) /\
  length (written (vertexWrites encodeScalar attrs stride v)) = getStride attrs.
Proof.
  unfold vertexWrites. revert o. induction attrs as [|a r IH]; intros o H; simpl.
  - split; [exact I | reflexivity].
  - simpl in H. destruct H as [Ha Hr].
    destruct (IH _ Hr) as [Hc Hl].
    pose proof (attrWrites_consecutive (v * stride + attr_offset a)
                  (fun j => nth (v * attr_size a + j) (attr_data a) NaN)
                  (attr_size a) 0) as [Hc0 Hl0].
    unfold attrWrites in Hc0, Hl0. simpl in Hc0. rewrite Nat.add_0_r in Hc0.
    split.
    + apply consecutive_app. rewrite Ha in *. split; [exact Hc0|].
      rewrite Hl0. rewrite <- Nat.add_assoc. exact Hc.
    + rewrite written_app, length_app, Hl0, Hl.
      change (a :: r) with ([a] ++ r). rewrite getStride_app.
      unfold getStride at 2. simpl. lia.
Qed.

Lemma allWrites_consecutive (attrs : Attributes) (n v0 : nat) :
  chainedFrom 0 attrs ->
  let ws := flat_map (vertexWrites encodeScalar attrs (getStride attrs)) (seq v0 n) in
  consecutive (v0 * getStride attrs) ws /\
  length (written ws) = n * getStride attrs.
Proof.
  intros H. revert v0. induction n as [|n IH]; intros v0; simpl.
  - split; [exact I | reflexivity].
  - destruct (IH (S v0)) as [Hc Hl].
    destruct (@vertexWrites_consecutive attrs (getStride attrs) v0 0 H) as [Hc0 Hl0].
    rewrite Nat.add_0_r in Hc0. split.
    + apply consecutive_app. split; [exact Hc0|].
      rewrite Hl0. replace (v0 * getStride attrs + getStride attrs)
        with (S v0 * getStride attrs) by (simpl; lia).
      exact Hc.
    + rewrite written_app, length_app, Hl0, Hl. lia.
Qed.

(** The buffer is made of the bytes written, vertex by vertex. *)
Lemma packVertices_written (attrs : Attributes) (count : nat) :
  chainedFrom 0 attrs ->
  packVertices encodeScalar attrs count =
  written (flat_map (vertexWrites encodeScalar attrs (getStride attrs))
                    (seq 0 count)).
Proof.
  intros H. unfold packVertices.
  destruct (@allWrites_consecutive attrs count 0 H) as [Hc Hl].
  simpl in Hc.
  rewrite (@applyWrites_consecutive _ _ _ Hc)
    by (rewrite Hl, repeat_length; lia).
  simpl. rewrite Hl. rewrite skipn_all2 by (rewrite repeat_length; lia).
  now rewrite app_nil_r.
Qed.

Lemma packVertices_length (attrs : Attributes) (count : nat) :
  length (packVertices encodeScalar attrs count) = count * getStride attrs.
Proof. unfold packVertices. now rewrite applyWrites_length, repeat_length. Qed.

Lemma packVertices_read (attrs : Attributes) (count : nat) (a : Attribute) (v j : nat) :
  chainedFrom 0 attrs -> In a attrs -> v < count -> j < attr_size a ->
  firstn scalarSize
    (skipn (v * getStride attrs + attr_offset a + j * scalarSize)
           (packVertices encodeScalar attrs count))
  = encodeScalar (nth (v * attr_size a + j) (attr_data a) NaN).
Proof.
  intros H Ha Hv Hj. rewrite (@packVertices_written attrs count H).
  rewrite <- (encode_length (nth (v * attr_size a + j) (attr_data a) NaN)) at 1.
  apply read_consecutive.
  - destruct (@allWrites_consecutive attrs count 0 H) as [Hc _]. exact Hc.
  - apply in_flat_map. exists v. split; [apply in_seq; lia|].
    unfold vertexWrites. apply in_flat_map. exists a. split; [assumption|].
    apply in_map_iff. exists j. split; [reflexivity | apply in_seq; lia].
Qed.

End PackerLayout.

Lemma firstn_skipn_nth {A : Type} (l : list A) (k n : nat) (d : A) :
  k + n <= length l ->
  firstn n (skipn k l) = map (fun j => nth (k + j) l d) (seq 0 n).
Proof.
  revert k l. induction n as [|n IH]; intros k l H; [reflexivity|].
  destruct (skipn k l) as [|x r] eqn:E.
  - apply (f_equal (@length A)) in E. rewrite length_skipn in E. simpl in E. lia.
  - simpl. f_equal.
    + rewrite Nat.add_0_r.
      pose proof (nth_skipn k l 0 d) as Hn. rewrite E in Hn. simpl in Hn.
      rewrite Nat.add_0_r in Hn. congruence.
    + assert (Er : r = skipn (S k) l).
      { replace (S k) with (1 + k) by lia. rewrite <- skipn_skipn, E. reflexivity. }
      rewrite Er, (IH (S k) l) by lia.
      rewrite <- seq_shift, map_map. apply map_ext. intros j. f_equal. lia.
Qed.

Lemma hasCount_spec (V : nat) (a : Attribute) :
  hasCount V a = true <->
  0 < attr_size a /\ length (attr_data a) = V * attr_size a.
Proof.
  unfold hasCount. rewrite andb_true_iff, Nat.ltb_lt, Nat.eqb_eq. tauto.
Qed.

(** A set has the vertex count [V] exactly when it is not empty, [V] is
    positive and every attribute has a positive width and [V] vertices. *)
Lemma vertexCount_agree (attrs : Attributes) (V : nat) :
  attrs <> [] -> 0 < V ->
  (forall a, In a attrs -> 0 < attr_size a /\ length (attr_data a) = V * attr_size a) ->
  vertexCount attrs = Some V.
Proof.
  destruct attrs as [|a r]; [congruence|]. intros _ HV H.
  destruct (H a (or_introl eq_refl)) as [Hs Hl].
  unfold vertexCount. rewrite Hl, Nat.div_mul by lia.
  assert (E1 : (0 <? V) = true) by now apply Nat.ltb_lt.
  assert (E2 : forallb (hasCount V) (a :: r) = true).
  { apply forallb_forall. intros b Hb. apply hasCount_spec. now apply H. }
  now rewrite E1, E2.
Qed.

Lemma vertexCount_Some (attrs : Attributes) (V : nat) :
  vertexCount attrs = Some V ->
  attrs <> [] /\ 0 < V /\
  (forall a, In a attrs -> 0 < attr_size a /\ length (attr_data a) = V * attr_size a).
Proof.
  destruct attrs as [|a r]; [discriminate|]. unfold vertexCount.
  set (W := length (attr_data a) / attr_size a).
  destruct ((0 <? W) && forallb (hasCount W) (a :: r)) eqn:E; [|discriminate].
  intros [= <-]. apply andb_prop in E. destruct E as [E1 E2].
  apply Nat.ltb_lt in E1. rewrite forallb_forall in E2.
  split; [discriminate|]. split; [assumption|].
  intros b Hb. apply hasCount_spec. now apply E2.
Qed.

(** Two attributes of positive width with different numbers of vertices:
    the set has no vertex count. *)
Lemma vertexCount_disagree (attrs : Attributes) (a b : Attribute) :
  In a attrs -> In b attrs ->
  length (attr_data a) / attr_size a <> length (attr_data b) / attr_size b ->
  vertexCount attrs = None.
Proof.
  intros Ha Hb Hne. destruct (vertexCount attrs) as [V|] eqn:E; [|reflexivity].
  destruct (vertexCount_Some _ E) as [_ [_ H]].
  destruct (H a Ha) as [Sa La]. destruct (H b Hb) as [Sb Lb].
  rewrite La, Lb, !Nat.div_mul in Hne by lia. congruence.
Qed.

Lemma buildAttributes_length (l : list (jsstring * list number * nat)) :
  length (buildAttributes l) = length l.
Proof.
  unfold buildAttributes.
  assert (H : forall acc,
             length (fold_left
                       (fun attrs '(name, data, size) => addAttribute attrs name data size)
                       l acc) = length acc + length l).
  { induction l as [|[[name data] size] r IH]; intros acc; simpl; [lia|].
    rewrite IH. unfold addAttribute. rewrite length_app. simpl. lia. }
  apply H.
Qed.

Section PackerReads.

Variable encodeScalar : number -> list Byte.byte.
Variable decodeScalar : list Byte.byte -> number.
Hypothesis encode_length : forall x, length (encodeScalar x) = scalarSize.

(** What is read at the place of attribute [a] in vertex [v]: the values of
    the vertex, each encoded and decoded. *)
Lemma packVertices_readScalars (attrs : Attributes) (count : nat) (a : Attribute)
  (v : nat) :
  chainedFrom 0 attrs -> In a attrs -> v < count ->
  length (attr_data a) = count * attr_size a ->
  readScalars decodeScalar (packVertices encodeScalar attrs count)
    (v * getStride attrs + attr_offset a) (attr_size a)
  = map (fun x => decodeScalar (encodeScalar x)) (vertexValues a v).
Proof.
  intros Hch Ha Hv Hl. unfold readScalars, vertexValues.
  rewrite (@firstn_skipn_nth _ (attr_data a) (v * attr_size a) (attr_size a) NaN)
    by nia.
  rewrite map_map. apply map_ext_in. intros j Hj. apply in_seq in Hj.
  now rewrite (@packVertices_read encodeScalar encode_length attrs count a v j Hch Ha)
    by lia.
Qed.

End PackerReads.

(** C3 (amended). For an attribute set built by adding attributes one by
    one, not empty, all with the vertex count [V > 0] and a positive width,
    and scalars of four bytes: the packer returns a buffer of [V * stride]
    bytes, the stride being the sum of the widths times 4; the offset of an
    attribute is the sum of the widths before it times 4 (0 for the first);
    the byte ranges of the attributes lie inside a vertex's region and every
    byte of the region is in exactly one of them; and reading [width] scalars
    at [v * stride + offset] gives, for each attribute and each vertex, the
    values of that vertex as the scalar encoding gives them back, hence the
    values themselves whenever the encoding gives back the values of that
    read (not for every Number: four bytes cannot hold them all). In the
    scenario the stride is 28, the offsets are 0, 12 and 24, and the buffer
    has 56 bytes. *)
Theorem attribute_packer
  (encodeScalar : number -> list Byte.byte) (decodeScalar : list Byte.byte -> number)
  (specs : list (jsstring * list number * nat)) (V : nat) :
  let attrs := buildAttributes specs in
  (forall x, length (encodeScalar x) = scalarSize) ->
  specs <> [] -> 0 < V ->
  (forall a, In a attrs -> 0 < attr_size a /\ length (attr_data a) = V * attr_size a) ->
  let stride := getStride attrs in
  exists buf,
    getBuffer encodeScalar attrs = Some buf /\
    length buf = V * stride /\
    stride = list_sum (map attr_size attrs) * 4 /\
    (forall i a, nth_error attrs i = Some a ->
       attr_offset a = list_sum (map attr_size (firstn i attrs)) * 4) /\
    (forall a, In a attrs -> attr_offset a + attr_size a * 4 <= stride) /\
    (forall b, b < stride ->
       exists! i, exists a, nth_error attrs i = Some a /\ inRange a b) /\
    (forall a v, In a attrs -> v < V ->
       readScalars decodeScalar buf (v * stride + attr_offset a) (attr_size a)
       = map (fun x => decodeScalar (encodeScalar x)) (vertexValues a v)) /\
    (forall a v, In a attrs -> v < V ->
       (forall x, In x (vertexValues a v) -> decodeScalar (encodeScalar x) = x) ->
       readScalars decodeScalar buf (v * stride + attr_offset a) (attr_size a)
       = vertexValues a v) /\
    getStride scenarioAttributes = 28 /\
    map attr_offset scenarioAttributes = [0; 12; 24] /\
    option_map (@length Byte.byte) (getBuffer encodeScalar scenarioAttributes) = Some 56.
Proof.
  intros attrs Hlen Hne HV Hcount stride.
  pose proof (buildAttributes_chained specs) as Hch. fold attrs in Hch.
  assert (Hpos : forall a, In a attrs -> 0 < attr_size a)
    by (intros a Ha; now destruct (Hcount a Ha)).
  assert (Hane : attrs <> []).
  { intros E. apply (f_equal (@length Attribute)) in E. unfold attrs in E.
    rewrite buildAttributes_length in E. destruct specs; [congruence | discriminate]. }
  assert (Hvc : vertexCount attrs = Some V) by now apply vertexCount_agree.
  assert (Hread : forall a v, In a attrs -> v < V ->
            readScalars decodeScalar (packVertices encodeScalar attrs V)
              (v * stride + attr_offset a) (attr_size a)
            = map (fun x => decodeScalar (encodeScalar x)) (vertexValues a v)).
  { intros a v Ha Hv. destruct (Hcount a Ha) as [_ Hl].
    exact (@packVertices_readScalars encodeScalar decodeScalar Hlen attrs V a v
             Hch Ha Hv Hl). }
  exists (packVertices encodeScalar attrs V).
  split; [unfold getBuffer; now rewrite Hvc|].
  split; [apply packVertices_length|]. split; [reflexivity|].
  split; [|split; [|split; [|split; [|split]]]].
  - intros i a Hn. rewrite (@chainedFrom_offset attrs 0 i a Hch Hn). reflexivity.
  - intros a Ha. destruct (@chainedFrom_inside attrs 0 a Hch Ha) as [_ H].
    exact H.
  - intros b Hb. apply (@chainedFrom_tiling attrs 0 b Hch Hpos). subst stride. lia.
  - exact Hread.
  - intros a v Ha Hv Hdec. rewrite (Hread a v Ha Hv).
    rewrite <- (map_id (vertexValues a v)) at 2. apply map_ext_in. exact Hdec.
  - split; [reflexivity|]. split; [reflexivity|].
    unfold getBuffer. cbn [vertexCount scenarioAttributes].
    change (vertexCount scenarioAttributes) with (Some 2).
    cbn [option_map]. now rewrite packVertices_length.
Qed.

Lemma attribute_packer_witness :
  exists buf,
    getBuffer encodeFloat32 scenarioAttributes = Some buf /\
    length buf = 2 * getStride scenarioAttributes /\
    readScalars decodeFloat32 buf (1 * getStride scenarioAttributes + 0) 3
      = [one; pos_zero; pos_zero] /\
    readScalars decodeFloat32 buf (1 * getStride scenarioAttributes + 12) 3
      = [pos_zero; one; pos_zero].
Proof.
  assert (Hcount : forall a, In a scenarioAttributes ->
                     0 < attr_size a /\ length (attr_data a) = 2 * attr_size a).
  { intros a Ha. simpl in Ha.
    repeat (destruct Ha as [<-|Ha]; [simpl; lia|]). contradiction. }
  destruct (@attribute_packer encodeFloat32 decodeFloat32
    [ (str "a_Position", [pos_zero; pos_zero; pos_zero; one; pos_zero; pos_zero], 3);
      (str "a_Normal", [pos_zero; one; pos_zero; pos_zero; one; pos_zero], 3);
      (str "a_ColorIndex", [pos_zero; pos_zero], 1) ] 2
    (fun x => eq_refl) ltac:(discriminate) ltac:(lia) Hcount)
    as [buf [H0 [H1 [_ [_ [_ [_ [_ [H7 _]]]]]]]]].
  exists buf. split; [exact H0|]. split; [exact H1|]. split.
  - apply (H7 (Build_Attribute (str "a_Position")
                 [pos_zero; pos_zero; pos_zero; one; pos_zero; pos_zero] 3 0) 1);
      [simpl; auto | lia |].
    intros x Hx. simpl in Hx.
    repeat (destruct Hx as [<-|Hx]; [vm_compute; reflexivity|]). contradiction.
  - apply (H7 (Build_Attribute (str "a_Normal")
                 [pos_zero; one; pos_zero; pos_zero; one; pos_zero] 3 12) 1);
      [simpl; auto | lia |].
    intros x Hx. simpl in Hx.
    repeat (destruct Hx as [<-|Hx]; [vm_compute; reflexivity|]). contradiction.
Defined.

(** *** Four bytes do not hold every Number *)

Lemma allBytes_complete (b : Byte.byte) : In b allBytes.
Proof. destruct b; vm_compute; tauto. Qed.

Lemma allByteStrings_complete (n : nat) (l : list Byte.byte) :
  length l = n -> In l (allByteStrings n).
Proof.
  revert l. induction n as [|n IH]; intros [|b l] H; simpl in H; try discriminate.
  - now left.
  - cbn [allByteStrings]. apply in_flat_map. exists b. split; [apply allBytes_complete|].
    apply in_map. apply IH. congruence.
Qed.

Lemma no_four_byte_encoding :
  ~ exists (encodeScalar : number -> list Byte.byte)
           (decodeScalar : list Byte.byte -> number),
      (forall x, length (encodeScalar x) = scalarSize) /\
      (forall x, decodeScalar (encodeScalar x) = x).
Proof.
  intros [enc [dec [Hlen Hdec]]].
  remember (length (allByteStrings scalarSize)) as N eqn:EN.
  set (f := fun n : nat => enc (S754_finite false (Pos.of_succ_nat n) 0)).
  assert (Hnd : NoDup (map f (seq 0 (S N)))).
  { apply NoDup_map_NoDup_ForallPairs; [|apply seq_NoDup].
    intros x y _ _ E. unfold f in E.
    apply (f_equal dec) in E. rewrite !Hdec in E.
    injection E as E. apply SuccNat2Pos.inj in E. exact E. }
  assert (Hin : incl (map f (seq 0 (S N))) (allByteStrings scalarSize)).
  { intros l Hl. apply in_map_iff in Hl. destruct Hl as [n [<- _]].
    apply allByteStrings_complete. apply Hlen. }
  pose proof (NoDup_incl_length Hnd Hin) as Hle.
  rewrite length_map, length_seq, <- EN in Hle. lia.
Qed.

(** C3 as stated fails. Whatever the encoding of a scalar in four bytes,
    some attribute set is not read back; with the scalars that [gl.FLOAT]
    denotes, the Number 0.3 is not a binary32 value and is read back as
    another Number. *)
Lemma packer_round_trip_fails :
  (~ exists (encodeScalar : number -> list Byte.byte)
            (decodeScalar : list Byte.byte -> number),
       (forall x, length (encodeScalar x) = scalarSize) /\
       (forall (specs : list (jsstring * list number * nat)) (V : nat) (buf : list Byte.byte),
          0 < V ->
          (forall a, In a (buildAttributes specs) ->
                     0 < attr_size a /\ length (attr_data a) = V * attr_size a) ->
          getBuffer encodeScalar (buildAttributes specs) = Some buf ->
          forall a v, In a (buildAttributes specs) -> v < V ->
            readScalars decodeScalar buf
              (v * getStride (buildAttributes specs) + attr_offset a) (attr_size a)
            = vertexValues a v)) /\
  (let attrs := buildAttributes [(str "a_Position", [three_tenths; one; pos_zero], 3)] in
   option_map (fun buf => readScalars decodeFloat32 buf 0 3) (getBuffer encodeFloat32 attrs)
   = Some [S754_finite false 5404319767592960 (-54); one; pos_zero] /\
   vertexValues (Build_Attribute (str "a_Position") [three_tenths; one; pos_zero] 3 0) 0
   = [three_tenths; one; pos_zero]).
Proof.
  split.
  - intros [enc [dec [Hlen H]]]. apply no_four_byte_encoding.
    exists enc, dec. split; [assumption|]. intros x.
    specialize (H [([], [x], 1)] 1
                  (packVertices enc (buildAttributes [([], [x], 1)]) 1) ltac:(lia)).
    assert (Hc : forall a, In a (buildAttributes [([], [x], 1)]) ->
                   0 < attr_size a /\ length (attr_data a) = 1 * attr_size a).
    { intros a [<-|[]]. simpl. lia. }
    specialize (H Hc eq_refl _ 0 (or_introl eq_refl) ltac:(lia)).
    unfold readScalars in H. cbn [attr_size map seq] in H.
    pose proof (buildAttributes_chained [([], [x], 1)]) as Hch.
    rewrite (@packVertices_read enc Hlen _ 1 _ 0 0 Hch (or_introl eq_refl)) in H
      by (simpl; lia).
    unfold vertexValues in H. simpl in H. congruence.
  - split; vm_compute; reflexivity.
Qed.

(** ** The model of the runtime on examples *)

Example Number_examples :
  map (fun s => Number (str s))
    ["1"; "0"; "-0"; ""; "0.3"; "1e400"; "abc"; "0x10"; "1 2"; "-Infinity"; ".5"]%string
  = [one; pos_zero; neg_zero; pos_zero; three_tenths; S754_infinity false; NaN;
     S754_finite false 4503599627370496 (-48); NaN; S754_infinity true;
     S754_finite false 4503599627370496 (-53)].
Proof. vm_compute. reflexivity. Qed.

Example NumberToString_examples :
  map NumberToString
    [one; pos_zero; neg_zero; three_tenths; three_tenths_up; NaN; S754_infinity true;
     Number (str "1e21"); Number (str "123456789012345678901234567890");
     Number (str "0.000001"); Number (str "1e-7"); Number (str "-12.5");
     Number (str "5e-324"); Number (str "1.7976931348623157e308")]
  = map str
    ["1"; "0"; "0"; "0.3"; "0.30000000000000004"; "NaN"; "-Infinity";
     "1e+21"; "1.2345678901234568e+29"; "0.000001"; "1e-7"; "-12.5";
     "5e-324"; "1.7976931348623157e+308"]%string.
Proof. vm_compute. reflexivity. Qed.

Example readsBack_examples :
  forallb readsBack
    [one; pos_zero; neg_zero; three_tenths; three_tenths_up; NaN;
     S754_infinity false; S754_infinity true;
     Number (str "1e21"); Number (str "123456789012345678901234567890");
     Number (str "0.000001"); Number (str "1e-7"); Number (str "-12.5");
     Number (str "5e-324"); Number (str "1.7976931348623157e308");
     Number (str "2.2250738585072014e-308"); Number (str "0.1");
     Number (str "9007199254740993"); Number (str "0.372549")] = true.
Proof. vm_compute. reflexivity. Qed.

(** * Further properties of the data loader *)

(** ** What trimming a text does to its lines *)

Lemma isBlank_cons (c : char) (s : jsstring) :
  isBlank (c :: s) = isWhiteSpace c && isBlank s.
Proof. reflexivity. Qed.

Lemma trimEnd_cons (c : char) (r : jsstring) :
  trimEnd (c :: r) =
  if hasInk r then c :: trimEnd r else if isInk c then [c] else [].
Proof.
  unfold trimEnd. simpl rev. destruct (hasInk r) eqn:E.
  - rewrite dropWhile_stop.
    + now rewrite rev_app_distr.
    + unfold hasInk, isInk in E. now rewrite existsb_rev.
  - rewrite dropWhile_all.
    + unfold isInk. simpl. now destruct (isWhiteSpace c).
    + rewrite forallb_rev. fold (isBlank r). rewrite hasInk_blank in E.
      now destruct (isBlank r).
Qed.

Lemma trimStart_cons (c : char) (r : jsstring) :
  trimStart (c :: r) = if isWhiteSpace c then trimStart r else c :: r.
Proof. reflexivity. Qed.

Lemma trimStart_trimEnd (s : jsstring) : trimStart (trimEnd s) = trimEnd (trimStart s).
Proof.
  induction s as [|c r IH]; [reflexivity|].
  rewrite trimStart_cons, (trimEnd_cons c r).
  destruct (isWhiteSpace c) eqn:Ec.
  - unfold isInk. rewrite Ec. simpl. destruct (hasInk r) eqn:Er.
    + rewrite trimStart_cons, Ec. exact IH.
    + rewrite (@trimStart_blank r)
        by (rewrite hasInk_blank in Er; now destruct (isBlank r)).
      reflexivity.
  - rewrite (trimEnd_cons c r). unfold isInk. rewrite Ec. simpl.
    destruct (hasInk r); rewrite trimStart_cons, Ec; reflexivity.
Qed.

Lemma trimEnd_idem (s : jsstring) : trimEnd (trimEnd s) = trimEnd s.
Proof.
  unfold trimEnd. rewrite rev_involutive.
  fold (trimStart (rev s)). fold (trimStart (trimStart (rev s))).
  now rewrite trimStart_idem.
Qed.

Lemma trim_trimStart (s : jsstring) : trim (trimStart s) = trim s.
Proof. unfold trim. now rewrite trimStart_idem. Qed.

Lemma trim_trimEnd (s : jsstring) : trim (trimEnd s) = trim s.
Proof. unfold trim. now rewrite trimStart_trimEnd, trimEnd_idem. Qed.

Lemma lineValues_trimStart (l : jsstring) : lineValues (trimStart l) = lineValues l.
Proof. unfold lineValues. now rewrite trim_trimStart. Qed.

Lemma lineValues_trimEnd (l : jsstring) : lineValues (trimEnd l) = lineValues l.
Proof. unfold lineValues. now rewrite trim_trimEnd. Qed.

Lemma split_char_cons (c : char) (r : jsstring) :
  split_char LF (c :: r) =
  if (c =? LF)%N then [] :: split_char LF r
  else match split_char LF r with
       | h :: t => (c :: h) :: t
       | [] => [[c]]
       end.
Proof. reflexivity. Qed.

Lemma isWhiteSpace_LF (c : char) : (c =? LF)%N = true -> isWhiteSpace c = true.
Proof. intros H. apply N.eqb_eq in H. now subst. Qed.

(** The lines of a text trimmed at its start. *)
Lemma split_trimStart (s : jsstring) :
  split_char LF (trimStart s) = orEmptyLine (headTrimmed (split_char LF s)).
Proof.
  unfold headTrimmed. induction s as [|c r IH]; [reflexivity|].
  rewrite trimStart_cons, split_char_cons.
  destruct (c =? LF)%N eqn:El.
  - rewrite (isWhiteSpace_LF _ El). simpl. exact IH.
  - pose proof (split_char_nonempty LF r) as Hne.
    destruct (split_char LF r) as [|h t] eqn:Es; [congruence|].
    destruct (isWhiteSpace c) eqn:Ec.
    + rewrite IH. simpl dropLeadingBlank. rewrite Ec. simpl.
      destruct (isBlank h); [reflexivity|].
      simpl. now rewrite trimStart_cons, Ec.
    + rewrite split_char_cons, El, Es. simpl dropLeadingBlank.
      rewrite Ec. simpl. now rewrite trimStart_cons, Ec.
Qed.

Lemma hasInk_cons (c : char) (s : jsstring) : hasInk (c :: s) = isInk c || hasInk s.
Proof. reflexivity. Qed.

Lemma tailTrimmed_nil (ls : list jsstring) :
  tailTrimmed ls = [] <-> forallb isBlank ls = true.
Proof.
  induction ls as [|l r IH]; simpl; [tauto|].
  destruct (tailTrimmed r) as [|x y].
  - destruct (isBlank l); simpl; [tauto|]. split; discriminate.
  - split; [discriminate|]. intros H. apply andb_prop in H.
    destruct H as [_ H]. apply IH in H. discriminate.
Qed.

Lemma hasInk_lines (s : jsstring) :
  hasInk s = negb (forallb isBlank (split_char LF s)).
Proof.
  induction s as [|c r IH]; [reflexivity|].
  rewrite hasInk_cons, split_char_cons, IH.
  pose proof (split_char_nonempty LF r) as Hne.
  destruct (c =? LF)%N eqn:El.
  - unfold isInk. rewrite (isWhiteSpace_LF _ El). reflexivity.
  - destruct (split_char LF r) as [|h t]; [congruence|].
    simpl. unfold isInk. destruct (isWhiteSpace c), (isBlank h); reflexivity.
Qed.

(** The lines of a text trimmed at its end. *)
Lemma split_trimEnd (s : jsstring) :
  split_char LF (trimEnd s) = orEmptyLine (tailTrimmed (split_char LF s)).
Proof.
  induction s as [|c r IH]; [reflexivity|].
  rewrite trimEnd_cons, (split_char_cons c r).
  pose proof (split_char_nonempty LF r) as Hne.
  pose proof (hasInk_lines r) as Hl.
  destruct (hasInk r) eqn:Er.
  - assert (Ht : tailTrimmed (split_char LF r) <> []).
    { intros E. apply tailTrimmed_nil in E. rewrite E in Hl. discriminate. }
    rewrite split_char_cons, IH.
    destruct (split_char LF r) as [|h t] eqn:Es; [congruence|].
    cbn [tailTrimmed] in Ht.
    destruct (c =? LF)%N eqn:El; cbn [tailTrimmed];
      destruct (tailTrimmed t) as [|x y] eqn:Et.
    + destruct (isBlank h); [congruence | reflexivity].
    + reflexivity.
    + destruct (isBlank h) eqn:Eh; [congruence|]. cbn [orEmptyLine].
      rewrite isBlank_cons, Eh, andb_false_r.
      rewrite trimEnd_cons, hasInk_blank, Eh. reflexivity.
    + reflexivity.
  - assert (Ht : tailTrimmed (split_char LF r) = []).
    { apply tailTrimmed_nil. now destruct (forallb isBlank (split_char LF r)). }
    destruct (split_char LF r) as [|h t] eqn:Es; [congruence|].
    cbn [tailTrimmed] in Ht.
    destruct (tailTrimmed t) as [|x y] eqn:Et; [|discriminate].
    destruct (isBlank h) eqn:Eh; [|discriminate].
    destruct (c =? LF)%N eqn:El; cbn [tailTrimmed]; rewrite Et.
    + unfold isInk. rewrite (isWhiteSpace_LF _ El), Eh. reflexivity.
    + rewrite isBlank_cons, Eh, andb_true_r.
      unfold isInk. destruct (isWhiteSpace c) eqn:Ec; cbn [negb orEmptyLine].
      * reflexivity.
      * rewrite split_char_cons, El, trimEnd_cons, hasInk_blank, Eh.
        unfold isInk. rewrite Ec. reflexivity.
Qed.

Lemma dropLeadingBlank_nil (ls : list jsstring) :
  dropLeadingBlank ls = [] <-> forallb isBlank ls = true.
Proof.
  induction ls as [|l r IH]; simpl; [tauto|].
  destruct (isBlank l); simpl; [exact IH|]. split; discriminate.
Qed.

Lemma dropTrailingBlank_nil (ls : list jsstring) :
  dropTrailingBlank ls = [] <-> forallb isBlank ls = true.
Proof.
  induction ls as [|l r IH]; simpl; [tauto|].
  destruct (dropTrailingBlank r) as [|x y].
  - destruct (isBlank l); simpl; [tauto|]. split; discriminate.
  - split; [discriminate|]. intros H. apply andb_prop in H.
    destruct H as [_ H]. apply IH in H. discriminate.
Qed.

Lemma dropLeadingBlank_head (ls : list jsstring) (l : jsstring) (r : list jsstring) :
  dropLeadingBlank ls = l :: r -> isBlank l = false.
Proof.
  induction ls as [|a t IH]; simpl; [discriminate|].
  destruct (isBlank a) eqn:E; [exact IH|]. now intros [= <- _].
Qed.

Lemma forallb_sameLine (ls' ls : list jsstring) :
  Forall2 sameLine ls' ls -> forallb isBlank ls' = forallb isBlank ls.
Proof.
  induction 1 as [|a b r' r [_ Hb] _ IH]; simpl; [reflexivity|]. now rewrite Hb, IH.
Qed.

Lemma dropLeadingBlank_sameLine (ls' ls : list jsstring) :
  Forall2 sameLine ls' ls ->
  Forall2 sameLine (dropLeadingBlank ls') (dropLeadingBlank ls).
Proof.
  induction 1 as [|a b r' r Hab Hr IH]; simpl; [constructor|].
  destruct Hab as [Hv Hb]. rewrite Hb. destruct (isBlank b) eqn:Eb; [exact IH|].
  constructor; [split; congruence | assumption].
Qed.

(** Lines that give the same numbers and are blank together give the same
    numbers once their trailing blank lines are dropped, whether the last
    line is trimmed or not. *)
Lemma tailTrimmed_sameLine (ls' ls : list jsstring) :
  Forall2 sameLine ls' ls ->
  map lineValues (tailTrimmed ls') = map lineValues (dropTrailingBlank ls).
Proof.
  induction 1 as [|a b r' r Hab Hr IH]; simpl; [reflexivity|].
  destruct Hab as [Hv Hb].
  pose proof (tailTrimmed_nil r') as N1. pose proof (dropTrailingBlank_nil r) as N2.
  rewrite (forallb_sameLine Hr) in N1.
  destruct (tailTrimmed r') as [|x y]; destruct (dropTrailingBlank r) as [|u v].
  - rewrite Hb. destruct (isBlank b); [reflexivity|].
    simpl. now rewrite lineValues_trimEnd, Hv.
  - assert (E : forallb isBlank r = true) by now apply N1.
    apply N2 in E. discriminate.
  - assert (E : forallb isBlank r = true) by now apply N2.
    apply N1 in E. discriminate.
  - simpl in *. now rewrite Hv, IH.
Qed.

Lemma sameLine_refl (ls : list jsstring) : Forall2 sameLine ls ls.
Proof. induction ls; constructor; [split|]; auto. Qed.

Lemma dropTrailingBlank_sameLine (ls' ls : list jsstring) :
  Forall2 sameLine ls' ls ->
  map lineValues (dropTrailingBlank ls') = map lineValues (dropTrailingBlank ls).
Proof.
  intros H. rewrite <- (tailTrimmed_sameLine H).
  symmetry. apply tailTrimmed_sameLine. apply sameLine_refl.
Qed.

Lemma coreLines_sameLine (ls' ls : list jsstring) :
  Forall2 sameLine ls' ls ->
  map lineValues (coreLines ls') = map lineValues (coreLines ls).
Proof.
  intros H. unfold coreLines.
  apply dropTrailingBlank_sameLine. now apply dropLeadingBlank_sameLine.
Qed.

Lemma headTrimmed_sameLine (ls : list jsstring) :
  Forall2 sameLine (headTrimmed ls) (dropLeadingBlank ls).
Proof.
  unfold headTrimmed. destruct (dropLeadingBlank ls) as [|l r]; constructor.
  - split; [apply lineValues_trimStart|].
    rewrite <- (negb_involutive (isBlank (trimStart l))), <- (negb_involutive (isBlank l)).
    now rewrite <- !hasInk_blank, hasInk_trimStart.
  - apply sameLine_refl.
Qed.

Lemma isBlank_lines (s : jsstring) :
  isBlank s = forallb isBlank (split_char LF s).
Proof.
  pose proof (hasInk_lines s) as H. rewrite hasInk_blank in H.
  destruct (isBlank s), (forallb isBlank (split_char LF s)); simpl in H; congruence.
Qed.

(** The lines that the loader sees are the lines of the text between its
    first and its last line that is not blank, up to what [trim] removes. *)
Lemma linesOf_coreLines (text : jsstring) :
  isBlank text = false ->
  map lineValues (linesOf text) = map lineValues (coreLines (split_char LF text)).
Proof.
  intros Hb. unfold linesOf, trim.
  rewrite trimStart_stripBOM, split_trimEnd, split_trimStart.
  set (ls := split_char LF text).
  assert (Hls : forallb isBlank ls = false) by (subst ls; now rewrite <- isBlank_lines).
  assert (Hh : headTrimmed ls <> []).
  { unfold headTrimmed. destruct (dropLeadingBlank ls) eqn:E; [|discriminate].
    apply dropLeadingBlank_nil in E. congruence. }
  assert (Hc : orEmptyLine (headTrimmed ls) = headTrimmed ls)
    by (destruct (headTrimmed ls); [congruence | reflexivity]).
  rewrite Hc.
  assert (Ht : tailTrimmed (headTrimmed ls) <> []).
  { intros E. apply tailTrimmed_nil in E.
    rewrite (forallb_sameLine (headTrimmed_sameLine ls)) in E.
    destruct (dropLeadingBlank ls) as [|l r] eqn:El.
    - apply dropLeadingBlank_nil in El. congruence.
    - simpl in E. rewrite (dropLeadingBlank_head _ El) in E. discriminate. }
  assert (Hc2 : orEmptyLine (tailTrimmed (headTrimmed ls)) = tailTrimmed (headTrimmed ls))
    by (destruct (tailTrimmed (headTrimmed ls)); [congruence | reflexivity]).
  rewrite Hc2. unfold coreLines.
  apply tailTrimmed_sameLine, headTrimmed_sameLine.
Qed.

Lemma surviving_lineValues (a b : list jsstring) :
  map lineValues a = map lineValues b -> surviving a = surviving b.
Proof. unfold surviving. now intros ->. Qed.

Lemma coreLines_blank (ls : list jsstring) :
  forallb isBlank ls = true -> coreLines ls = [].
Proof.
  intros H. unfold coreLines. apply dropLeadingBlank_nil in H. now rewrite H.
Qed.

(** The loader works line by line on the lines between the first and the
    last line that is not blank, whatever the text. *)
Lemma parseDataFile_by_lines (createDefaultCubeData : list number) (text : jsstring) :
  parseDataFile createDefaultCubeData text =
  match surviving (coreLines (split_char LF text)) with
  | [] => createDefaultCubeData
  | _ :: _ => surviving (coreLines (split_char LF text))
  end.
Proof.
  rewrite parseDataFile_unfold. destruct (isBlank text) eqn:Hb.
  - rewrite coreLines_blank by now rewrite <- isBlank_lines. reflexivity.
  - now rewrite (@surviving_lineValues _ _ (@linesOf_coreLines text Hb)).
Qed.

(** ** White space around the text, carriage returns *)

Lemma trim_surround (lead text trail : jsstring) :
  isBlank lead = true -> isBlank trail = true ->
  trim (lead ++ text ++ trail) = trim text.
Proof.
  intros Hl Ht. unfold trim. rewrite (trimStart_blank_app _ _ Hl).
  destruct (hasInk text) eqn:E.
  - rewrite (trimStart_ink_app _ _ E). now apply trimEnd_app_blank.
  - assert (Hb : isBlank text = true)
      by (rewrite hasInk_blank in E; now destruct (isBlank text)).
    rewrite (@trimStart_blank_app _ _ Hb), (@trimStart_blank _ Ht), (@trimStart_blank _ Hb).
    reflexivity.
Qed.

(** X1. White space (blank lines, a byte-order mark) before and after a
    text does not change what the loader returns. *)
Theorem parseDataFile_surround (createDefaultCubeData : list number)
  (lead text trail : jsstring) :
  isBlank lead = true -> isBlank trail = true ->
  parseDataFile createDefaultCubeData (lead ++ text ++ trail) =
  parseDataFile createDefaultCubeData text.
Proof.
  intros Hl Ht. rewrite !parseDataFile_unfold.
  rewrite !isBlank_app, Hl, Ht, andb_true_r. simpl.
  unfold linesOf. now rewrite !trim_stripBOM, (@trim_surround lead text trail Hl Ht).
Qed.

Lemma parseDataFile_surround_witness :
  parseDataFile [] (BOM :: LF :: str " " ++ (str "1 0" ++ LF :: str "0.3") ++ [CR; LF; LF])
  = parseDataFile [] (str "1 0" ++ LF :: str "0.3").
Proof.
  apply (@parseDataFile_surround [] (BOM :: LF :: str " ")
           (str "1 0" ++ LF :: str "0.3") [CR; LF; LF]); reflexivity.
Defined.

Lemma sameUpToCR_sameLine (l' l : jsstring) : sameUpToCR l' l -> sameLine l' l.
Proof.
  intros [-> | ->]; [split; reflexivity|]. split.
  - unfold lineValues. f_equal. f_equal.
    apply (@trim_surround [] l [CR]); reflexivity.
  - rewrite isBlank_app. simpl. now rewrite andb_true_r.
Qed.

Lemma split_toCRLF (s : jsstring) :
  Forall2 sameUpToCR (split_char LF (toCRLF s)) (split_char LF s).
Proof.
  induction s as [|c r IH]; simpl toCRLF.
  - simpl. constructor; [now left | constructor].
  - destruct (c =? LF)%N eqn:El.
    + rewrite (split_char_cons c r), El.
      change (split_char LF (CR :: LF :: toCRLF r))
        with ([CR] :: split_char LF (toCRLF r)).
      constructor; [now right | exact IH].
    + rewrite !split_char_cons, El.
      pose proof (split_char_nonempty LF r) as N1.
      pose proof (split_char_nonempty LF (toCRLF r)) as N2.
      destruct (split_char LF r); [congruence|].
      destruct (split_char LF (toCRLF r)); [congruence|].
      inversion IH as [|? ? ? ? Hh Ht]; subst. constructor; [|assumption].
      destruct Hh as [-> | ->]; [now left | now right].
Qed.

Lemma Forall2_impl {A B : Type} (P Q : A -> B -> Prop) (l : list A) (l' : list B) :
  (forall a b, P a b -> Q a b) -> Forall2 P l l' -> Forall2 Q l l'.
Proof. intros H. induction 1; constructor; auto. Qed.

Lemma isBlank_toCRLF (s : jsstring) : isBlank (toCRLF s) = isBlank s.
Proof.
  induction s as [|c r IH]; [reflexivity|]. simpl.
  destruct (c =? LF)%N eqn:El.
  - apply N.eqb_eq in El. subst. simpl. exact IH.
  - simpl. now rewrite IH.
Qed.

(** X2. A text with Windows line ends is read like the same text with line
    feeds alone. *)
Theorem parseDataFile_toCRLF (createDefaultCubeData : list number) (text : jsstring) :
  parseDataFile createDefaultCubeData (toCRLF text) =
  parseDataFile createDefaultCubeData text.
Proof.
  rewrite !parseDataFile_by_lines.
  assert (E : surviving (coreLines (split_char LF (toCRLF text))) =
              surviving (coreLines (split_char LF text))).
  { apply surviving_lineValues, coreLines_sameLine.
    apply (@Forall2_impl _ _ sameUpToCR sameLine _ _ sameUpToCR_sameLine), split_toCRLF. }
  now rewrite E.
Qed.

(** ** Lines of any number of tokens *)

Lemma isToken_cons_ink (t : jsstring) :
  isToken t = true -> exists c r, t = c :: r /\ isWhiteSpace c = false.
Proof.
  intros H. destruct (isToken_spec _ H) as [Ha Hn].
  destruct t as [|c r]; [congruence|]. exists c, r. split; [reflexivity|].
  simpl in Ha. apply andb_prop in Ha. destruct Ha as [Hc _].
  unfold isInk in Hc. now apply negb_true_iff in Hc.
Qed.

Lemma wfMore_cons (g t : jsstring) (m : list (jsstring * jsstring)) :
  wfMore ((g, t) :: m) = true ->
  isGap g = true /\ isToken t = true /\ wfMore m = true.
Proof.
  unfold wfMore. simpl. intros H. apply andb_prop in H. destruct H as [H Hm].
  apply andb_prop in H. tauto.
Qed.

(** Splitting gives back the tokens that were joined. *)
Lemma split_ws_tokens (m : list (jsstring * jsstring)) (t : jsstring) (b : bool) :
  isToken t = true -> wfMore m = true ->
  split_ws_from b (t ++ moreText m) = t :: map snd m.
Proof.
  revert t b. induction m as [|[g t'] m IH]; intros t b Ht Hm.
  - destruct (isToken_spec _ Ht) as [Ha Hn].
    unfold moreText. simpl. rewrite (split_ws_ink [] b Ha Hn). simpl.
    now rewrite app_nil_r.
  - destruct (wfMore_cons _ _ _ Hm) as [Hg [Ht' Hm']].
    destruct (isToken_spec _ Ht) as [Ha Hn].
    destruct (isGap_spec _ Hg) as [Hb [Hgn _]].
    unfold moreText. simpl. fold (moreText m). rewrite <- app_assoc.
    rewrite (split_ws_ink _ b Ha Hn), (split_ws_gap _ Hb Hgn), (IH t' true Ht' Hm').
    simpl. now rewrite app_nil_r.
Qed.

Lemma trimEnd_tokens (m : list (jsstring * jsstring)) (p t : jsstring) :
  isToken t = true -> wfMore m = true ->
  trimEnd (p ++ t ++ moreText m) = p ++ t ++ moreText m.
Proof.
  revert p t. induction m as [|[g t'] m IH]; intros p t Ht Hm.
  - destruct (isToken_spec _ Ht) as [Ha Hn].
    unfold moreText. simpl. rewrite app_nil_r. now apply trimEnd_ink.
  - destruct (wfMore_cons _ _ _ Hm) as [Hg [Ht' Hm']].
    unfold moreText. simpl. fold (moreText m).
    replace (p ++ t ++ (g ++ t') ++ moreText m)
      with ((p ++ t ++ g) ++ t' ++ moreText m)
      by (now rewrite <- !app_assoc).
    now apply IH.
Qed.

Lemma wfTokenLine_spec (l : TokenLine) :
  wfTokenLine l = true ->
  isPad (tl_pre l) = true /\ isToken (tl_first l) = true /\
  wfMore (tl_more l) = true /\ isPad (tl_post l) = true.
Proof.
  unfold wfTokenLine. intros H.
  do 3 (apply andb_prop in H; destruct H as [H ?]). tauto.
Qed.

Lemma trim_tokenLine (l : TokenLine) :
  wfTokenLine l = true ->
  trim (tokenLineText l) = tl_first l ++ moreText (tl_more l).
Proof.
  intros H. destruct (wfTokenLine_spec _ H) as [P [T [M Q]]].
  destruct (isPad_spec _ P) as [Pb _]. destruct (isPad_spec _ Q) as [Qb _].
  destruct (isToken_spec _ T) as [Ta Tn].
  unfold trim, tokenLineText.
  rewrite (trimStart_blank_app _ _ Pb), (trimStart_ink _ Ta Tn).
  replace (tl_first l ++ moreText (tl_more l) ++ tl_post l)
    with ((tl_first l ++ moreText (tl_more l)) ++ tl_post l)
    by now rewrite <- app_assoc.
  rewrite (trimEnd_app_blank _ _ Qb).
  apply (@trimEnd_tokens (tl_more l) [] (tl_first l) T M).
Qed.

(** The tokens of a line of tokens are those it was made of. *)
Lemma tokensOf_tokenLine (l : TokenLine) :
  wfTokenLine l = true -> tokensOf (tokenLineText l) = tokenLineTokens l.
Proof.
  intros H. destruct (wfTokenLine_spec _ H) as [_ [T [M _]]].
  unfold tokensOf, split_ws. rewrite (trim_tokenLine _ H).
  now apply split_ws_tokens.
Qed.

Lemma lineContribution_tokenLine (l : TokenLine) :
  wfTokenLine l = true -> lineContribution (tokenLineText l) = tokenLineNumbers l.
Proof.
  intros H. unfold lineContribution, tokenLineNumbers.
  now rewrite (tokensOf_tokenLine _ H).
Qed.

Lemma noLineFeed_moreText (m : list (jsstring * jsstring)) :
  wfMore m = true -> noLineFeed (moreText m) = true.
Proof.
  induction m as [|[g t] m IH]; intros Hm; [reflexivity|].
  destruct (wfMore_cons _ _ _ Hm) as [Hg [Ht Hm']].
  destruct (isGap_spec _ Hg) as [_ [_ Lg]]. destruct (isToken_spec _ Ht) as [Ta _].
  unfold moreText. simpl. fold (moreText m).
  now rewrite !noLineFeed_app, Lg, (allInk_noLineFeed _ Ta), (IH Hm').
Qed.

Lemma noLineFeed_tokenLine (l : TokenLine) :
  wfTokenLine l = true -> noLineFeed (tokenLineText l) = true.
Proof.
  intros H. destruct (wfTokenLine_spec _ H) as [P [T [M Q]]].
  destruct (isPad_spec _ P) as [_ Pl]. destruct (isPad_spec _ Q) as [_ Ql].
  destruct (isToken_spec _ T) as [Ta _].
  unfold tokenLineText.
  now rewrite !noLineFeed_app, Pl, Ql, (allInk_noLineFeed _ Ta), (noLineFeed_moreText _ M).
Qed.

Lemma isBlank_tokenLine (l : TokenLine) :
  wfTokenLine l = true -> isBlank (tokenLineText l) = false.
Proof.
  intros H. destruct (wfTokenLine_spec _ H) as [_ [T _]].
  destruct (isToken_spec _ T) as [Ta Tn].
  apply isBlank_ink. unfold tokenLineText.
  rewrite !hasInk_app, (allInk_hasInk Ta Tn). now rewrite orb_true_r.
Qed.

Lemma dropTrailingBlank_none (ls : list jsstring) :
  forallb (fun l => negb (isBlank l)) ls = true -> dropTrailingBlank ls = ls.
Proof.
  induction ls as [|l r IH]; [reflexivity|]. simpl. intros H.
  apply andb_prop in H. destruct H as [Hl Hr]. rewrite (IH Hr).
  apply negb_true_iff in Hl. rewrite Hl. now destruct r.
Qed.

Lemma coreLines_none (ls : list jsstring) :
  forallb (fun l => negb (isBlank l)) ls = true -> coreLines ls = ls.
Proof.
  intros H. unfold coreLines.
  assert (E : dropLeadingBlank ls = ls).
  { destruct ls as [|l r]; [reflexivity|]. simpl in *.
    apply andb_prop in H. destruct H as [Hl _]. apply negb_true_iff in Hl.
    now rewrite Hl. }
  rewrite E. now apply dropTrailingBlank_none.
Qed.

Lemma surviving_tokenLines (ls : list TokenLine) :
  forallb wfTokenLine ls = true ->
  surviving (map tokenLineText ls) = flat_map tokenLineNumbers ls.
Proof.
  intros H. rewrite surviving_contribution.
  induction ls as [|l r IH]; [reflexivity|]. simpl in *.
  apply andb_prop in H. destruct H as [Hl Hr].
  now rewrite (lineContribution_tokenLine _ Hl), (IH Hr).
Qed.

Lemma forallb_map_compose {A B : Type} (p : B -> bool) (f : A -> B) (l : list A) :
  forallb p (map f l) = forallb (fun x => p (f x)) l.
Proof. induction l as [|x l IH]; simpl; [reflexivity | now rewrite IH]. Qed.

Lemma parseDataFile_token_lines (d : list number) (ls : list TokenLine) :
  ls <> [] -> forallb wfTokenLine ls = true ->
  parseDataFile d (joinLines (map tokenLineText ls)) =
  match flat_map tokenLineNumbers ls with
  | [] => d
  | _ :: _ => flat_map tokenLineNumbers ls
  end.
Proof.
  intros Hne Hwf. rewrite parseDataFile_by_lines.
  rewrite split_joinLines.
  - rewrite coreLines_none, (surviving_tokenLines _ Hwf); [reflexivity|].
    rewrite forallb_map_compose. clear Hne. induction ls as [|l r IH]; [reflexivity|].
    simpl in *. apply andb_prop in Hwf. destruct Hwf as [Hl Hr].
    now rewrite (isBlank_tokenLine _ Hl), (IH Hr).
  - destruct ls; [congruence | discriminate].
  - rewrite forallb_map_compose. clear Hne. induction ls as [|l r IH]; [reflexivity|].
    simpl in *. apply andb_prop in Hwf. destruct Hwf as [Hl Hr].
    now rewrite (noLineFeed_tokenLine _ Hl), (IH Hr).
Qed.

(** ** Characters that no numeric literal holds *)

Lemma span_spec (p : char -> bool) (s a b : jsstring) :
  span p s = (a, b) -> s = a ++ b /\ forallb p a = true.
Proof.
  revert a b. induction s as [|c r IH]; intros a b; simpl.
  - intros [= <- <-]. auto.
  - destruct (p c) eqn:E.
    + destruct (span p r) as [a' b'] eqn:Es. intros [= <- <-].
      destruct (IH _ _ eq_refl) as [-> Ha]. simpl. now rewrite E, Ha.
    + intros [= <- <-]. auto.
Qed.

Lemma isDigit_literalChar (c : char) : isDigit c = true -> literalChar c = true.
Proof. intros H. unfold literalChar, isHexDigit. now rewrite H. Qed.

Lemma digits_literalChar (s : jsstring) :
  forallb isDigit s = true -> forallb literalChar s = true.
Proof.
  rewrite !forallb_forall. intros H c Hc. apply isDigit_literalChar. auto.
Qed.

Lemma forallb_weaken (p q : char -> bool) (s : jsstring) :
  (forall c, p c = true -> q c = true) -> forallb p s = true -> forallb q s = true.
Proof. rewrite !forallb_forall. auto. Qed.

Lemma isHexDigit_literalChar (c : char) : isHexDigit c = true -> literalChar c = true.
Proof. intros H. unfold literalChar. now rewrite H. Qed.

Lemma isOctalDigit_literalChar (c : char) : isOctalDigit c = true -> literalChar c = true.
Proof.
  intros H. apply isDigit_literalChar. unfold isOctalDigit, isDigit in *.
  apply andb_prop in H. destruct H as [H1 H2].
  apply N.leb_le in H1. apply N.leb_le in H2.
  apply andb_true_intro. split; apply N.leb_le; lia.
Qed.

Lemma isBinaryDigit_literalChar (c : char) : isBinaryDigit c = true -> literalChar c = true.
Proof.
  intros H. apply isDigit_literalChar. unfold isBinaryDigit, isDigit in *.
  apply andb_prop in H. destruct H as [H1 H2].
  apply N.leb_le in H1. apply N.leb_le in H2.
  apply andb_true_intro. split; apply N.leb_le; lia.
Qed.

Lemma eqb_literalChar (c : char) (a : ascii) :
  (c =? ch a)%N = true -> literalChar (ch a) = true -> literalChar c = true.
Proof. intros H. apply N.eqb_eq in H. now subst. Qed.

Lemma parseExponent_chars (s : jsstring) (e : Z) :
  parseExponent s = Some e -> forallb literalChar s = true.
Proof.
  destruct s as [|c r]; [reflexivity|]. unfold parseExponent.
  destruct ((c =? ch "e") || (c =? ch "E"))%N eqn:Ee; [|discriminate].
  assert (Hc : literalChar c = true).
  { apply orb_prop in Ee. destruct Ee as [E|E]; eapply eqb_literalChar; eauto. }
  cbn [forallb]. rewrite Hc. cbn [andb].
  destruct r as [|sg r'].
  - discriminate.
  - destruct (sg =? ch "-")%N eqn:Em; [|destruct (sg =? ch "+")%N eqn:Ep].
    + destruct (negb (isNil r') && forallb isDigit r') eqn:Ed; [|discriminate].
      intros _. apply andb_prop in Ed. destruct Ed as [_ Ed].
      cbn [forallb]. rewrite (eqb_literalChar _ _ Em eq_refl). now apply digits_literalChar.
    + destruct (negb (isNil r') && forallb isDigit r') eqn:Ed; [|discriminate].
      intros _. apply andb_prop in Ed. destruct Ed as [_ Ed].
      cbn [forallb]. rewrite (eqb_literalChar _ _ Ep eq_refl). now apply digits_literalChar.
    + destruct (negb (isNil (sg :: r')) && forallb isDigit (sg :: r')) eqn:Ed;
        [|discriminate].
      intros _. apply andb_prop in Ed. destruct Ed as [_ Ed].
      now apply digits_literalChar.
Qed.

Lemma parseUnsignedDecimal_chars (neg : bool) (s : jsstring) :
  invalidValue (parseUnsignedDecimal neg s) = false -> forallb literalChar s = true.
Proof.
  unfold parseUnsignedDecimal.
  destruct (jsstring_eqb s (str "Infinity")); [discriminate|].
  destruct (span isDigit s) as [ip r1] eqn:E1.
  destruct (span_spec _ _ E1) as [-> Hip].
  rewrite forallb_app, (digits_literalChar _ Hip). cbn [andb].
  destruct r1 as [|c r].
  - reflexivity.
  - destruct (c =? ch ".")%N eqn:Ec.
    + destruct (span isDigit r) as [fp r2] eqn:E2.
      destruct (span_spec _ _ E2) as [-> Hfp].
      destruct (negb (isNil ip) || negb (isNil fp)); [|discriminate].
      destruct (parseExponent r2) as [e|] eqn:Ee; [|discriminate].
      intros _. cbn [forallb]. rewrite (eqb_literalChar _ _ Ec eq_refl), forallb_app.
      now rewrite (digits_literalChar _ Hfp), (parseExponent_chars _ Ee).
    + destruct (negb (isNil ip)); [|discriminate].
      destruct (parseExponent (c :: r)) as [e|] eqn:Ee; [|discriminate].
      intros _. now apply (parseExponent_chars _ Ee).
Qed.

Lemma parseNonDecimal_chars (s : jsstring) (v : number) :
  parseNonDecimal s = Some v -> forallb literalChar s = true.
Proof.
  destruct s as [|z [|p ds]]; try discriminate. unfold parseNonDecimal.
  destruct ((z =? ch "0")%N && negb (isNil ds)) eqn:E0; [|discriminate].
  apply andb_prop in E0. destruct E0 as [Ez _]. cbn [forallb].
  rewrite (eqb_literalChar _ _ Ez eq_refl). cbn [andb].
  destruct ((p =? ch "x") || (p =? ch "X"))%N eqn:Ex.
  { destruct (forallb isHexDigit ds) eqn:Ed; [|discriminate]. intros _.
    assert (Hp : literalChar p = true)
      by (apply orb_prop in Ex; destruct Ex; eapply eqb_literalChar; eauto).
    rewrite Hp. cbn [andb]. revert Ed. apply forallb_weaken, isHexDigit_literalChar. }
  destruct ((p =? ch "o") || (p =? ch "O"))%N eqn:Eo.
  { destruct (forallb isOctalDigit ds) eqn:Ed; [|discriminate]. intros _.
    assert (Hp : literalChar p = true)
      by (apply orb_prop in Eo; destruct Eo; eapply eqb_literalChar; eauto).
    rewrite Hp. cbn [andb]. revert Ed. apply forallb_weaken, isOctalDigit_literalChar. }
  destruct ((p =? ch "b") || (p =? ch "B"))%N eqn:Eb; [|discriminate].
  destruct (forallb isBinaryDigit ds) eqn:Ed; [|discriminate]. intros _.
  assert (Hp : literalChar p = true)
    by (apply orb_prop in Eb; destruct Eb; eapply eqb_literalChar; eauto).
  rewrite Hp. cbn [andb]. revert Ed. apply forallb_weaken, isBinaryDigit_literalChar.
Qed.

(** A string that [Number] reads as a finite number holds, between the white
    space around it, nothing but characters of numeric literals. *)
Lemma Number_chars (s : jsstring) :
  invalidValue (Number s) = false -> forallb literalChar (trim s) = true.
Proof.
  unfold Number. destruct (trim s) as [|c r] eqn:Et; [reflexivity|].
  destruct (parseNonDecimal (c :: r)) as [v|] eqn:En.
  - intros _. exact (parseNonDecimal_chars _ En).
  - destruct (c =? ch "-")%N eqn:Em; [|destruct (c =? ch "+")%N eqn:Ep].
    + intros H. cbn [forallb]. rewrite (eqb_literalChar _ _ Em eq_refl).
      exact (parseUnsignedDecimal_chars _ _ H).
    + intros H. cbn [forallb]. rewrite (eqb_literalChar _ _ Ep eq_refl).
      exact (parseUnsignedDecimal_chars _ _ H).
    + apply parseUnsignedDecimal_chars.
Qed.

Lemma In_dropWhile (c : char) (s : jsstring) :
  In c s -> isWhiteSpace c = false -> In c (dropWhile isWhiteSpace s).
Proof.
  induction s as [|a r IH]; simpl; [tauto|]. intros [->|H] Hc.
  - rewrite Hc. now left.
  - destruct (isWhiteSpace a); [auto | now right].
Qed.

Lemma In_trim (c : char) (s : jsstring) :
  In c s -> isWhiteSpace c = false -> In c (trim s).
Proof.
  intros H Hc. unfold trim, trimEnd. rewrite <- in_rev. apply In_dropWhile; [|assumption].
  rewrite <- in_rev. unfold trimStart. now apply In_dropWhile.
Qed.

Lemma In_split_ws (c : char) (s : jsstring) (b : bool) :
  In c s -> isWhiteSpace c = false ->
  exists t, In t (split_ws_from b s) /\ In c t.
Proof.
  revert b. induction s as [|a r IH]; intros b; simpl; [tauto|]. intros [->|H] Hc.
  - rewrite Hc. pose proof (split_ws_from_nonempty false r) as Hn.
    destruct (split_ws_from false r) as [|h t]; [congruence|].
    exists (c :: h). split; now left.
  - destruct (isWhiteSpace a).
    + destruct (IH true H Hc) as [t [Ht Hct]].
      exists t. split; [|assumption]. destruct b; [assumption | now right].
    + destruct (IH false H Hc) as [t [Ht Hct]].
      destruct (split_ws_from false r) as [|h u]; [contradiction|].
      destruct Ht as [<-|Ht].
      * exists (a :: h). split; [now left | now right].
      * exists t. split; [now right | assumption].
Qed.

Lemma strayChar_spec (c : char) :
  strayChar c = true -> isWhiteSpace c = false /\ literalChar c = false.
Proof.
  unfold strayChar, isInk. intros H. apply andb_prop in H. destruct H as [H1 H2].
  apply negb_true_iff in H1. apply negb_true_iff in H2. auto.
Qed.

Lemma stray_token (t : jsstring) :
  existsb strayChar t = true -> invalidValue (Number t) = true.
Proof.
  intros H. apply existsb_exists in H. destruct H as [c [Hin Hc]].
  destruct (strayChar_spec _ Hc) as [Hw Hl].
  destruct (invalidValue (Number t)) eqn:E; [reflexivity|].
  apply Number_chars in E. rewrite forallb_forall in E.
  rewrite (E c (@In_trim c t Hin Hw)) in Hl. discriminate.
Qed.

Lemma stray_line (line : jsstring) :
  existsb strayChar line = true -> lineContribution line = [].
Proof.
  intros H. apply existsb_exists in H. destruct H as [c [Hin Hc]].
  destruct (strayChar_spec _ Hc) as [Hw Hl].
  destruct (@In_split_ws c (trim line) false (@In_trim c line Hin Hw) Hw) as [t [Ht Hct]].
  unfold lineContribution.
  assert (E : forallb tokenOk (tokensOf line) = false).
  { destruct (forallb tokenOk (tokensOf line)) eqn:Ef; [|reflexivity].
    rewrite forallb_forall in Ef. specialize (Ef t Ht). unfold tokenOk in Ef.
    rewrite stray_token in Ef; [discriminate|].
    apply existsb_exists. exists c. split; assumption. }
  now rewrite E.
Qed.

Lemma dropLeadingBlank_incl (ls : list jsstring) : incl (dropLeadingBlank ls) ls.
Proof.
  induction ls as [|l r IH]; simpl; [apply incl_refl|].
  destruct (isBlank l); [now apply incl_tl | apply incl_refl].
Qed.

Lemma dropTrailingBlank_incl (ls : list jsstring) : incl (dropTrailingBlank ls) ls.
Proof.
  induction ls as [|l r IH]; simpl; [apply incl_refl|].
  destruct (dropTrailingBlank r) as [|x y].
  - destruct (isBlank l); [apply incl_nil_l | apply incl_cons; [now left | apply incl_nil_l]].
  - apply incl_cons; [now left | now apply incl_tl].
Qed.

Lemma coreLines_incl (ls : list jsstring) : incl (coreLines ls) ls.
Proof.
  unfold coreLines. eapply incl_tran; [apply dropTrailingBlank_incl|].
  apply dropLeadingBlank_incl.
Qed.

(** ** The loader, line by line on the raw text *)

(** X3. Whatever the text, the loader returns the contributions of the lines
    of the raw text from the first to the last line that is not blank, in
    order, and the default data when there is none: trimming the text drops
    the blank lines at both ends and the white space at the outer ends of the
    first and last line kept, which the trimming of each line removes
    anyway. *)
Theorem parseDataFile_line_structure (createDefaultCubeData : list number)
  (text : jsstring) :
  parseDataFile createDefaultCubeData text =
  match flat_map lineContribution (coreLines (split_char LF text)) with
  | [] => createDefaultCubeData
  | _ :: _ => flat_map lineContribution (coreLines (split_char LF text))
  end.
Proof.
  rewrite <- surviving_contribution, parseDataFile_unfold.
  destruct (isBlank text) eqn:Hb.
  - rewrite coreLines_blank by now rewrite <- isBlank_lines. reflexivity.
  - now rewrite (@surviving_lineValues _ _ (@linesOf_coreLines text Hb)).
Qed.

(** X4. A text of lines of tokens, any number of them on each line, with
    white space between and around them: the loader returns the numbers of
    the lines whose tokens all parse as finite numbers, in order, whatever
    the number of tokens of a line (the lines of the result are not told
    apart), and the default data when no line is kept. *)
Theorem parseDataFile_any_width (createDefaultCubeData : list number)
  (ls : list TokenLine) :
  ls <> [] -> forallb wfTokenLine ls = true ->
  parseDataFile createDefaultCubeData (joinLines (map tokenLineText ls)) =
  match flat_map tokenLineNumbers ls with
  | [] => createDefaultCubeData
  | _ :: _ => flat_map tokenLineNumbers ls
  end.
Proof.
  intros Hne Hwf.
  assert (Hnl : forallb noLineFeed (map tokenLineText ls) = true).
  { rewrite forallb_map_compose. clear Hne. induction ls as [|l r IH]; [reflexivity|].
    simpl in *. apply andb_prop in Hwf. destruct Hwf as [Hl Hr].
    now rewrite (noLineFeed_tokenLine _ Hl), (IH Hr). }
  assert (Hnb : forallb (fun l => negb (isBlank l)) (map tokenLineText ls) = true).
  { rewrite forallb_map_compose. clear Hne Hnl. induction ls as [|l r IH]; [reflexivity|].
    simpl in *. apply andb_prop in Hwf. destruct Hwf as [Hl Hr].
    now rewrite (isBlank_tokenLine _ Hl), (IH Hr). }
  rewrite parseDataFile_by_lines, split_joinLines;
    [|destruct ls; [congruence | discriminate] | exact Hnl].
  now rewrite (coreLines_none _ Hnb), (surviving_tokenLines _ Hwf).
Qed.

Lemma parseDataFile_any_width_witness :
  parseDataFile []
    (str " 1  0" ++ LF :: str "0.3 x 1" ++ LF :: str "1 1 0 0.3 " ++ LF :: str "0")
  = [one; pos_zero; one; one; pos_zero; three_tenths; pos_zero].
Proof.
  apply (@parseDataFile_any_width []
    [ {| tl_pre := str " "; tl_first := str "1";
         tl_more := [(str "  ", str "0")]; tl_post := [] |};
      {| tl_pre := []; tl_first := str "0.3";
         tl_more := [(str " ", str "x"); (str " ", str "1")]; tl_post := [] |};
      {| tl_pre := []; tl_first := str "1";
         tl_more := [(str " ", str "1"); (str " ", str "0"); (str " ", str "0.3")];
         tl_post := str " " |};
      {| tl_pre := []; tl_first := str "0"; tl_more := []; tl_post := [] |} ]
    ltac:(discriminate) ltac:(vm_compute; reflexivity)).
Defined.

(** ** Lines with a character that no number holds *)

Lemma stray_line_invalid (line : jsstring) :
  existsb strayChar line = true -> existsb invalidValue (lineValues line) = true.
Proof.
  intros H. apply existsb_exists in H. destruct H as [c [Hin Hc]].
  destruct (strayChar_spec _ Hc) as [Hw Hl].
  destruct (@In_split_ws c (trim line) false (@In_trim c line Hin Hw) Hw) as [t [Ht Hct]].
  apply existsb_exists. exists (Number t). split.
  - unfold lineValues. apply in_map. exact Ht.
  - apply stray_token. apply existsb_exists. exists c. split; assumption.
Qed.

(** X5. A line that holds, anywhere, a character that is neither white space
    nor a character of a numeric literal (a comma, a semicolon, a letter such
    as [g]) has a value that is not a finite number: the filter drops the
    whole line, its well-formed numbers included. *)
Theorem lineValues_stray (line : jsstring) :
  existsb strayChar line = true ->
  existsb invalidValue (lineValues line) = true /\
  keepValues (lineValues line) = false /\
  lineContribution line = [].
Proof.
  intros H. split; [now apply stray_line_invalid|]. split.
  - unfold keepValues. now rewrite stray_line_invalid.
  - now apply stray_line.
Qed.

Lemma lineValues_stray_witness :
  keepValues (lineValues (str "1 0.5, 3")) = false.
Proof.
  apply (proj1 (proj2 (@lineValues_stray (str "1 0.5, 3") ltac:(vm_compute; reflexivity)))).
Defined.

(** X6. A text every line of which holds such a character, a file of
    comma-separated values for one, is replaced by the default data as a
    whole. *)
Theorem parseDataFile_stray_lines (createDefaultCubeData : list number)
  (text : jsstring) :
  forallb (existsb strayChar) (split_char LF text) = true ->
  parseDataFile createDefaultCubeData text = createDefaultCubeData.
Proof.
  intros H. rewrite parseDataFile_by_lines, surviving_contribution.
  assert (E : flat_map lineContribution (coreLines (split_char LF text)) = []).
  { rewrite forallb_forall in H.
    assert (Hc : forall l, In l (coreLines (split_char LF text)) ->
                           existsb strayChar l = true)
      by (intros l Hl; apply H; now apply coreLines_incl).
    clear H. induction (coreLines (split_char LF text)) as [|l r IH]; [reflexivity|].
    simpl. rewrite stray_line by (apply Hc; now left).
    apply IH. intros l' Hl'. apply Hc. now right. }
  now rewrite E.
Qed.

Lemma parseDataFile_stray_lines_witness :
  parseDataFile [one; one; one] (str "1,0,0" ++ LF :: str "0, 1, 0") = [one; one; one].
Proof.
  apply (@parseDataFile_stray_lines [one; one; one]
           (str "1,0,0" ++ LF :: str "0, 1, 0")); vm_compute; reflexivity.
Defined.

(** ** The palette as the array grows *)

Lemma firstOcc_app (a b : list jsstring) :
  firstOcc (a ++ b) =
  firstOcc a ++ filter (fun x => negb (existsb (jsstring_eqb x) (firstOcc a))) (firstOcc b).
Proof.
  rewrite <- (seenAfter_nil (a ++ b)). unfold seenAfter at 1. rewrite fold_left_app.
  change (seenAfter (seenAfter [] a) b = firstOcc a ++
          filter (fun x => negb (existsb (jsstring_eqb x) (firstOcc a))) (firstOcc b)).
  now rewrite seenAfter_nil, seenAfter_firstOcc.
Qed.

Lemma indexIn_app_l (a b : list jsstring) (k : jsstring) :
  In k a -> indexIn (firstOcc (a ++ b)) k = indexIn (firstOcc a) k.
Proof.
  intros H. unfold indexIn. rewrite firstOcc_app, indexOf_app_l; [reflexivity|].
  now apply firstOcc_In.
Qed.

Lemma firstn_snoc_nth {A : Type} (l : list A) (j : nat) (x : A) :
  nth_error l j = Some x -> firstn (S j) l = firstn j l ++ [x].
Proof.
  revert j. induction l as [|a l IH]; intros [|j] H; simpl in *; try discriminate.
  - now injection H as ->.
  - f_equal. now apply IH.
Qed.

(** The index of the key at place [j] depends on the keys before it only. *)
Lemma indexIn_at (keys : list jsstring) (j : nat) (k : jsstring) :
  nth_error keys j = Some k ->
  (~ In k (firstn j keys) ->
   indexIn (firstOcc keys) k = length (firstOcc (firstn j keys))) /\
  (In k (firstn j keys) ->
   indexIn (firstOcc keys) k < length (firstOcc (firstn j keys))).
Proof.
  intros Hn.
  assert (E : indexIn (firstOcc keys) k = indexIn (firstOcc (firstn j keys ++ [k])) k).
  { rewrite <- (firstn_skipn (S j) keys) at 1. rewrite (firstn_snoc_nth _ _ Hn).
    apply indexIn_app_l. apply in_or_app. right. now left. }
  rewrite E, firstOcc_snoc. split; intros H.
  - destruct (existsb (jsstring_eqb k) (firstOcc (firstn j keys))) eqn:Ex.
    + rewrite existsb_eqb_In, firstOcc_In in Ex. contradiction.
    + unfold indexIn. rewrite indexOf_snoc_new; [reflexivity|].
      now rewrite firstOcc_In.
  - assert (Hin : In k (firstOcc (firstn j keys))) by now apply firstOcc_In.
    rewrite (proj2 (existsb_eqb_In _ _) Hin). unfold indexIn.
    destruct (indexOf_In _ _ Hin) as [i [-> [Hi _]]]. exact Hi.
Qed.

Lemma firstOcc_le (l : list jsstring) : length (firstOcc l) <= length l.
Proof.
  induction l as [|k r IH]; simpl; [lia|].
  pose proof (filter_length_le (fun x => negb (jsstring_eqb x k)) (firstOcc r)). lia.
Qed.

Lemma tripleCount_add (n m : nat) : tripleCount (3 * n + m) = n + tripleCount m.
Proof.
  unfold tripleCount. replace (3 * n + m + 2) with (m + 2 + n * 3) by lia.
  rewrite Nat.div_add by lia. lia.
Qed.

Lemma tripleStarts_app (n k i : nat) :
  tripleStarts (n + k) i = tripleStarts n i ++ tripleStarts k (i + 3 * n).
Proof.
  revert i. induction n as [|n IH]; intros i; simpl.
  - f_equal. lia.
  - rewrite IH. do 3 f_equal. lia.
Qed.

Lemma tripleStarts_shift (k i c : nat) :
  tripleStarts k (c + i) = map (Nat.add c) (tripleStarts k i).
Proof.
  revert i. induction k as [|k IH]; intros i; simpl; [reflexivity|].
  f_equal. rewrite <- IH. f_equal. lia.
Qed.

Lemma colorKey_app_l (arr more : list number) (i : nat) :
  i + 2 < length arr -> colorKey (arr ++ more) i = colorKey arr i.
Proof.
  intros H. unfold colorKey. now rewrite !nth_error_app1 by lia.
Qed.

Lemma colorKey_app_r (arr more : list number) (i : nat) :
  colorKey (arr ++ more) (length arr + i) = colorKey more i.
Proof.
  unfold colorKey. rewrite !nth_error_app2 by lia.
  replace (length arr + i - length arr) with i by lia.
  replace (length arr + i + 1 - length arr) with (i + 1) by lia.
  replace (length arr + i + 2 - length arr) with (i + 2) by lia.
  reflexivity.
Qed.

Lemma keysOf_app (arr more : list number) (n : nat) :
  length arr = 3 * n -> keysOf (arr ++ more) = keysOf arr ++ keysOf more.
Proof.
  intros Hlen. unfold keysOf.
  rewrite length_app, Hlen, tripleCount_add, tripleCount_exact, tripleStarts_app, map_app.
  f_equal.
  - apply map_ext_in. intros x Hx. apply tripleStarts_In in Hx.
    destruct Hx as [j [Hj ->]]. apply colorKey_app_l. lia.
  - replace (0 + 3 * n) with (length arr + 0) by lia.
    rewrite tripleStarts_shift, map_map. apply map_ext. intros x.
    apply colorKey_app_r.
Qed.

Lemma combine_app_len {A B : Type} (a c : list A) (b d : list B) :
  length a = length b -> combine (a ++ c) (b ++ d) = combine a b ++ combine c d.
Proof.
  revert b. induction a as [|x a IH]; intros [|y b] H; simpl in *; try congruence.
  f_equal. apply IH. congruence.
Qed.

Lemma paletteOf_app (D X : list jsstring) :
  paletteOf (D ++ X) = paletteOf D ++ combine X (seq (length D) (length X)).
Proof.
  unfold paletteOf. rewrite length_app, seq_app. simpl.
  apply combine_app_len. now rewrite length_seq.
Qed.

(** X7. The index of a triple depends on the triples before it only: a
    triple whose key has not occurred before receives the number of distinct
    keys before it, a triple whose key has occurred a smaller index; so the
    index of triple [j] is at most [j], and the first index is 0. This holds
    for every array, a last partial triple included. *)
Theorem generateColorIndices_first_seen (colorsArray : list number) (j : nat) :
  j < tripleCount (length colorsArray) ->
  let seen := firstn j (keysOf colorsArray) in
  let key := colorKey colorsArray (3 * j) in
  exists idxs,
    generateColorIndices colorsArray = Some (map Some idxs) /\
    (~ In key seen -> nth j idxs 0 = length (nodup jsstring_eq_dec seen)) /\
    (In key seen -> nth j idxs 0 < length (nodup jsstring_eq_dec seen)) /\
    nth j idxs 0 <= j.
Proof.
  intros Hj seen key.
  destruct (generateColorIndices_spec colorsArray) as [_ Hg].
  eexists. split; [exact Hg|].
  pose proof (keysOf_nth colorsArray Hj) as Hn. fold key in Hn.
  rewrite (@nth_map_lt _ _ _ _ _ 0 _ Hn).
  destruct (indexIn_at _ _ Hn) as [Hnew Hold]. fold seen in Hnew, Hold.
  rewrite <- firstOcc_length.
  assert (Hle : length (firstOcc seen) <= j).
  { eapply Nat.le_trans; [apply firstOcc_le|]. unfold seen. rewrite length_firstn. lia. }
  split; [exact Hnew|]. split; [exact Hold|].
  destruct (in_dec jsstring_eq_dec key seen) as [Hin|Hnin].
  - specialize (Hold Hin). lia.
  - rewrite (Hnew Hnin). exact Hle.
Qed.

Lemma generateColorIndices_first_seen_witness :
  exists idxs,
    generateColorIndices [one; pos_zero; pos_zero; one; pos_zero; pos_zero;
                          pos_zero; one; pos_zero; pos_zero; one] = Some (map Some idxs) /\
    nth 3 idxs 0 <= 3.
Proof.
  destruct (@generateColorIndices_first_seen
              [one; pos_zero; pos_zero; one; pos_zero; pos_zero;
               pos_zero; one; pos_zero; pos_zero; one] 3
              ltac:(vm_compute; lia)) as [idxs [H1 [_ [_ H2]]]].
  exists idxs. split; assumption.
Defined.

(** X8. Triples added after a whole number of triples change nothing
    before them: the indices of the longer array begin with the indices of
    the shorter one, and its palette begins with the palette of the shorter
    one. *)
Theorem generateColorIndices_append (colorsArray more : list number) (n : nat) :
  length colorsArray = 3 * n ->
  exists st st' idxs idxs' entries,
    dedupe colorsArray = Some st /\
    dedupe (colorsArray ++ more) = Some st' /\
    generateColorIndices colorsArray = Some (map Some idxs) /\
    generateColorIndices (colorsArray ++ more) = Some (map Some (idxs ++ idxs')) /\
    length idxs = n /\
    length idxs' = tripleCount (length more) /\
    colorMap st' = colorMap st ++ entries.
Proof.
  intros Hlen.
  destruct (generateColorIndices_spec colorsArray) as [Hd Hg].
  destruct (generateColorIndices_spec (colorsArray ++ more)) as [Hd' Hg'].
  rewrite (@keysOf_app colorsArray more n Hlen) in Hd', Hg'.
  rewrite map_app in Hd', Hg'.
  assert (E : map (indexIn (firstOcc (keysOf colorsArray ++ keysOf more))) (keysOf colorsArray)
              = map (indexIn (firstOcc (keysOf colorsArray))) (keysOf colorsArray)).
  { apply map_ext_in. intros k Hk. now apply indexIn_app_l. }
  rewrite E in Hd', Hg'.
  do 5 eexists. split; [exact Hd|]. split; [exact Hd'|]. split; [exact Hg|].
  split; [exact Hg'|]. split; [|split].
  - now rewrite length_map, keysOf_length, Hlen, tripleCount_exact.
  - now rewrite length_map, keysOf_length.
  - simpl. rewrite firstOcc_app. apply paletteOf_app.
Qed.

Lemma generateColorIndices_append_witness :
  exists idxs idxs',
    generateColorIndices [one; pos_zero; pos_zero; pos_zero; one; pos_zero]
      = Some (map Some idxs) /\
    generateColorIndices ([one; pos_zero; pos_zero; pos_zero; one; pos_zero] ++
                          [one; pos_zero; pos_zero; one; one])
      = Some (map Some (idxs ++ idxs')).
Proof.
  destruct (@generateColorIndices_append
              [one; pos_zero; pos_zero; pos_zero; one; pos_zero]
              [one; pos_zero; pos_zero; one; one] 2 eq_refl)
    as [st [st' [idxs [idxs' [entries [_ [_ [H1 [H2 _]]]]]]]]].
  exists idxs, idxs'. split; assumption.
Defined.

(** X9. On every array the loop is left and no element of the result is
    [undefined]: there is one index for each started triple, each index is
    the number of an entry of the palette, the palette has at most one entry
    per triple, no key twice, and the counter of the loop is its size. *)
Theorem generateColorIndices_in_palette (colorsArray : list number) :
  exists st idxs,
    dedupe colorsArray = Some st /\
    generateColorIndices colorsArray = Some (map Some idxs) /\
    length idxs = tripleCount (length colorsArray) /\
    Forall (fun i => i < Map_size (colorMap st)) idxs /\
    Map_size (colorMap st) <= tripleCount (length colorsArray) /\
    NoDup (map fst (colorMap st)) /\
    nextIndex st = Map_size (colorMap st).
Proof.
  destruct (generateColorIndices_spec colorsArray) as [Hd Hg].
  do 2 eexists. split; [exact Hd|]. split; [exact Hg|]. simpl.
  rewrite paletteOf_size, paletteOf_keys. split; [|split; [|split; [|split]]].
  - now rewrite length_map, keysOf_length.
  - apply Forall_forall. intros i Hi. apply in_map_iff in Hi.
    destruct Hi as [k [<- Hk]]. unfold indexIn.
    destruct (indexOf_In _ _ (keys_incl_firstOcc _ _ Hk)) as [p [-> [Hp _]]]. exact Hp.
  - rewrite <- keysOf_length. apply firstOcc_le.
  - apply firstOcc_NoDup.
  - reflexivity.
Qed.

(** X10. The palette and the indices determine each other: the palette entry
    numbered by the index of a triple holds the key of that triple, and every
    palette entry is the index of some triple (no entry is unused). *)
Theorem generateColorIndices_lookup (colorsArray : list number) :
  exists st idxs,
    dedupe colorsArray = Some st /\
    generateColorIndices colorsArray = Some (map Some idxs) /\
    (forall j, j < tripleCount (length colorsArray) ->
       nth_error (colorMap st) (nth j idxs 0)
       = Some (colorKey colorsArray (3 * j), nth j idxs 0)) /\
    (forall p, p < Map_size (colorMap st) ->
       exists j, j < tripleCount (length colorsArray) /\ nth j idxs 0 = p).
Proof.
  destruct (generateColorIndices_spec colorsArray) as [Hd Hg].
  do 2 eexists. split; [exact Hd|]. split; [exact Hg|]. simpl. split.
  - intros j Hj. pose proof (keysOf_nth colorsArray Hj) as Hn.
    rewrite (@nth_map_lt _ _ _ _ _ 0 _ Hn). unfold indexIn.
    assert (Hin : In (colorKey colorsArray (3 * j)) (keysOf colorsArray))
      by (eapply nth_error_In; eauto).
    destruct (indexOf_In _ _ (keys_incl_firstOcc _ _ Hin)) as [p [-> [Hp Hnp]]].
    unfold paletteOf. 
    assert (Hc : forall (D : list jsstring) (s : list nat) q k v,
               nth_error D q = Some k -> nth_error s q = Some v ->
               nth_error (combine D s) q = Some (k, v)).
    { induction D as [|x D IH]; intros [|y s] [|q] k v H1 H2; simpl in *;
        try discriminate.
      - congruence.
      - now apply IH. }
    apply Hc; [exact Hnp|]. rewrite nth_error_seq.
    destruct (Nat.ltb_spec p (length (firstOcc (keysOf colorsArray)))); [reflexivity | lia].
  - rewrite paletteOf_size. intros p Hp.
    destruct (nth_error (firstOcc (keysOf colorsArray)) p) as [k|] eqn:Ek;
      [|apply nth_error_None in Ek; lia].
    assert (Hin : In k (keysOf colorsArray))
      by (apply firstOcc_In; eapply nth_error_In; eauto).
    apply In_nth_error in Hin. destruct Hin as [j Hj].
    assert (Hlt : j < tripleCount (length colorsArray)).
    { rewrite <- keysOf_length. apply nth_error_Some. congruence. }
    exists j. split; [exact Hlt|].
    rewrite (@nth_map_lt _ _ _ _ _ 0 _ Hj). unfold indexIn.
    now rewrite (indexOf_NoDup_nth _ (firstOcc_NoDup _) Ek).
Qed.

(** ** The calls of the renderer *)

Section RendererFacts.

Variable getAttribLocation : jsstring -> Z.
Variable encodeScalar : number -> list Byte.byte.
Variable createDefaultCubeData : list number.

Lemma callsSince_app (before added : list GLCall) (n : nat) :
  callsSince before {| buffers := n; calls := before ++ added |} = added.
Proof.
  unfold callsSince. simpl. rewrite skipn_app, Nat.sub_diag, skipn_all. reflexivity.
Qed.

(** The loop over the attributes creates no buffer and adds the two calls
    of each attribute that the program knows, in order. *)
Lemma forAttributes_calls (stride : nat) (attributes : list Attribute) (gl : Context) :
  forAttributes (bindAttribute getAttribLocation stride) attributes gl =
  (tt, {| buffers := buffers gl;
          calls := calls gl ++
                   flat_map (pointerCalls getAttribLocation stride)
                     (filter (known getAttribLocation) attributes) |}).
Proof.
  revert gl. induction attributes as [|a r IH]; intros gl.
  - simpl. rewrite app_nil_r. now destruct gl.
  - cbn [forAttributes filter]. unfold bind, bindAttribute, known.
    destruct (0 <=? getAttribLocation (attr_name a))%Z.
    + unfold bind, call. rewrite IH. cbn [flat_map buffers calls pointerCalls].
      rewrite <- !app_assoc. reflexivity.
    + unfold ret. apply IH.
Qed.

Lemma setupVertexBuffers_run (s : RenderShape) (gl : Context) :
  setupVertexBuffers getAttribLocation encodeScalar s gl =
  match getBuffer encodeScalar (attrib s) with
  | Some buffer =>
      (Some {| attrib := attrib s; vertex := Some (buffers gl); index := index s;
               hasIndex := hasIndex s |},
       {| buffers := S (buffers gl);
          calls := calls gl ++
            bindBuffer ARRAY_BUFFER (Some (buffers gl)) ::
            bufferData ARRAY_BUFFER (ArrayBuffer buffer) STATIC_DRAW ::
            flat_map (pointerCalls getAttribLocation (getStride (attrib s)))
              (filter (known getAttribLocation) (attrib s)) |})
  | None =>
      (None,
       {| buffers := S (buffers gl);
          calls := calls gl ++ [bindBuffer ARRAY_BUFFER (Some (buffers gl))] |})
  end.
Proof.
  unfold setupVertexBuffers, bind, createBuffer, call, ret. cbn [attrib vertex buffers calls].
  destruct (getBuffer encodeScalar (attrib s)) as [buffer|]; [|reflexivity].
  rewrite forAttributes_calls. cbn [buffers calls].
  rewrite <- !app_assoc. reflexivity.
Qed.

(** The packer returns a buffer exactly for a set that has a vertex
    count. *)
Lemma getBuffer_Some (attrs : Attributes) (V : nat) :
  vertexCount attrs = Some V ->
  getBuffer encodeScalar attrs = Some (packVertices encodeScalar attrs V).
Proof. intros H. unfold getBuffer. now rewrite H. Qed.

Lemma getBuffer_None (attrs : Attributes) :
  vertexCount attrs = None -> getBuffer encodeScalar attrs = None.
Proof. intros H. unfold getBuffer. now rewrite H. Qed.

Lemma drawTruck_run (s : RenderShape) (n : nat) (gl : Context) :
  drawTruck getAttribLocation s n gl =
  (tt, {| buffers := buffers gl;
          calls := calls gl ++
            bindBuffer ARRAY_BUFFER (vertex s) ::
            flat_map (pointerCalls getAttribLocation (getStride (attrib s)))
              (filter (known getAttribLocation) (attrib s)) ++
            (if hasIndex s
             then [bindBuffer ELEMENT_ARRAY_BUFFER (index s);
                   drawElements TRIANGLES n UNSIGNED_SHORT 0]
             else []) |}).
Proof.
  unfold drawTruck, bind, call, ret.
  change (fun attr : Attribute =>
            bindAttribute getAttribLocation (getStride (attrib s)) attr)
    with (bindAttribute getAttribLocation (getStride (attrib s))).
  rewrite forAttributes_calls. cbn [buffers calls].
  destruct (hasIndex s); cbn [buffers calls]; rewrite <- !app_assoc; cbn [app].
  - reflexivity.
  - rewrite app_nil_r. reflexivity.
Qed.

Lemma filter_flat_map_all {A B : Type} (p : B -> bool) (f : A -> list B) (l : list A) :
  (forall a, forallb p (f a) = true) -> filter p (flat_map f l) = flat_map f l.
Proof.
  intros H. induction l as [|a r IH]; [reflexivity|]. simpl.
  rewrite filter_app, IH. f_equal.
  specialize (H a). induction (f a) as [|b bs IHb]; [reflexivity|].
  simpl in *. apply andb_prop in H. destruct H as [-> Hb]. now rewrite IHb.
Qed.

Lemma filter_flat_map_none {A B : Type} (p : B -> bool) (f : A -> list B) (l : list A) :
  (forall a, forallb (fun b => negb (p b)) (f a) = true) -> filter p (flat_map f l) = [].
Proof.
  intros H. induction l as [|a r IH]; [reflexivity|]. simpl.
  rewrite filter_app, IH, app_nil_r.
  specialize (H a). induction (f a) as [|b bs IHb]; [reflexivity|].
  simpl in *. apply andb_prop in H. destruct H as [Hb Hbs].
  apply negb_true_iff in Hb. rewrite Hb. auto.
Qed.

Lemma pointers_isPointer (stride : nat) (attributes : list Attribute) :
  filter isPointer (flat_map (pointerCalls getAttribLocation stride) attributes)
  = flat_map (pointerCalls getAttribLocation stride) attributes.
Proof. apply filter_flat_map_all. reflexivity. Qed.

Lemma pointers_not (p : GLCall -> bool) (stride : nat) (attributes : list Attribute) :
  (forall l n t b s o, p (vertexAttribPointer l n t b s o) = false) ->
  (forall l, p (enableVertexAttribArray l) = false) ->
  filter p (flat_map (pointerCalls getAttribLocation stride) attributes) = [].
Proof.
  intros H1 H2. apply filter_flat_map_none. intros a. simpl. now rewrite H1, H2.
Qed.

Lemma pointers_known (stride : nat) (attributes : list Attribute) :
  Forall (fun c => match c with
                   | vertexAttribPointer loc _ _ _ _ _
                   | enableVertexAttribArray loc => (0 <= loc)%Z
                   | _ => True
                   end)
    (flat_map (pointerCalls getAttribLocation stride)
       (filter (known getAttribLocation) attributes)).
Proof.
  induction attributes as [|a r IH]; [constructor|].
  cbn [filter]. destruct (known getAttribLocation a) eqn:Ek; [|exact IH].
  unfold known in Ek. apply Z.leb_le in Ek.
  cbn [flat_map pointerCalls app]. repeat (constructor; [exact Ek|]). exact IH.
Qed.

Lemma pointers_count (stride : nat) (attributes : list Attribute) :
  length (flat_map (pointerCalls getAttribLocation stride) attributes)
  = 2 * length attributes.
Proof.
  induction attributes as [|a r IH]; [reflexivity|].
  cbn [flat_map pointerCalls app length]. rewrite IH. lia.
Qed.

(** X11. [setupVertexBuffers] gives the shape a buffer that did not exist
    before (so it is not the index buffer, created earlier) and binds it.
    When the attributes of the shape share a vertex count, it then uploads
    the packed buffer and binds exactly the attributes whose name the
    program knows, in order, all with the stride of the whole set: an
    attribute with an unknown name is passed over without any call, and no
    call is made with a negative location. When they share none, the error
    of the packer leaves the function: nothing is uploaded and no attribute
    is bound. *)
Theorem setupVertexBuffers_calls (s : RenderShape) (gl : Context) :
  let (done, gl') := setupVertexBuffers getAttribLocation encodeScalar s gl in
  buffers gl' = S (buffers gl) /\
  (forall V, vertexCount (attrib s) = Some V ->
     exists s' buffer,
       done = Some s' /\
       getBuffer encodeScalar (attrib s) = Some buffer /\
       vertex s' = Some (buffers gl) /\
       (forall i, index s = Some i -> i < buffers gl -> vertex s' <> index s') /\
       attrib s' = attrib s /\ index s' = index s /\ hasIndex s' = hasIndex s /\
       callsSince (calls gl) gl' =
         bindBuffer ARRAY_BUFFER (Some (buffers gl)) ::
         bufferData ARRAY_BUFFER (ArrayBuffer buffer) STATIC_DRAW ::
         flat_map (pointerCalls getAttribLocation (getStride (attrib s)))
           (filter (known getAttribLocation) (attrib s)) /\
       Forall (fun c => match c with
                        | vertexAttribPointer loc _ _ _ _ _
                        | enableVertexAttribArray loc => (0 <= loc)%Z
                        | _ => True
                        end) (callsSince (calls gl) gl') /\
       length (filter isPointer (callsSince (calls gl) gl')) =
         2 * length (filter (known getAttribLocation) (attrib s))) /\
  (vertexCount (attrib s) = None ->
     done = None /\
     callsSince (calls gl) gl' = [bindBuffer ARRAY_BUFFER (Some (buffers gl))]).
Proof.
  rewrite setupVertexBuffers_run.
  destruct (vertexCount (attrib s)) as [W|] eqn:Ev.
  - rewrite (getBuffer_Some _ Ev). cbn [buffers]. rewrite callsSince_app.
    split; [reflexivity|]. split; [|discriminate].
    intros V _. do 2 eexists. split; [reflexivity|]. split; [reflexivity|].
    cbn [attrib vertex index hasIndex].
    split; [reflexivity|]. split.
    { intros i Hi Hlt E. rewrite Hi in E. injection E as E. lia. }
    do 4 (split; [reflexivity|]). split.
    + do 2 (constructor; [exact I|]). apply pointers_known.
    + cbn [filter isPointer]. rewrite pointers_isPointer. apply pointers_count.
  - rewrite (getBuffer_None _ Ev). cbn [buffers]. rewrite callsSince_app.
    split; [reflexivity|]. split; [discriminate|]. intros _. split; reflexivity.
Qed.

(** X12. [drawTruck] after [setupVertexBuffers], for a shape whose
    attributes share a vertex count: it binds the buffer that the set-up
    created and filled, and binds the attributes with the very calls of the
    set-up; it creates no buffer and uploads no data. *)
Theorem drawTruck_after_setup (s : RenderShape) (numIndices : nat) (gl : Context)
  (V : nat) :
  vertexCount (attrib s) = Some V ->
  exists s' buffer gl1,
    setupVertexBuffers getAttribLocation encodeScalar s gl = (Some s', gl1) /\
    getBuffer encodeScalar (attrib s) = Some buffer /\
    let (_, gl2) := drawTruck getAttribLocation s' numIndices gl1 in
    buffers gl2 = buffers gl1 /\
    filter isPointer (callsSince (calls gl1) gl2) =
      filter isPointer (callsSince (calls gl) gl1) /\
    filter (onTarget ARRAY_BUFFER) (callsSince (calls gl) gl1) =
      [bindBuffer ARRAY_BUFFER (vertex s');
       bufferData ARRAY_BUFFER (ArrayBuffer buffer) STATIC_DRAW] /\
    filter (onTarget ARRAY_BUFFER) (callsSince (calls gl1) gl2) =
      [bindBuffer ARRAY_BUFFER (vertex s')] /\
    Forall (fun c => match c with bufferData _ _ _ => False | _ => True end)
      (callsSince (calls gl1) gl2).
Proof.
  intros Ev. rewrite setupVertexBuffers_run, (getBuffer_Some _ Ev).
  do 3 eexists. split; [reflexivity|]. split; [reflexivity|].
  rewrite drawTruck_run.
  cbn [attrib vertex index hasIndex buffers calls].
  rewrite !callsSince_app.
  split; [reflexivity|]. split; [|split; [|split]].
  - cbn [filter isPointer]. rewrite filter_app, !pointers_isPointer.
    destruct (hasIndex s); cbn [filter isPointer]; now rewrite app_nil_r.
  - cbn [filter onTarget]. rewrite pointers_not; reflexivity.
  - cbn [filter onTarget]. rewrite filter_app, pointers_not by reflexivity.
    destruct (hasIndex s); reflexivity.
  - constructor; [exact I|]. apply Forall_app. split.
    + apply Forall_forall. intros c Hc. apply in_flat_map in Hc.
      destruct Hc as [a [_ Hc]]. destruct Hc as [<-|[<-|[]]]; exact I.
    + destruct (hasIndex s); repeat constructor.
Qed.

(** X13. [drawTruck] draws exactly when the shape has the flag [hasIndex]:
    then its last two calls bind the index buffer of the shape and draw
    [numIndices] indices as triangles, once; without the flag it binds the
    attributes and draws nothing, nor does it report anything. *)
Theorem drawTruck_draws (s : RenderShape) (numIndices : nat) (gl : Context) :
  let (_, gl') := drawTruck getAttribLocation s numIndices gl in
  filter (fun c => onTarget ELEMENT_ARRAY_BUFFER c || isDraw c) (callsSince (calls gl) gl') =
    (if hasIndex s
     then [bindBuffer ELEMENT_ARRAY_BUFFER (index s);
           drawElements TRIANGLES numIndices UNSIGNED_SHORT 0]
     else []) /\
  (hasIndex s = true ->
   exists before,
     callsSince (calls gl) gl' =
       before ++ [bindBuffer ELEMENT_ARRAY_BUFFER (index s);
                  drawElements TRIANGLES numIndices UNSIGNED_SHORT 0]).
Proof.
  rewrite drawTruck_run, callsSince_app. split.
  - cbn [filter onTarget isDraw orb]. rewrite filter_app, pointers_not by reflexivity.
    destruct (hasIndex s); reflexivity.
  - intros ->. eexists (_ :: _). cbn [app]. reflexivity.
Qed.


End RendererFacts.

Lemma drawTruck_draws_witness :
  exists before,
    callsSince [] (snd (drawTruck (fun _ => 0%Z)
                          {| attrib := []; vertex := Some 1; index := Some 0;
                             hasIndex := true |} 36
                          {| buffers := 2; calls := [] |})) =
    before ++ [bindBuffer ELEMENT_ARRAY_BUFFER (Some 0);
               drawElements TRIANGLES 36 UNSIGNED_SHORT 0].
Proof.
  exact (proj2 (@drawTruck_draws (fun _ => 0%Z)
                  {| attrib := []; vertex := Some 1; index := Some 0; hasIndex := true |}
                  36 {| buffers := 2; calls := [] |}) eq_refl).
Defined.

(** ** Loading, then drawing *)

Lemma toUint16_range (x : number) : (0 <= toUint16 x < 65536)%Z.
Proof. unfold toUint16. apply Z.mod_pos_bound. lia. Qed.

Lemma parseDataFile_rows (d : list number) (rows : list Row) :
  rows <> [] -> forallb wfRow rows = true ->
  parseDataFile d (joinLines (map rowText rows)) = flat_map rowValues rows.
Proof.
  intros Hne Hwf. rewrite parseDataFile_unfold.
  rewrite isBlank_ink by exact (@hasInk_joinLines rows Hne Hwf).
  unfold surviving.
  pose proof (@linesOf_well_formed rows [] [] Hne Hwf eq_refl eq_refl) as E.
  cbn [app] in E. rewrite app_nil_r in E. rewrite E.
  rewrite (survivors_of_rows _ Hwf).
  destruct rows as [|r rs]; [congruence | reflexivity].
Qed.

Lemma truckAttributes_count (positionsArray colorsArray normalsArray : list number)
  (colorIndices : list (option nat)) (V : nat) :
  length colorIndices = tripleCount (length colorsArray) ->
  (vertexCount (truckAttributes positionsArray colorIndices normalsArray) = Some V <->
   truckCount V positionsArray colorsArray normalsArray = true).
Proof.
  intros Hc. unfold truckCount.
  rewrite !andb_true_iff, Nat.ltb_lt, !Nat.eqb_eq. split.
  - intros H. destruct (vertexCount_Some _ H) as [_ [HV Ha]].
    unfold truckAttributes, addAttribute in Ha. cbn [app] in Ha.
    pose proof (Ha _ (or_introl eq_refl)) as [_ H1].
    pose proof (Ha _ (or_intror (or_introl eq_refl))) as [_ H2].
    pose proof (Ha _ (or_intror (or_intror (or_introl eq_refl)))) as [_ H3].
    cbn [attr_data attr_size] in H1, H2, H3. rewrite length_map in H2. lia.
  - intros [[[HV H1] H2] H3]. apply vertexCount_agree; [discriminate | assumption |].
    unfold truckAttributes, addAttribute. cbn [app].
    intros a [<-|[<-|[<-|[]]]]; cbn [attr_data attr_size];
      rewrite ?length_map; lia.
Qed.

Section LoaderFacts.

Variable getAttribLocation : jsstring -> Z.
Variable encodeScalar : number -> list Byte.byte.
Variable createDefaultCubeData : list number.

Lemma loadTruckData_run (positionsText colorsText normalsText indicesText : jsstring)
  (gl : Context) :
  let keys := keysOf (parseDataFile createDefaultCubeData colorsText) in
  let attributes :=
    truckAttributes (parseDataFile createDefaultCubeData positionsText)
      (map Some (map (indexIn (firstOcc keys)) keys))
      (parseDataFile createDefaultCubeData normalsText) in
  let indicesArray := parseDataFile createDefaultCubeData indicesText in
  loadTruckData getAttribLocation encodeScalar createDefaultCubeData
    positionsText colorsText normalsText indicesText gl =
  match getBuffer encodeScalar attributes with
  | Some buffer =>
      (Some {| shape := {| attrib := attributes; vertex := Some (S (buffers gl));
                           index := Some (buffers gl); hasIndex := true |};
               numIndices := length indicesArray |},
       {| buffers := S (S (buffers gl));
          calls := calls gl ++
            bindBuffer ELEMENT_ARRAY_BUFFER (Some (buffers gl)) ::
            bufferData ELEMENT_ARRAY_BUFFER (Uint16Array (map toUint16 indicesArray))
              STATIC_DRAW ::
            bindBuffer ARRAY_BUFFER (Some (S (buffers gl))) ::
            bufferData ARRAY_BUFFER (ArrayBuffer buffer) STATIC_DRAW ::
            flat_map (pointerCalls getAttribLocation (getStride attributes))
              (filter (known getAttribLocation) attributes) |})
  | None =>
      (None,
       {| buffers := S (S (buffers gl));
          calls := calls gl ++
            [bindBuffer ELEMENT_ARRAY_BUFFER (Some (buffers gl));
             bufferData ELEMENT_ARRAY_BUFFER (Uint16Array (map toUint16 indicesArray))
               STATIC_DRAW;
             bindBuffer ARRAY_BUFFER (Some (S (buffers gl)))] |})
  end.
Proof.
  intros keys attributes indicesArray. unfold loadTruckData.
  destruct (generateColorIndices_spec (parseDataFile createDefaultCubeData colorsText))
    as [_ Hg].
  rewrite Hg. fold keys.
  change (addAttribute
            (addAttribute
               (addAttribute [] (str "a_Position")
                  (parseDataFile createDefaultCubeData positionsText) 3)
               (str "a_ColorIndex")
               (map indexNumber (map Some (map (indexIn (firstOcc keys)) keys))) 1)
            (str "a_Normal") (parseDataFile createDefaultCubeData normalsText) 3)
    with attributes.
  fold indicesArray.
  unfold bind at 1 2 3 4, createBuffer, call, newRenderShape.
  cbn [attrib vertex index hasIndex buffers calls].
  rewrite setupVertexBuffers_run. cbn [attrib vertex index hasIndex buffers calls].
  destruct (getBuffer encodeScalar attributes) as [buffer|]; unfold ret;
    rewrite <- !app_assoc; reflexivity.
Qed.

Lemma loadTruckData_count (positionsText colorsText normalsText : jsstring) (V : nat) :
  let keys := keysOf (parseDataFile createDefaultCubeData colorsText) in
  vertexCount
    (truckAttributes (parseDataFile createDefaultCubeData positionsText)
       (map Some (map (indexIn (firstOcc keys)) keys))
       (parseDataFile createDefaultCubeData normalsText)) = Some V <->
  truckCount V (parseDataFile createDefaultCubeData positionsText)
    (parseDataFile createDefaultCubeData colorsText)
    (parseDataFile createDefaultCubeData normalsText) = true.
Proof.
  intros keys. apply truckAttributes_count.
  unfold keys. now rewrite !length_map, keysOf_length.
Qed.

(** X14. The index text is uploaded whatever the other texts: the only
    calls of [loadTruckData] on the element array target bind the index
    buffer and upload one [Uint16Array] with as many elements as numbers were
    read from the index text, each one reduced into the range of 16 bits.
    When the position, colour and normal series agree on a number of
    vertices, [loadTruckData] succeeds: the shape has the flag [hasIndex], an
    index buffer and a vertex buffer that are two different buffers, and
    [numIndices] is the number of elements uploaded, so that [drawTruck] on
    the loaded shape, in whatever context, binds the same index buffer and
    draws exactly as many indices as it holds. When they agree on none, the
    load fails and no truck data is stored. *)
Theorem loadTruckData_index_buffer
  (positionsText colorsText normalsText indicesText : jsstring) (gl : Context) :
  let positionsArray := parseDataFile createDefaultCubeData positionsText in
  let colorsArray := parseDataFile createDefaultCubeData colorsText in
  let normalsArray := parseDataFile createDefaultCubeData normalsText in
  let indicesArray := parseDataFile createDefaultCubeData indicesText in
  let (done, gl1) :=
    loadTruckData getAttribLocation encodeScalar createDefaultCubeData
      positionsText colorsText normalsText indicesText gl in
  (exists elements,
     filter (onTarget ELEMENT_ARRAY_BUFFER) (callsSince (calls gl) gl1) =
       [bindBuffer ELEMENT_ARRAY_BUFFER (Some (buffers gl));
        bufferData ELEMENT_ARRAY_BUFFER (Uint16Array elements) STATIC_DRAW] /\
     length elements = length indicesArray /\
     Forall (fun x => 0 <= x < 65536)%Z elements) /\
  (forall V, truckCount V positionsArray colorsArray normalsArray = true ->
     exists td,
       done = Some td /\
       hasIndex (shape td) = true /\
       index (shape td) = Some (buffers gl) /\
       vertex (shape td) = Some (S (buffers gl)) /\
       numIndices td = length indicesArray /\
       forall gl' : Context,
         let (_, gl2) := drawTruck getAttribLocation (shape td) (numIndices td) gl' in
         filter (fun c => onTarget ELEMENT_ARRAY_BUFFER c || isDraw c)
           (callsSince (calls gl') gl2) =
         [bindBuffer ELEMENT_ARRAY_BUFFER (index (shape td));
          drawElements TRIANGLES (length indicesArray) UNSIGNED_SHORT 0]) /\
  ((forall V, truckCount V positionsArray colorsArray normalsArray = false) ->
   done = None).
Proof.
  intros positionsArray colorsArray normalsArray indicesArray.
  rewrite loadTruckData_run. cbv zeta. fold indicesArray.
  set (attributes := truckAttributes _ _ _).
  assert (Hrange : Forall (fun x => 0 <= x < 65536)%Z (map toUint16 indicesArray)).
  { apply Forall_forall. intros x Hx. apply in_map_iff in Hx.
    destruct Hx as [v [<- _]]. apply toUint16_range. }
  destruct (vertexCount attributes) as [W|] eqn:Ev.
  - rewrite (getBuffer_Some encodeScalar _ Ev). rewrite callsSince_app. split; [|split].
    + eexists. split; [|split; [|exact Hrange]].
      * cbn [filter onTarget]. rewrite pointers_not; reflexivity.
      * now rewrite length_map.
    + intros V _. eexists. split; [reflexivity|].
      cbn [shape numIndices attrib vertex index hasIndex].
      do 4 (split; [reflexivity|]).
      intros gl'. rewrite drawTruck_run, callsSince_app.
      cbn [attrib vertex index hasIndex filter onTarget isDraw orb].
      rewrite filter_app, pointers_not by reflexivity. reflexivity.
    + intros Hno. apply loadTruckData_count in Ev.
      fold positionsArray colorsArray normalsArray in Ev.
      rewrite Hno in Ev. discriminate.
  - rewrite (getBuffer_None encodeScalar _ Ev). rewrite callsSince_app. split; [|split].
    + eexists. split; [|split; [|exact Hrange]].
      * reflexivity.
      * now rewrite length_map.
    + intros V HV. apply loadTruckData_count in HV.
      fold attributes in HV. rewrite HV in Ev. discriminate.
    + reflexivity.
Qed.

(** X15. When the position, colour and normal texts have the same number
    [N] of well-formed lines, the three attributes of the loaded shape are
    [a_Position], [a_ColorIndex] and [a_Normal] of widths 3, 1 and 3, in this
    order, and they agree on the number of vertices: each has [N] times its
    width numbers, the colour attribute one index for each line of the colour
    text. *)
Theorem loadTruckData_vertex_counts (positions colors normals : list Row)
  (indicesText : jsstring) (gl : Context) :
  positions <> [] ->
  forallb wfRow positions = true -> forallb wfRow colors = true ->
  forallb wfRow normals = true ->
  length colors = length positions -> length normals = length positions ->
  exists td gl1,
    loadTruckData getAttribLocation encodeScalar createDefaultCubeData
      (joinLines (map rowText positions)) (joinLines (map rowText colors))
      (joinLines (map rowText normals)) indicesText gl = (Some td, gl1) /\
    map attr_name (attrib (shape td)) =
      [str "a_Position"; str "a_ColorIndex"; str "a_Normal"] /\
    map attr_size (attrib (shape td)) = [3; 1; 3] /\
    Forall (fun a => length (attr_data a) = length positions * attr_size a)
      (attrib (shape td)).
Proof.
  intros Hne Hp Hc Hn Lc Ln.
  assert (Hcne : colors <> []) by (destruct colors, positions; simpl in *; congruence).
  assert (Hnne : normals <> []) by (destruct normals, positions; simpl in *; congruence).
  pose proof (loadTruckData_run (joinLines (map rowText positions))
                (joinLines (map rowText colors)) (joinLines (map rowText normals))
                indicesText gl) as E.
  cbv zeta in E.
  assert (Hcount : truckCount (length positions)
            (parseDataFile createDefaultCubeData (joinLines (map rowText positions)))
            (parseDataFile createDefaultCubeData (joinLines (map rowText colors)))
            (parseDataFile createDefaultCubeData (joinLines (map rowText normals)))
          = true).
  { unfold truckCount.
    rewrite (parseDataFile_rows _ Hne Hp), (parseDataFile_rows _ Hcne Hc),
      (parseDataFile_rows _ Hnne Hn), !flat_map_rowValues_length, tripleCount_exact.
    rewrite !andb_true_iff, Nat.ltb_lt, !Nat.eqb_eq.
    assert (0 < length positions) by (destruct positions; [congruence | simpl; lia]).
    lia. }
  apply loadTruckData_count in Hcount.
  rewrite (getBuffer_Some encodeScalar _ Hcount) in E.
  do 2 eexists. split; [exact E|].
  cbn [shape attrib]. unfold truckAttributes, addAttribute.
  cbn [app map attr_name attr_size].
  do 2 (split; [reflexivity|]).
  repeat constructor; cbn [attr_data attr_size].
  - rewrite (parseDataFile_rows _ Hne Hp), flat_map_rowValues_length. lia.
  - rewrite !length_map, keysOf_length, (parseDataFile_rows _ Hcne Hc).
    rewrite flat_map_rowValues_length, tripleCount_exact. lia.
  - rewrite (parseDataFile_rows _ Hnne Hn), flat_map_rowValues_length. lia.
Qed.

End LoaderFacts.

(** ** Decimal integers, read exactly *)

Lemma digits2_pos_iter (p d : positive) :
  digits2_pos (Pos.iter xO p d) = (digits2_pos p + d)%positive.
Proof.
  induction d as [|d IH] using Pos.peano_ind.
  - simpl. now rewrite Pos.add_1_r.
  - rewrite Pos.iter_succ. simpl. rewrite IH. now rewrite Pos.add_succ_r.
Qed.

Lemma iter_xO_value (p d : positive) :
  Zpos (Pos.iter xO p d) = (Zpos p * 2 ^ Zpos d)%Z.
Proof.
  pose proof (shift_pos_correct d p) as H. unfold shift_pos in H.
  rewrite H. change (Z.pow_pos 2 d) with (2 ^ Zpos d)%Z. lia.
Qed.

Lemma digits2_pos_lower (p : positive) :
  (2 ^ (Zpos (digits2_pos p) - 1) <= Zpos p)%Z.
Proof.
  induction p as [p IH|p IH|]; cbn [digits2_pos].
  - rewrite Pos2Z.inj_succ. replace (Z.succ (Zpos (digits2_pos p)) - 1)%Z
      with (Z.succ (Zpos (digits2_pos p) - 1))%Z by lia.
    rewrite Z.pow_succ_r by lia. lia.
  - rewrite Pos2Z.inj_succ. replace (Z.succ (Zpos (digits2_pos p)) - 1)%Z
      with (Z.succ (Zpos (digits2_pos p) - 1))%Z by lia.
    rewrite Z.pow_succ_r by lia. lia.
  - simpl. lia.
Qed.

Lemma digits2_pos_53 (p : positive) :
  (Zpos p < 2 ^ 53)%Z -> (Zpos (digits2_pos p) <= 53)%Z.
Proof.
  intros H. pose proof (digits2_pos_lower p) as L.
  destruct (Z_le_gt_dec (Zpos (digits2_pos p)) 53) as [|G]; [assumption|].
  assert (2 ^ 53 <= 2 ^ (Zpos (digits2_pos p) - 1))%Z by (apply Z.pow_le_mono_r; lia).
  lia.
Qed.

(** A mantissa of 53 bits with an exponent in range is not rounded. *)
Lemma binary_round_aux_canonical (m : positive) (e : Z) :
  Zpos (digits2_pos m) = 53%Z -> (-1074 <= e <= 971)%Z ->
  binary_round_aux prec emax false (Zpos m) e loc_Exact = S754_finite false m e.
Proof.
  intros Hd He. unfold binary_round_aux, shr_fexp.
  assert (F : (fexp prec emax (Zdigits2 (Zpos m) + e) - e = 0)%Z).
  { unfold fexp, emin, Zdigits2, prec, emax. rewrite Hd. lia. }
  rewrite F. cbn [shr shr_record_of_loc shr_m loc_of_shr_record round_nearest_even].
  rewrite F. cbn [shr shr_record_of_loc shr_m].
  replace (e <=? emax - prec)%Z with true; [reflexivity|].
  symmetry. apply Z.leb_le. unfold emax, prec. lia.
Qed.

(** A positive integer below 2^53 is a Number: its mantissa, shifted to 53
    bits, holds it exactly. *)
Lemma binary_round_exact (p : positive) :
  (Zpos p < 2 ^ 53)%Z ->
  exists m e,
    binary_round prec emax false p 0 = S754_finite false m e /\
    (-52 <= e <= 0)%Z /\ Zpos m = (Zpos p * 2 ^ (- e))%Z.
Proof.
  intros H. apply digits2_pos_53 in H.
  unfold binary_round, shl_align.
  assert (F : (fexp prec emax (Zpos (digits2_pos p) + 0) - 0
               = Zpos (digits2_pos p) - 53)%Z).
  { unfold fexp, emin, prec, emax. lia. }
  rewrite F. replace (fexp prec emax (Zpos (digits2_pos p) + 0))
    with (Zpos (digits2_pos p) - 53)%Z by (unfold fexp, emin, prec, emax; lia).
  destruct (Zpos (digits2_pos p) - 53)%Z as [|k|k] eqn:E; [|lia|].
  - exists p, 0%Z. rewrite binary_round_aux_canonical by lia.
    split; [reflexivity|]. split; [lia|]. simpl. lia.
  - exists (Pos.iter xO p k), (Zneg k).
    rewrite binary_round_aux_canonical.
    + split; [reflexivity|]. split; [lia|]. apply iter_xO_value.
    + rewrite digits2_pos_iter. lia.
    + lia.
Qed.

Lemma truncate_exact (m : positive) (e v : Z) :
  (e <= 0)%Z -> Zpos m = (v * 2 ^ (- e))%Z -> truncate (S754_finite false m e) = v.
Proof.
  intros He Hm. unfold truncate. cbn [cond_Zopp].
  destruct (e <? 0)%Z eqn:E.
  - rewrite Hm. apply Z.div_mul. apply Z.pow_nonzero; lia.
  - apply Z.ltb_ge in E. assert (e = 0)%Z by lia. subst e. simpl in *. lia.
Qed.

(** An integer [0 <= v < 2^53] as a Number: finite, and truncated to [v]. *)
Lemma round_decimal_integer (v : Z) :
  (0 <= v < 2 ^ 53)%Z ->
  invalidValue (round_decimal false v 0) = false /\
  truncate (round_decimal false v 0) = v.
Proof.
  intros [H0 H1]. destruct v as [|p|p]; [split; reflexivity| |lia].
  unfold round_decimal. rewrite Z.pow_0_r, Z.mul_1_r.
  destruct (@binary_round_exact p H1) as [m [e [-> [He Hm]]]].
  split; [reflexivity|]. apply truncate_exact; [lia | assumption].
Qed.

(** ** Digit strings *)

Lemma span_all (p : char -> bool) (s : jsstring) :
  forallb p s = true -> span p s = (s, []).
Proof.
  induction s as [|c r IH]; simpl; [reflexivity|]. intros H.
  apply andb_prop in H. destruct H as [-> Hr]. now rewrite IH.
Qed.

Lemma digit_neq (c : char) (a : ascii) :
  isDigit c = true -> isDigit (ch a) = false -> (c =? ch a)%N = false.
Proof.
  intros H Ha. destruct (N.eqb_spec c (ch a)) as [->|]; [congruence | reflexivity].
Qed.

Lemma isDigit_isInk (c : char) : isDigit c = true -> isInk c = true.
Proof.
  unfold isDigit. intros H. apply andb_prop in H. destruct H as [H1 H2].
  apply N.leb_le in H1. apply N.leb_le in H2.
  assert (E : (c = 48 \/ c = 49 \/ c = 50 \/ c = 51 \/ c = 52 \/ c = 53 \/ c = 54 \/
               c = 55 \/ c = 56 \/ c = 57)%N) by lia.
  repeat (destruct E as [->|E]; [reflexivity|]). now subst.
Qed.

Lemma digits_allInk (s : jsstring) : forallb isDigit s = true -> allInk s = true.
Proof. apply forallb_weaken, isDigit_isInk. Qed.

Lemma trim_digits (s : jsstring) : s <> [] -> forallb isDigit s = true -> trim s = s.
Proof.
  intros Hne H. apply digits_allInk in H. unfold trim.
  rewrite <- (app_nil_r s) at 1. rewrite (@trimStart_ink s [] H Hne), app_nil_r.
  rewrite <- (app_nil_l s) at 1. now rewrite (@trimEnd_ink [] s H Hne).
Qed.

Lemma parseNonDecimal_digits (s : jsstring) :
  forallb isDigit s = true -> parseNonDecimal s = None.
Proof.
  destruct s as [|z [|p ds]]; try reflexivity. intros H.
  cbn [forallb] in H. apply andb_prop in H. destruct H as [_ H].
  apply andb_prop in H. destruct H as [Hp _].
  unfold parseNonDecimal.
  rewrite (@digit_neq p "x"%char Hp eq_refl), (@digit_neq p "X"%char Hp eq_refl),
    (@digit_neq p "o"%char Hp eq_refl), (@digit_neq p "O"%char Hp eq_refl),
    (@digit_neq p "b"%char Hp eq_refl), (@digit_neq p "B"%char Hp eq_refl).
  cbn [orb]. now destruct ((z =? ch "0")%N && negb (isNil ds)).
Qed.

Lemma digitsValue_nonneg (s : jsstring) : (0 <= digitsValue 10 s)%Z.
Proof.
  unfold digitsValue.
  assert (G : forall acc, (0 <= acc)%Z ->
            (0 <= fold_left (fun a c => a * 10 + digitVal c) s acc)%Z).
  { induction s as [|c r IH]; intros acc Ha; simpl; [assumption|].
    apply IH. assert (0 <= digitVal c)%Z.
    { unfold digitVal. destruct (isDigit c); [|destruct (c <=? 70)%N]; lia. }
    lia. }
  apply G. lia.
Qed.

(** [Number] on a string of decimal digits. *)
Lemma Number_digits (s : jsstring) :
  s <> [] -> forallb isDigit s = true ->
  Number s = round_decimal false (digitsValue 10 s) 0.
Proof.
  intros Hne H. unfold Number. rewrite (@trim_digits s Hne H).
  destruct s as [|c r] eqn:Es; [congruence|]. rewrite <- Es in *.
  rewrite (@parseNonDecimal_digits s H).
  assert (Hc : isDigit c = true).
  { rewrite Es in H. cbn [forallb] in H. apply andb_prop in H. tauto. }
  rewrite (@digit_neq c "-"%char Hc eq_refl), (@digit_neq c "+"%char Hc eq_refl).
  unfold parseUnsignedDecimal.
  assert (Hi : jsstring_eqb s (str "Infinity") = false).
  { apply jsstring_eqb_neq. intros E. rewrite E in H. vm_compute in H. discriminate. }
  rewrite Hi, (@span_all isDigit s H).
  replace (negb (isNil s)) with true by (rewrite Es; reflexivity).
  cbn [parseExponent length]. now rewrite app_nil_r.
Qed.

Lemma isIndexToken_spec (t : jsstring) :
  isIndexToken t = true ->
  t <> [] /\ forallb isDigit t = true /\ (0 <= digitsValue 10 t < 2 ^ 53)%Z.
Proof.
  unfold isIndexToken. intros H. apply andb_prop in H. destruct H as [H H3].
  apply andb_prop in H. destruct H as [H1 H2]. apply Z.ltb_lt in H3.
  split; [now destruct t|]. split; [assumption|].
  split; [apply digitsValue_nonneg | assumption].
Qed.

Lemma indexToken_value (t : jsstring) :
  isIndexToken t = true ->
  tokenOk t = true /\ toUint16 (Number t) = (digitsValue 10 t mod 65536)%Z.
Proof.
  intros H. destruct (@isIndexToken_spec t H) as [Hne [Hd Hv]].
  destruct (@round_decimal_integer _ Hv) as [Hf Ht].
  unfold tokenOk, toUint16. rewrite (@Number_digits t Hne Hd), Hf, Ht. split; reflexivity.
Qed.

(** ** The index buffer of an index file *)

Lemma indexLine_numbers (l : TokenLine) :
  forallb isIndexToken (tokenLineTokens l) = true ->
  tokenLineNumbers l = map Number (tokenLineTokens l).
Proof.
  intros H. unfold tokenLineNumbers.
  replace (forallb tokenOk (tokenLineTokens l)) with true; [reflexivity|].
  symmetry. apply forallb_forall. intros t Ht.
  rewrite forallb_forall in H. now apply indexToken_value, H.
Qed.

Lemma indexLines_numbers (ls : list TokenLine) :
  forallb (fun l => forallb isIndexToken (tokenLineTokens l)) ls = true ->
  flat_map tokenLineNumbers ls = map Number (flat_map tokenLineTokens ls).
Proof.
  induction ls as [|l r IH]; [reflexivity|]. intros H.
  cbn [forallb] in H. apply andb_prop in H. destruct H as [Hl Hr].
  cbn [flat_map]. now rewrite map_app, (indexLine_numbers _ Hl), (IH Hr).
Qed.

Lemma indexLines_tokens (ls : list TokenLine) :
  forallb (fun l => forallb isIndexToken (tokenLineTokens l)) ls = true ->
  forallb isIndexToken (flat_map tokenLineTokens ls) = true.
Proof.
  induction ls as [|l r IH]; [reflexivity|]. intros H.
  cbn [forallb] in H. apply andb_prop in H. destruct H as [Hl Hr].
  cbn [flat_map]. now rewrite forallb_app, Hl, (IH Hr).
Qed.

Lemma indexTokens_elements (ts : list jsstring) :
  forallb isIndexToken ts = true ->
  map toUint16 (map Number ts) = map (fun t => digitsValue 10 t mod 65536)%Z ts.
Proof.
  intros H. rewrite map_map. apply map_ext_in. intros t Ht.
  rewrite forallb_forall in H. now apply indexToken_value, H.
Qed.

Lemma parseDataFile_index_lines (d : list number) (ls : list TokenLine) :
  ls <> [] -> forallb wfTokenLine ls = true ->
  forallb (fun l => forallb isIndexToken (tokenLineTokens l)) ls = true ->
  parseDataFile d (joinLines (map tokenLineText ls))
  = map Number (flat_map tokenLineTokens ls).
Proof.
  intros Hne Hwf Hidx.
  rewrite (@parseDataFile_token_lines d ls Hne Hwf), (indexLines_numbers _ Hidx).
  destruct ls as [|l r]; [congruence|]. reflexivity.
Qed.

Section IndexFile.

Variable getAttribLocation : jsstring -> Z.
Variable encodeScalar : number -> list Byte.byte.
Variable createDefaultCubeData : list number.

(** X16. An index text of lines of decimal integers below 2^53, any number
    of them on a line, with position, colour and normal series that agree on
    a number of vertices: [loadTruckData] uploads to the element array buffer
    one element for each integer of the text, in order, which is the integer
    reduced modulo 65536; [numIndices] is their number. An index of 65536
    or more is thus replaced by another index without notice, a smaller one
    is uploaded as it is. *)
Theorem loadTruckData_index_file
  (positionsText colorsText normalsText : jsstring) (ls : list TokenLine)
  (gl : Context) (V : nat) :
  ls <> [] -> forallb wfTokenLine ls = true ->
  forallb (fun l => forallb isIndexToken (tokenLineTokens l)) ls = true ->
  truckCount V (parseDataFile createDefaultCubeData positionsText)
    (parseDataFile createDefaultCubeData colorsText)
    (parseDataFile createDefaultCubeData normalsText) = true ->
  let tokens := flat_map tokenLineTokens ls in
  let elements := map (fun t => digitsValue 10 t mod 65536)%Z tokens in
  exists td gl1,
    loadTruckData getAttribLocation encodeScalar createDefaultCubeData
      positionsText colorsText normalsText (joinLines (map tokenLineText ls)) gl
    = (Some td, gl1) /\
    numIndices td = length tokens /\
    filter (onTarget ELEMENT_ARRAY_BUFFER) (callsSince (calls gl) gl1) =
      [bindBuffer ELEMENT_ARRAY_BUFFER (index (shape td));
       bufferData ELEMENT_ARRAY_BUFFER (Uint16Array elements) STATIC_DRAW] /\
    (forallb (fun t => digitsValue 10 t <? 65536)%Z tokens = true ->
     elements = map (digitsValue 10) tokens).
Proof.
  intros Hne Hwf Hidx Hcount tokens elements. subst elements tokens.
  pose proof (loadTruckData_run getAttribLocation encodeScalar createDefaultCubeData
                positionsText colorsText normalsText
                (joinLines (map tokenLineText ls)) gl) as E.
  cbv zeta in E. apply loadTruckData_count in Hcount.
  rewrite (getBuffer_Some encodeScalar _ Hcount) in E.
  do 2 eexists. split; [exact E|].
  cbn [shape numIndices index]. rewrite callsSince_app.
  rewrite (@parseDataFile_index_lines createDefaultCubeData ls Hne Hwf Hidx).
  split; [now rewrite length_map|]. split.
  - cbn [filter onTarget]. rewrite pointers_not by reflexivity.
    rewrite (indexTokens_elements _ (indexLines_tokens _ Hidx)). reflexivity.
  - intros Hs. apply map_ext_in. intros t Ht.
    rewrite forallb_forall in Hs. specialize (Hs t Ht). apply Z.ltb_lt in Hs.
    pose proof (digitsValue_nonneg t). apply Z.mod_small. lia.
Qed.

End IndexFile.

Lemma loadTruckData_index_file_witness :
  exists td gl1,
    loadTruckData (fun _ => 0%Z) encodeFloat32 []
      (str "0 0 0" ++ LF :: str "1 0 0" ++ LF :: str "0 1 0")
      (str "1 0 0" ++ LF :: str "1 0 0" ++ LF :: str "0 1 0")
      (str "0 0 1" ++ LF :: str "0 0 1" ++ LF :: str "0 0 1")
      (str "0 1 2" ++ LF :: str " 2 65537 0") {| buffers := 0; calls := [] |}
    = (Some td, gl1) /\
    numIndices td = 6 /\
    filter (onTarget ELEMENT_ARRAY_BUFFER) (callsSince [] gl1) =
      [bindBuffer ELEMENT_ARRAY_BUFFER (index (shape td));
       bufferData ELEMENT_ARRAY_BUFFER (Uint16Array [0; 1; 2; 2; 1; 0]%Z) STATIC_DRAW].
Proof.
  destruct (@loadTruckData_index_file (fun _ => 0%Z) encodeFloat32 []
    (str "0 0 0" ++ LF :: str "1 0 0" ++ LF :: str "0 1 0")
    (str "1 0 0" ++ LF :: str "1 0 0" ++ LF :: str "0 1 0")
    (str "0 0 1" ++ LF :: str "0 0 1" ++ LF :: str "0 0 1")
    [ {| tl_pre := []; tl_first := str "0";
         tl_more := [(str " ", str "1"); (str " ", str "2")]; tl_post := [] |};
      {| tl_pre := str " "; tl_first := str "2";
         tl_more := [(str " ", str "65537"); (str " ", str "0")]; tl_post := [] |} ]
    {| buffers := 0; calls := [] |} 3
    ltac:(discriminate) ltac:(vm_compute; reflexivity) ltac:(vm_compute; reflexivity)
    ltac:(vm_compute; reflexivity))
    as [td [gl1 [H1 [H2 [H3 _]]]]].
  exists td, gl1. split; [exact H1|]. split; [exact H2 | exact H3].
Defined.

(** ** Instances of the properties with a condition *)

Lemma generateColorIndices_lookup_witness :
  exists st idxs,
    dedupe [one; pos_zero; pos_zero; pos_zero; one; pos_zero] = Some st /\
    nth_error (colorMap st) (nth 1 idxs 0)
    = Some (colorKey [one; pos_zero; pos_zero; pos_zero; one; pos_zero] (3 * 1),
            nth 1 idxs 0).
Proof.
  destruct (@generateColorIndices_lookup
              [one; pos_zero; pos_zero; pos_zero; one; pos_zero])
    as [st [idxs [H1 [_ [H3 _]]]]].
  exists st, idxs. split; [exact H1|]. apply H3. vm_compute. lia.
Defined.

Lemma setupVertexBuffers_calls_witness :
  let getAttribLocation :=
    fun name => if jsstring_eqb name (str "a_Normal") then (-1)%Z else 0%Z in
  (exists s' gl',
     setupVertexBuffers getAttribLocation encodeFloat32
       {| attrib := scenarioAttributes; vertex := None; index := Some 0;
          hasIndex := true |}
       {| buffers := 1; calls := [] |} = (Some s', gl') /\
     vertex s' <> index s' /\
     length (filter isPointer (callsSince [] gl')) = 4) /\
  fst (setupVertexBuffers getAttribLocation encodeFloat32
         {| attrib := buildAttributes [(str "a_Position", [one; one; one; one; one; one], 3);
                                        (str "a_Normal", [one; one; one], 3)];
            vertex := None; index := Some 0; hasIndex := true |}
         {| buffers := 1; calls := [] |}) = None.
Proof.
  intros getAttribLocation. split.
  - pose proof (@setupVertexBuffers_calls getAttribLocation encodeFloat32
                  {| attrib := scenarioAttributes; vertex := None; index := Some 0;
                     hasIndex := true |}
                  {| buffers := 1; calls := [] |}) as H.
    destruct (setupVertexBuffers getAttribLocation encodeFloat32
                {| attrib := scenarioAttributes; vertex := None; index := Some 0;
                   hasIndex := true |}
                {| buffers := 1; calls := [] |}) as [done gl'].
    destruct H as [_ [H _]].
    destruct (H 2 eq_refl) as [s' [buffer [-> [_ [_ [Hv [_ [_ [_ [_ [_ Hl]]]]]]]]]]].
    exists s', gl'. split; [reflexivity|]. split.
    + apply (Hv 0); [reflexivity | simpl; lia].
    + exact Hl.
  - pose proof (@setupVertexBuffers_calls getAttribLocation encodeFloat32
                  {| attrib := buildAttributes
                                 [(str "a_Position", [one; one; one; one; one; one], 3);
                                  (str "a_Normal", [one; one; one], 3)];
                     vertex := None; index := Some 0; hasIndex := true |}
                  {| buffers := 1; calls := [] |}) as H.
    destruct (setupVertexBuffers getAttribLocation encodeFloat32
                {| attrib := buildAttributes
                               [(str "a_Position", [one; one; one; one; one; one], 3);
                                (str "a_Normal", [one; one; one], 3)];
                   vertex := None; index := Some 0; hasIndex := true |}
                {| buffers := 1; calls := [] |}) as [done gl'].
    destruct H as [_ [_ H]]. exact (proj1 (H eq_refl)).
Defined.

Lemma drawTruck_after_setup_witness :
  exists s' buffer gl1,
    setupVertexBuffers (fun _ => 0%Z) encodeFloat32
      {| attrib := scenarioAttributes; vertex := None; index := Some 0;
         hasIndex := true |}
      {| buffers := 1; calls := [] |} = (Some s', gl1) /\
    getBuffer encodeFloat32 scenarioAttributes = Some buffer /\
    filter isPointer (callsSince (calls gl1) (snd (drawTruck (fun _ => 0%Z) s' 36 gl1)))
    = filter isPointer (callsSince [] gl1).
Proof.
  destruct (@drawTruck_after_setup (fun _ => 0%Z) encodeFloat32
              {| attrib := scenarioAttributes; vertex := None; index := Some 0;
                 hasIndex := true |}
              36 {| buffers := 1; calls := [] |} 2 eq_refl)
    as [s' [buffer [gl1 [H1 [H2 H3]]]]].
  exists s', buffer, gl1. split; [exact H1|]. split; [exact H2|].
  destruct (drawTruck (fun _ => 0%Z) s' 36 gl1) as [u gl2]. cbn [snd].
  exact (proj1 (proj2 H3)).
Defined.

Lemma loadTruckData_index_buffer_witness :
  (exists td,
     fst (loadTruckData (fun _ => 0%Z) encodeFloat32 []
            (str "0 0 0" ++ LF :: str "1 0 0") (str "1 0 0" ++ LF :: str "1 0 0")
            (str "0 1 0" ++ LF :: str "0 1 0") (str "0 1 0")
            {| buffers := 0; calls := [] |}) = Some td /\
     numIndices td = 3) /\
  fst (loadTruckData (fun _ => 0%Z) encodeFloat32 []
         (str "0 0 0" ++ LF :: str "1 0 0") (str "1 0 0" ++ LF :: str "1 0 0")
         (str "0 1 0") (str "0 1 0")
         {| buffers := 0; calls := [] |}) = None.
Proof.
  split.
  - pose proof (@loadTruckData_index_buffer (fun _ => 0%Z) encodeFloat32 []
                  (str "0 0 0" ++ LF :: str "1 0 0") (str "1 0 0" ++ LF :: str "1 0 0")
                  (str "0 1 0" ++ LF :: str "0 1 0") (str "0 1 0")
                  {| buffers := 0; calls := [] |}) as H.
    cbv zeta in H.
    destruct (loadTruckData (fun _ => 0%Z) encodeFloat32 []
                (str "0 0 0" ++ LF :: str "1 0 0") (str "1 0 0" ++ LF :: str "1 0 0")
                (str "0 1 0" ++ LF :: str "0 1 0") (str "0 1 0")
                {| buffers := 0; calls := [] |}) as [done gl1].
    destruct H as [_ [H _]].
    destruct (H 2 ltac:(vm_compute; reflexivity)) as [td [-> [_ [_ [_ [Hn _]]]]]].
    exists td. split; [reflexivity|]. rewrite Hn. vm_compute. reflexivity.
  - pose proof (@loadTruckData_index_buffer (fun _ => 0%Z) encodeFloat32 []
                  (str "0 0 0" ++ LF :: str "1 0 0") (str "1 0 0" ++ LF :: str "1 0 0")
                  (str "0 1 0") (str "0 1 0")
                  {| buffers := 0; calls := [] |}) as H.
    cbv zeta in H.
    destruct (loadTruckData (fun _ => 0%Z) encodeFloat32 []
                (str "0 0 0" ++ LF :: str "1 0 0") (str "1 0 0" ++ LF :: str "1 0 0")
                (str "0 1 0") (str "0 1 0")
                {| buffers := 0; calls := [] |}) as [done gl1].
    destruct H as [_ [_ H]]. apply H. intros V.
    unfold truckCount.
    replace (length (parseDataFile [] (str "0 0 0" ++ LF :: str "1 0 0"))) with 6
      by (vm_compute; reflexivity).
    replace (length (parseDataFile [] (str "0 1 0"))) with 3
      by (vm_compute; reflexivity).
    destruct (6 =? 3 * V) eqn:E1; [|now rewrite andb_false_r].
    destruct (3 =? 3 * V) eqn:E2; [|now rewrite andb_false_r].
    apply Nat.eqb_eq in E1. apply Nat.eqb_eq in E2. lia.
Defined.

Lemma loadTruckData_vertex_counts_witness :
  exists td gl1,
    loadTruckData (fun _ => 0%Z) (fun _ => []) []
      (str "0 0 0" ++ LF :: str "1 0 0") (str "1 0 0" ++ LF :: str "1 0 0")
      (str "0 1 0" ++ LF :: str "0 1 0") (str "0 1 0")
      {| buffers := 0; calls := [] |} = (Some td, gl1) /\
    Forall (fun a => length (attr_data a) = 2 * attr_size a) (attrib (shape td)).
Proof.
  destruct (@loadTruckData_vertex_counts (fun _ => 0%Z) (fun _ => []) []
    [ {| pre := []; tok1 := str "0"; gap1 := str " "; tok2 := str "0";
         gap2 := str " "; tok3 := str "0"; post := [] |};
      {| pre := []; tok1 := str "1"; gap1 := str " "; tok2 := str "0";
         gap2 := str " "; tok3 := str "0"; post := [] |} ]
    [ {| pre := []; tok1 := str "1"; gap1 := str " "; tok2 := str "0";
         gap2 := str " "; tok3 := str "0"; post := [] |};
      {| pre := []; tok1 := str "1"; gap1 := str " "; tok2 := str "0";
         gap2 := str " "; tok3 := str "0"; post := [] |} ]
    [ {| pre := []; tok1 := str "0"; gap1 := str " "; tok2 := str "1";
         gap2 := str " "; tok3 := str "0"; post := [] |};
      {| pre := []; tok1 := str "0"; gap1 := str " "; tok2 := str "1";
         gap2 := str " "; tok3 := str "0"; post := [] |} ]
    (str "0 1 0") {| buffers := 0; calls := [] |}
    ltac:(discriminate) ltac:(vm_compute; reflexivity) ltac:(vm_compute; reflexivity)
    ltac:(vm_compute; reflexivity) eq_refl eq_refl)
    as [td [gl1 [H1 [_ [_ H4]]]]].
  exists td, gl1. split; [exact H1 | exact H4].
Defined.
